(** * tinymce-docs-cleanup-action: version model, bounded scheduler, retention pipeline

    A shallow embedding of [src/version.ts], [src/parallel.ts] and
    [src/main.ts], and the properties of the specification proved or
    refuted on it.

    Conventions of the embedding.
    - A JavaScript string is a [string]: a sequence of code units, here the
      8-bit ones.  [\d] matches the ten ASCII digits only.
    - A JavaScript [number] is an IEEE-754 double.  Only integral doubles,
      the two infinities and NaN occur in the code modelled here
      ([parseInt] of a digit group, and differences of such values), so
      [number] carries exactly those.
    - An absent or [undefined] field of a response is [None]. *)

From Stdlib Require Import ZArith Lia List String Ascii Bool Permutation SpecFloat.
From stdpp Require Import base gmap strings list.

Local Open Scope string_scope.
Local Open Scope list_scope.
Local Open Scope Z_scope.

(** ** JavaScript numbers, restricted to the values the code can produce *)

Module Num.

Inductive number : Type :=
| NaN
| Inf (negative : bool)
| Fin (z : Z).

(** Round-to-nearest, ties-to-even, of a non-negative integer to 53
    significant bits (the magnitude of the nearest double, before the
    overflow test). *)
Definition round_mag (m : Z) : Z :=
  if m <? 2 ^ 53 then m
  else
    let e := Z.log2 m - 52 in
    let q := m / 2 ^ e in
    let r := m mod 2 ^ e in
    let half := 2 ^ (e - 1) in
    let q' :=
      if r <? half then q
      else if half <? r then q + 1
      else if Z.even q then q else q + 1 in
    q' * 2 ^ e.

(** The Number value for a mathematical integer (ECMAScript's 𝔽). *)
Definition of_Z (z : Z) : number :=
  let v := round_mag (Z.abs z) in
  if 2 ^ 1024 <=? v then Inf (z <? 0) else Fin (Z.sgn z * v).

(** The same conversion through the Standard Library's specification of
    IEEE-754 binary64 ([binary_normalize] rounds to nearest, ties to
    even), kept to check [of_Z] against. *)
Definition of_spec_float (f : spec_float) : number :=
  match f with
  | S754_zero _ => Fin 0
  | S754_infinity s => Inf s
  | S754_nan => NaN
  | S754_finite s m e =>
      Fin ((if s then -1 else 1)
           * (if e <? 0 then Z.pos m / 2 ^ (- e) else Z.pos m * 2 ^ e))
  end.

Definition ieee_of_Z (z : Z) : number :=
  of_spec_float (binary_normalize 53 1024 z 0 false).

Definition number_eqb (a b : number) : bool :=
  match a, b with
  | NaN, NaN => true
  | Inf s, Inf t => Bool.eqb s t
  | Fin x, Fin y => x =? y
  | _, _ => false
  end.

(** [of_Z] and [ieee_of_Z] agree on the [n] integers from [z] on. *)
Fixpoint agree_from (z : Z) (n : nat) : bool :=
  match n with
  | O => true
  | S k => number_eqb (of_Z z) (ieee_of_Z z) && agree_from (z + 1) k
  end.

(** [a - b]. *)
Definition sub (a b : number) : number :=
  match a, b with
  | NaN, _ | _, NaN => NaN
  | Inf s, Inf t => if Bool.eqb s t then NaN else Inf s
  | Inf s, Fin _ => Inf s
  | Fin _, Inf t => Inf (negb t)
  | Fin x, Fin y => of_Z (x - y)
  end.

(** [a === b] on numbers. *)
Definition strict_eq (a b : number) : bool :=
  match a, b with
  | Fin x, Fin y => x =? y
  | Inf s, Inf t => Bool.eqb s t
  | _, _ => false
  end.

(** [a < b]. *)
Definition lt (a b : number) : bool :=
  match a, b with
  | NaN, _ | _, NaN => false
  | Inf s, Inf t => s && negb t
  | Inf s, Fin _ => s
  | Fin _, Inf t => negb t
  | Fin x, Fin y => x <? y
  end.

(** [Number.isNaN]. *)
Definition isNaN (a : number) : bool :=
  match a with NaN => true | _ => false end.

Definition is_finite (a : number) : bool :=
  match a with Fin _ => true | _ => false end.

Definition zero : number := Fin 0.

(** The sign of a comparator result, as [Array.prototype.sort] and
    [< 0] read it; [None] for NaN, which is none of the three. *)
Definition sign (a : number) : option comparison :=
  match a with
  | NaN => None
  | Inf true => Some Lt
  | Inf false => Some Gt
  | Fin z => Some (z ?= 0)
  end.

End Num.

Export Num.

(** ** Strings *)

Definition is_digit (c : ascii) : bool :=
  let n := nat_of_ascii c in (48 <=? n)%nat && (n <=? 57)%nat.

Fixpoint all_digits (s : string) : bool :=
  match s with
  | EmptyString => true
  | String c s' => is_digit c && all_digits s'
  end.

(** A digit group as [\d+] captures it: one digit or more. *)
Definition digit_group (s : string) : Prop :=
  s <> "" /\ all_digits s = true.

Definition digit_value (c : ascii) : Z := Z.of_nat (nat_of_ascii c) - 48.

(** The integer a digit string denotes in radix 10, most significant
    digit first. *)
Fixpoint decimal_value_from (acc : Z) (s : string) : Z :=
  match s with
  | EmptyString => acc
  | String c s' => decimal_value_from (10 * acc + digit_value c) s'
  end.

Definition decimal_value (s : string) : Z := decimal_value_from 0 s.

(** [StrWhiteSpaceChar], in the 8-bit range. *)
Definition is_white_space (c : ascii) : bool :=
  let n := nat_of_ascii c in
  ((9 <=? n)%nat && (n <=? 13)%nat) || (n =? 32)%nat || (n =? 160)%nat.

Fixpoint skip_white_space (s : string) : string :=
  match s with
  | String c s' => if is_white_space c then skip_white_space s' else s
  | EmptyString => s
  end.

(** The longest prefix of decimal digits. *)
Fixpoint digit_prefix (s : string) : string :=
  match s with
  | String c s' => if is_digit c then String c (digit_prefix s') else ""
  | EmptyString => ""
  end.

(** [parseInt(s, 10)]: leading white space is skipped, one sign is read,
    the longest digit prefix is the number; no digit gives NaN.  (Past
    the 20th significant digit ECMAScript lets an implementation read the
    digits as zeros; the exact value is taken here, and the inputs used
    below to refute a claim do not depend on the difference.) *)
Definition parseInt (s : string) : number :=
  let t := skip_white_space s in
  let '(neg, u) :=
    match t with
    | String "-" u => (true, u)
    | String "+" u => (false, u)
    | _ => (false, t)
    end in
  let z := digit_prefix u in
  match z with
  | EmptyString => NaN
  | _ => of_Z (if neg then - decimal_value z else decimal_value z)
  end.

(** ** Regular expressions, as far as [version.ts] uses them *)

Module RegExp.

Inductive node : Type :=
| Bol                      (* ^ *)
| Eol                      (* $ *)
| Lit (c : ascii)          (* a literal character *)
| CapDigits.               (* (\d+), a capturing group *)

(** [\d+] followed by the rest of the pattern [k]: greedy, it first
    tries to take one more digit and falls back on [k]. *)
Fixpoint greedy_digits (k : nat -> string -> list string -> option (list string))
         (caps : list string) (acc : string) (pos : nat) (s : string)
         {struct s} : option (list string) :=
  match s with
  | String c s' =>
      if is_digit c then
        match greedy_digits k caps (acc +:+ String c "") (S pos) s' with
        | Some r => Some r
        | None => k (S pos) s' (caps ++ [acc +:+ String c ""])%list
        end
      else None
  | EmptyString => None
  end.

(** Backtracking match of a node sequence at position [pos], with the
    captures collected so far. *)
Fixpoint match_nodes (p : list node) (pos : nat) (s : string)
         (caps : list string) {struct p} : option (list string) :=
  match p with
  | [] => Some caps
  | Bol :: p' => if (pos =? 0)%nat then match_nodes p' pos s caps else None
  | Eol :: p' =>
      match s with
      | EmptyString => match_nodes p' pos s caps
      | String _ _ => None
      end
  | Lit c :: p' =>
      match s with
      | String c' s' =>
          if Ascii.eqb c c' then match_nodes p' (S pos) s' caps else None
      | EmptyString => None
      end
  | CapDigits :: p' => greedy_digits (match_nodes p') caps "" pos s
  end.

(** [re.exec(s)] without the [g] flag: the first start position, from
    the left, at which the pattern matches; the result is the capture
    array without its element 0. *)
Fixpoint exec_from (p : list node) (pos : nat) (s : string)
  : option (list string) :=
  match match_nodes p pos s [] with
  | Some caps => Some caps
  | None =>
      match s with
      | String _ s' => exec_from p (S pos) s'
      | EmptyString => None
      end
  end.

Definition exec (p : list node) (s : string) : option (list string) :=
  exec_from p 0 s.

End RegExp.

Import RegExp.

(** ** version.ts *)

Record Version : Type := mkVersion {
  version : string;
  run : number;
  attempt : number
}.

(** A value of type [unknown]. *)
#[local] Set Warnings "-register-all".
Inductive value : Type :=
| VUndefined
| VNull
| VBoolean (b : bool)
| VNumber (n : number)
| VString (s : string)
| VObject (fields : list (string * value))
| VArray (items : list value).

(** [/^run-(\d+)-(\d+)$/] *)
Definition version_pattern : list node :=
  [Bol; Lit "r"; Lit "u"; Lit "n"; Lit "-"; CapDigits; Lit "-"; CapDigits; Eol].

(** [m[i]] for [i >= 1], converted to a string as [parseInt] does with
    its argument: an absent group reads as [undefined]. *)
Definition group (m : list string) (i : nat) : string :=
  match m !! (i - 1)%nat with
  | Some g => g
  | None => "undefined"
  end.

Definition extractVersion (s : value) : option Version :=
  match s with
  | VString str =>
      match exec version_pattern str with
      | Some m =>
          let runNum := parseInt (group m 1) in
          let attempt := parseInt (group m 2) in
          if negb (isNaN runNum) && negb (isNaN attempt)
          then Some {| version := str; run := runNum; attempt := attempt |}
          else None
      | None => None
      end
  | _ => None
  end.

Definition compareVersions (a b : Version) : number :=
  let d := sub (run a) (run b) in
  if strict_eq d zero then sub (attempt a) (attempt b) else d.

(** *** Notions the statements about [version.ts] use *)

(** A string that fully matches [run-<digits>-<digits>]. *)
Definition matches_run_pattern (str : string) : Prop :=
  exists d1 d2 : string,
    digit_group d1 /\ digit_group d2 /\ str = "run-" +:+ d1 +:+ "-" +:+ d2.

Definition finite_version (v : Version) : Prop :=
  is_finite (run v) = true /\ is_finite (attempt v) = true.

(** The integer an integral double holds. *)
Definition ordinal (n : number) : Z :=
  match n with Fin z => z | _ => 0 end.

(** The order of the data model: [run] first, [attempt] to break ties. *)
Definition lex_compare (a b : Version) : comparison :=
  match ordinal (run a) ?= ordinal (run b) with
  | Eq => ordinal (attempt a) ?= ordinal (attempt b)
  | c => c
  end.

Definition digit_char (z : Z) : ascii := ascii_of_nat (Z.to_nat (48 + z)).

Fixpoint decimal_digits (fuel : nat) (z : Z) (acc : string) : string :=
  match fuel with
  | O => acc
  | S f =>
      let acc' := String (digit_char (z mod 10)) acc in
      if z <? 10 then acc' else decimal_digits f (z / 10) acc'
  end.

(** The decimal representation of a non-negative integer. *)
Definition decimal_repr (z : Z) : string :=
  decimal_digits (S (Z.to_nat (Z.log2 z))) z "".

(** [String(n)] for the integral values below 10^21, where JavaScript
    prints every digit. *)
Definition number_to_string (n : number) : string :=
  match n with
  | NaN => "NaN"
  | Inf false => "Infinity"
  | Inf true => "-Infinity"
  | Fin z => if z <? 0 then "-" +:+ decimal_repr (- z) else decimal_repr z
  end.

(** The canonical textual form [run-<run>-<attempt>] of the data model. *)
Definition canonical_identifier (v : Version) : string :=
  "run-" +:+ number_to_string (run v) +:+ "-" +:+ number_to_string (attempt v).

(** No superfluous leading zero: ["0"] itself, or a first digit other
    than [0]. *)
Definition no_leading_zero (d : string) : bool :=
  match d with
  | String "0" (String _ _) => false
  | _ => true
  end.

Fixpoint zeros (n : nat) : string :=
  match n with
  | O => ""
  | S k => String "0" (zeros k)
  end.

(** A well-formed identifier whose run has 310 digits: 10^309. *)
Definition huge_identifier : string := "run-1" +:+ zeros 309 +:+ "-1".

Definition leading_nonzero (d : string) : bool :=
  match d with
  | String c _ => negb (Ascii.eqb c "0")
  | EmptyString => false
  end.

Definition sample_run_122_1 : Version := mkVersion "run-122-1" (Fin 122) (Fin 1).
Definition sample_run_123_1 : Version := mkVersion "run-123-1" (Fin 123) (Fin 1).
Definition sample_run_123_2 : Version := mkVersion "run-123-2" (Fin 123) (Fin 2).

(** ** parallel.ts

    [parallelGenerator] is an async generator: its body runs in atomic
    stretches between two [await]s, and the operations it has started
    settle in between, in an order the code does not control.  It is
    modelled as a machine whose steps are
    - [Continue]: one iteration of the synchronous priming loop;
    - [Settle i]: the operation held in slot [i] settles;
    - [Resume i]: an awaited [Promise.race] fulfils with the promise in
      slot [i], and the body runs on to the next [await].
    A [yield] is taken to be consumed at once, as [prefixTaggedAsOld]
    does.  [max] is a number: [inputParallel] passes an integer from 1 on
    or +Infinity.  The array [tasks] is taken to have room for what is
    pushed, and the counter [i] to be exact, as it is below 2^53.
    A run of the machine follows a schedule, a list of choices among the
    events that can happen; the statements hold for every schedule. *)

Inductive IteratorResult (A : Type) : Type :=
| IDone
| IValue (a : A).
Arguments IDone {A}.
Arguments IValue {A} a.

Section Scheduler.

(** [W] is the world the operations act on; [Op] is an operation as the
    source makes it, the call of an async function; [P] is the pending
    promise the call returns; [T] is what the promise fulfils with, [E]
    what it rejects with; [Src] is the state of the source generator. *)
Variables W Op P T E Src : Type.

(** The call of an operation: it runs at once, inside [source.next()], up
    to its first [await], acts on the world and returns the pending
    promise. *)
Variable start : Op -> W -> P * W.

(** What a pending operation does when it is resumed, and what it settles
    with. *)
Variable settle : P -> W -> (E + T) * W.

(** The body of the source generator up to its next [yield], which makes
    the operation [o], or [None] when it returns. *)
Variable pull : Src -> option (Op * Src).

(** [source.next()] on the generator object; [None] is a generator that
    has returned, and stays so.  The operation the generator yields has
    been called. *)
Definition source_next (g : option Src) (w : W) : option (Op * P) * option Src * W :=
  match g with
  | None => (None, None, w)
  | Some s =>
      match pull s with
      | None => (None, None, w)
      | Some (o, s') => let '(p, w') := start o w in (Some (o, p), Some s', w')
      end
  end.

(** The promise [wrap(i, task)] returns.
    - [Resolved i r]: [resolve([i, r])] has been called.
    - [Waiting i o p]: [task.value], the promise [p] of the operation
      [o], is pending and the [then] callback is registered.
    - [Forsaken i o e]: [o] rejected with [e]; the callback given to
      [then] handles fulfilment only, so [resolve] is never called and the
      promise stays pending for ever.
    A value is kept with the operation that produced it. *)
Inductive wrapped : Type :=
| Resolved (i : nat) (r : IteratorResult (Op * T))
| Waiting (i : nat) (o : Op) (p : P)
| Forsaken (i : nat) (o : Op) (e : E).

Definition wrap (i : nat) (task : option (Op * P)) : wrapped :=
  match task with
  | None => Resolved i IDone
  | Some (o, p) => Waiting i o p
  end.

(** An element of [tasks], later [tasksAndNull]. *)
Inductive slot : Type :=
| Null                   (* null *)
| Hole                   (* never written: reads undefined *)
| Task (p : wrapped).

(** [a[i] = x]: past the end the array grows and the gap is left unset. *)
Definition array_set (a : list slot) (i : nat) (x : slot) : list slot :=
  if (i <? length a)%nat then <[i := x]> a
  else a ++ replicate (i - length a) Hole ++ [x].

Inductive phase : Type :=
| Priming (i : nat)      (* in the for loop, before iteration i *)
| Racing                 (* at the await of the first loop *)
| Draining               (* at the await of the second loop *)
| Returned               (* the generator has returned *)
| Threw (message : string).

Record sched : Type := mkSched {
  sphase : phase;
  tasks : list slot;
  source : option Src;
  yielded : list (Op * T);   (* the output sequence, oldest first *)
  started : nat;             (* operations pulled from the source *)
  finished : nat;            (* operations that have settled *)
  settled : list (Op * (E + T));
                             (* what each settled with, oldest first *)
  world : W
}.

(** The values the consumer has received. *)
Definition outputs (st : sched) : list T := map snd (yielded st).

(** [tasksAndNull.filter((v) => v !== null)] is not empty. *)
Definition some_not_null (a : list slot) : bool :=
  existsb (fun s => match s with Null => false | _ => true end) a.

Definition parallelGenerator (max : number) (src : Src) (w : W) : sched :=
  {| sphase := if lt max (Fin 1) then Threw "max must be at least 1" else Priming 0;
     tasks := []; source := Some src; yielded := [];
     started := 0; finished := 0; settled := []; world := w |}.

(** One iteration of [for (let i = 0; i < max; i++) tasks.push(wrap(i,
    source.next()))], or the exit of the loop. *)
Definition prime (max : number) (i : nat) (st : sched) : sched :=
  if lt (Fin (Z.of_nat i)) max then
    let '(task, g, w) := source_next (source st) (world st) in
    {| sphase := Priming (S i);
       tasks := tasks st ++ [Task (wrap i task)];
       source := g; yielded := yielded st;
       started := started st + (match task with Some _ => 1 | None => 0 end);
       finished := finished st; settled := settled st; world := w |}
  else
    {| sphase := Racing; tasks := tasks st; source := source st;
       yielded := yielded st; started := started st;
       finished := finished st; settled := settled st; world := world st |}.

(** The body of the first loop, after the race gave [[i, v]]. *)
Definition race_won (i : nat) (v : IteratorResult (Op * T)) (st : sched) : sched :=
  match v with
  | IDone =>
      let tasksAndNull := array_set (tasks st) i Null in
      {| sphase := if some_not_null tasksAndNull then Draining else Returned;
         tasks := tasksAndNull; source := source st; yielded := yielded st;
         started := started st; finished := finished st; settled := settled st;
         world := world st |}
  | IValue x =>
      let '(task, g, w) := source_next (source st) (world st) in
      {| sphase := Racing;
         tasks := array_set (tasks st) i (Task (wrap i task));
         source := g; yielded := yielded st ++ [x];
         started := started st + (match task with Some _ => 1 | None => 0 end);
         finished := finished st; settled := settled st; world := w |}
  end.

(** The body of the second loop, after the race gave [[i, v]]. *)
Definition drain_won (i : nat) (v : IteratorResult (Op * T)) (st : sched) : sched :=
  let tasksAndNull := array_set (tasks st) i Null in
  {| sphase := if some_not_null tasksAndNull then Draining else Returned;
     tasks := tasksAndNull; source := source st;
     yielded := match v with IDone => yielded st | IValue x => yielded st ++ [x] end;
     started := started st; finished := finished st; settled := settled st;
     world := world st |}.

(** Destructuring [undefined], which a race over an unset element gives,
    is a TypeError. *)
Definition race_undefined (st : sched) : sched :=
  {| sphase := Threw "undefined is not iterable"; tasks := tasks st;
     source := source st; yielded := yielded st; started := started st;
     finished := finished st; settled := settled st; world := world st |}.

(** The operation in slot [j] settles: on fulfilment the callback calls
    [resolve]; on rejection nothing does. *)
Definition settle_slot (j i : nat) (o : Op) (p : P) (st : sched) : sched :=
  let '(r, w) := settle p (world st) in
  {| sphase := sphase st;
     tasks := <[j := Task (match r with
                           | inr v => Resolved i (IValue (o, v))
                           | inl e => Forsaken i o e
                           end)]> (tasks st);
     source := source st; yielded := yielded st; started := started st;
     finished := S (finished st); settled := settled st ++ [(o, r)]; world := w |}.

Inductive event : Type :=
| Continue
| Settle (j : nat)
| Resume (j : nat).

Definition slot_events (j : nat) (s : slot) : list event :=
  match s with
  | Null => []
  | Hole => [Resume j]
  | Task (Resolved _ _) => [Resume j]
  | Task (Waiting _ _ _) => [Settle j]
  | Task (Forsaken _ _ _) => []
  end.

(** What can happen next.  Any promise of the raced list that is
    fulfilled may be the one the race reports. *)
Definition enabled (st : sched) : list event :=
  match sphase st with
  | Priming _ => [Continue]
  | Racing | Draining => concat (imap slot_events (tasks st))
  | Returned | Threw _ => []
  end.

Definition step (max : number) (ev : event) (st : sched) : sched :=
  match ev, sphase st with
  | Continue, Priming i => prime max i st
  | Settle j, (Racing | Draining) =>
      match tasks st !! j with
      | Some (Task (Waiting i o p)) => settle_slot j i o p st
      | _ => st
      end
  | Resume j, Racing =>
      match tasks st !! j with
      | Some (Task (Resolved i v)) => race_won i v st
      | Some Hole => race_undefined st
      | _ => st
      end
  | Resume j, Draining =>
      match tasks st !! j with
      | Some (Task (Resolved i v)) => drain_won i v st
      | Some Hole => race_undefined st
      | _ => st
      end
  | _, _ => st
  end.

(** The [c]-th of the enabled events, counting round. *)
Definition pick (c : nat) (evs : list event) : option event :=
  evs !! (c mod length evs)%nat.

(** The machine run under a schedule: one choice per step, until the
    schedule ends or nothing can happen. *)
Fixpoint run_schedule (max : number) (choices : list nat) (st : sched) : sched :=
  match choices with
  | [] => st
  | c :: cs =>
      match pick c (enabled st) with
      | Some ev => run_schedule max cs (step max ev st)
      | None => st
      end
  end.

(** Operations pulled and not yet settled. *)
Definition in_flight (st : sched) : Z :=
  Z.of_nat (started st) - Z.of_nat (finished st).

(** The operations the source will still give, in order. *)
Fixpoint source_yields (s : Src) (ops : list Op) : Prop :=
  match ops with
  | [] => pull s = None
  | o :: ops' => exists s', pull s = Some (o, s') /\ source_yields s' ops'
  end.

(** An operation that fulfils, whenever it is called and whatever has
    happened when it is resumed. *)
Definition fulfils (o : Op) : Prop :=
  forall w1 w2, exists v w', settle (fst (start o w1)) w2 = (inr v, w').

(** *** What the statements about the machine use *)

Definition slot_index (s : slot) : option nat :=
  match s with
  | Task (Resolved i _) | Task (Waiting i _ _) | Task (Forsaken i _ _) => Some i
  | Null | Hole => None
  end.

(** Every promise sits in the slot whose number it reports, and no
    element is unset. *)
Definition well_indexed (a : list slot) : Prop :=
  forall j s, a !! j = Some s -> s <> Hole /\ (s = Null \/ slot_index s = Some j).

Definition waiting (s : slot) : nat :=
  match s with Task (Waiting _ _ _) => 1 | _ => 0 end.

(** The operations held in the table whose value has not been yielded. *)
Definition slot_ops (s : slot) : list Op :=
  match s with
  | Task (Waiting _ o _) | Task (Forsaken _ o _) => [o]
  | Task (Resolved _ (IValue (o, _))) => [o]
  | _ => []
  end.

Definition table_ops (a : list slot) : list Op := concat (map slot_ops a).

(** How many steps a slot can still cause. *)
Definition slot_weight (s : slot) : nat :=
  match s with
  | Task (Waiting _ _ _) => 3
  | Task (Resolved _ (IValue _)) => 2
  | Task (Resolved _ IDone) => 1
  | _ => 0
  end.

Definition phase_weight (max : Z) (p : phase) : nat :=
  match p with
  | Priming i => 2 * (Z.to_nat max - i) + 1
  | _ => 0
  end.

(** A bound on the steps left, given the operations [rest] the source
    still holds. *)
Definition steps_left (max : Z) (st : sched) (rest : list Op) : nat :=
  phase_weight max (sphase st) + 2 * length rest
  + sum_list_with slot_weight (tasks st).

Definition is_null (s : slot) : bool :=
  match s with Null => true | _ => false end.

Definition is_forsaken (s : slot) : bool :=
  match s with Task (Forsaken _ _ _) => true | _ => false end.

Definition is_done (s : slot) : bool :=
  match s with Task (Resolved _ IDone) => true | _ => false end.

(** The slot accounting: it holds whatever the operations do. *)
Record slots_ok (max : Z) (st : sched) : Prop := {
  ok_indexed : well_indexed (tasks st);
  ok_count : started st = (finished st + sum_list_with waiting (tasks st))%nat;
  ok_length : Z.of_nat (length (tasks st)) <= max;
  ok_priming : forall i, sphase st = Priming i -> length (tasks st) = i
}.

(** *** What a run does to the world

    The runs of operations that a scheduler with [max] slots can cause
    from the world [w0]: the operations [pulled] are called one by one, in
    the order given, while fewer than [max] are in flight; an operation in
    flight settles at any moment.  [flight] holds the operations in
    flight with their promises and [log] what has settled, oldest
    first. *)
Inductive interleaving (max : Z) (w0 : W)
  : list Op -> list (Op * P) -> list (Op * (E + T)) -> W -> Prop :=
| il_nothing : interleaving max w0 [] [] [] w0
| il_start (pulled : list Op) (flight : list (Op * P)) (log : list (Op * (E + T)))
           (w : W) (o : Op) :
    interleaving max w0 pulled flight log w ->
    Z.of_nat (length flight) < max ->
    interleaving max w0 (pulled ++ [o]) (flight ++ [(o, fst (start o w))]) log
                 (snd (start o w))
| il_settle (pulled : list Op) (before after : list (Op * P))
            (log : list (Op * (E + T))) (w : W) (o : Op) (p : P) :
    interleaving max w0 pulled (before ++ (o, p) :: after) log w ->
    interleaving max w0 pulled (before ++ after) (log ++ [(o, fst (settle p w))])
                 (snd (settle p w)).

(** An operation called and run to its end with nothing in between. *)
Definition run_op (o : Op) (w : W) : (E + T) * W :=
  let '(p, w') := start o w in settle p w'.

(** The operations [ops] run one after the other from the world [w]: each
    with what it rejected or fulfilled with, and the world at the end. *)
Fixpoint run_all (w : W) (ops : list Op) : list (Op * (E + T)) * W :=
  match ops with
  | [] => ([], w)
  | o :: ops' =>
      let '(r, w') := run_op o w in
      let '(rs, w'') := run_all w' ops' in
      ((o, r) :: rs, w'')
  end.

(** A yielded value as the outcome of its operation. *)
Definition fulfilled (x : Op * T) : Op * (E + T) := (fst x, inr (snd x)).

(** The outcome a slot holds: of an operation that has settled and whose
    value, if any, has not been yielded. *)
Definition slot_outcome (s : slot) : list (Op * (E + T)) :=
  match s with
  | Task (Resolved _ (IValue (o, v))) => [(o, inr v)]
  | Task (Forsaken _ o e) => [(o, inl e)]
  | _ => []
  end.

(** The operation a slot holds that has not settled. *)
Definition slot_pending (s : slot) : list (Op * P) :=
  match s with
  | Task (Waiting _ o p) => [(o, p)]
  | _ => []
  end.

Definition table_outcomes (a : list slot) : list (Op * (E + T)) :=
  concat (map slot_outcome a).

Definition table_pending (a : list slot) : list (Op * P) :=
  concat (map slot_pending a).

(** The world of [st] comes from an interleaving that has called the
    operations pulled so far, all of [ops] but [rest], has those of the
    waiting slots in flight and has settled the others as the log says. *)
Definition traced (w0 : W) (max : Z) (ops : list Op) (st : sched) (rest : list Op)
  : Prop :=
  exists (pulled : list Op) (flight : list (Op * P)),
    pulled ++ rest = ops /\ started st = length pulled /\
    flight ≡ₚ table_pending (tasks st) /\
    interleaving max w0 pulled flight (settled st) (world st).

(** The state of a run from the world [w0] over a source that gave [ops]:
    [rest] is what the source still holds.  It holds whatever the
    operations do. *)
Record run_inv (w0 : W) (max : Z) (ops : list Op) (st : sched) (rest : list Op)
  : Prop := {
  ri_indexed : well_indexed (tasks st);
  ri_source : match source st with
              | Some s => source_yields s rest
              | None => rest = []
              end;
  ri_trace : traced w0 max ops st rest;
  ri_outcomes : settled st ≡ₚ map fulfilled (yielded st) ++ table_outcomes (tasks st);
  ri_finished : finished st = length (settled st);
  ri_done : existsb is_done (tasks st) = true -> source st = None;
  ri_phase : match sphase st with
             | Priming i =>
                 length (tasks st) = i /\ Z.of_nat i <= max /\
                 existsb is_null (tasks st) = false
             | Racing =>
                 Z.of_nat (length (tasks st)) = max /\
                 existsb is_null (tasks st) = false
             | Draining => source st = None /\ some_not_null (tasks st) = true
             | Returned => source st = None /\ some_not_null (tasks st) = false
             | Threw _ => False
             end
}.

(** The source holds operations of [ops], those that wait are calls of
    operations of [ops], and the world satisfies [Q]. *)
Definition keeps (ops : list Op) (Q : W -> Prop) (st : sched) : Prop :=
  (exists rest, rest `suffix_of` ops /\
                match source st with
                | Some s => source_yields s rest
                | None => True
                end) /\
  (forall j i o p, tasks st !! j = Some (Task (Waiting i o p)) ->
                   o ∈ ops /\ exists w1, p = fst (start o w1)) /\
  Q (world st).

(** With one slot the operations settle in the order of the source, and
    the values are yielded in that order. *)
Definition in_source_order (st : sched) : Prop :=
  (length (tasks st) <= 1)%nat /\
  settled st = map fulfilled (yielded st) ++ table_outcomes (tasks st).

End Scheduler.

Arguments Resolved {Op P T E} i r.
Arguments Waiting {Op P T E} i o p.
Arguments Forsaken {Op P T E} i o e.
Arguments Null {Op P T E}.
Arguments Hole {Op P T E}.
Arguments Task {Op P T E} p.
Arguments mkSched {W Op P T E Src}.
Arguments sphase {W Op P T E Src} s.
Arguments tasks {W Op P T E Src} s.
Arguments source {W Op P T E Src} s.
Arguments yielded {W Op P T E Src} s.
Arguments started {W Op P T E Src} s.
Arguments finished {W Op P T E Src} s.
Arguments settled {W Op P T E Src} s.
Arguments world {W Op P T E Src} s.
Arguments outputs {W Op P T E Src} st.
Arguments in_flight {W Op P T E Src} st.
Arguments enabled {W Op P T E Src} st.
Arguments parallelGenerator {W Op P T E Src} max src w.
Arguments step {W Op P T E Src} start settle pull max ev st.
Arguments run_schedule {W Op P T E Src} start settle pull max choices st.
Arguments source_yields {Op Src} pull s ops.
Arguments fulfils {W Op P T E} start settle o.
Arguments slot_events {Op P T E} j s.
Arguments prime {W Op P T E Src} start pull max i st.
Arguments race_won {W Op P T E Src} start pull i v st.
Arguments drain_won {W Op P T E Src} i v st.
Arguments race_undefined {W Op P T E Src} st.
Arguments settle_slot {W Op P T E Src} settle j i o p st.
Arguments slot_index {Op P T E} s.
Arguments well_indexed {Op P T E} a.
Arguments waiting {Op P T E} s.
Arguments slot_ops {Op P T E} s.
Arguments table_ops {Op P T E} a.
Arguments slot_weight {Op P T E} s.
Arguments steps_left {W Op P T E Src} max st rest.
Arguments is_null {Op P T E} s.
Arguments is_forsaken {Op P T E} s.
Arguments is_done {Op P T E} s.
Arguments some_not_null {Op P T E} a.
Arguments array_set {Op P T E} a i x.
Arguments wrap {Op P T E} i task.
Arguments source_next {W Op P Src} start pull g w.
Arguments slots_ok {W Op P T E Src} max st.
Arguments interleaving {W Op P T E} start settle max w0 _ _ _ _.
Arguments il_nothing {W Op P T E} start settle max w0.
Arguments il_start {W Op P T E} start settle max w0 pulled flight log w o _ _.
Arguments il_settle {W Op P T E} start settle max w0 pulled before after log w o p _.
Arguments run_op {W Op P T E} start settle o w.
Arguments run_all {W Op P T E} start settle w ops.
Arguments fulfilled {Op T E} x.
Arguments slot_outcome {Op P T E} s.
Arguments slot_pending {Op P T E} s.
Arguments table_outcomes {Op P T E} a.
Arguments table_pending {Op P T E} a.
Arguments traced {W Op P T E Src} start settle w0 max ops st rest.
Arguments run_inv {W Op P T E Src} start settle pull w0 max ops st rest.
Arguments in_source_order {W Op P T E Src} st.
Arguments keeps {W Op P T E Src} start pull ops Q st.

(** *** A source that is a list of operations with their outcomes *)

Definition list_pull {A : Type} (l : list A) : option (A * list A) :=
  match l with
  | [] => None
  | x :: l' => Some (x, l')
  end.

(** An operation that is nothing but its outcome, [Promise.resolve(v)] or
    [Promise.reject(e)], in a world without state: its call does nothing,
    and it settles with that outcome. *)
Definition start_outcome {T E : Type} (o : E + T) (w : unit) : (E + T) * unit := (o, w).

Definition settle_outcome {T E : Type} (o : E + T) (w : unit) : (E + T) * unit := (o, w).

(** An operation that leaves a trace in the world when it is called and
    when it ends, and fulfils with its number. *)
Inductive trace_entry : Type :=
| Called (n : Z)
| Ended (n : Z).

Definition start_logged (n : Z) (w : list trace_entry) : Z * list trace_entry :=
  (n, w ++ [Called n]).

Definition settle_logged (n : Z) (w : list trace_entry) : (string + Z) * list trace_entry :=
  (inr n, w ++ [Ended n]).

(** A source of two operations: the first rejects, the second fulfils. *)
Definition reject_then_fulfil : list (string + Z) := [inl "boom"; inr 7].

(** Ten operations that fulfil with 1 to 10, and two that fulfil. *)
Definition ten_fulfil : list (string + Z) :=
  map inr [1; 2; 3; 4; 5; 6; 7; 8; 9; 10].

Definition two_fulfil : list (string + Z) := [inr 1; inr 2].

(** Where [parallelGenerator(1, ...)] over [reject_then_fulfil] ends up:
    at the first [await], with the one slot forsaken. *)
Definition stuck_after_rejection
  : sched unit (string + Z) (string + Z) Z string (list (string + Z)) :=
  {| sphase := Racing;
     tasks := [Task (Forsaken 0 (inl "boom") "boom")];
     source := Some [inr 7];
     yielded := [];
     started := 1; finished := 1; settled := [(inl "boom", inl "boom")];
     world := tt |}.

(** ** main.ts *)

(** *** The shapes of [@aws-sdk/client-s3] the program touches *)

Record Error : Type := mkError { error_name : string; error_message : string }.

Record HeadObjectInput : Type := mkHeadObjectInput {
  head_Bucket : string;
  head_Key : string
}.

Record HeadObjectOutput : Type := mkHeadObjectOutput {
  ContentType : option string;
  CacheControl : option string;
  Metadata : option (gmap string string)
}.

Record CopyObjectInput : Type := mkCopyObjectInput {
  copy_Bucket : string;
  copy_Key : string;
  CopySource : string;
  copy_ContentType : option string;
  copy_CacheControl : option string;
  MetadataDirective : option string;
  copy_Metadata : option (gmap string string);
  TaggingDirective : option string;
  Tagging : option string
}.

Record GetObjectTaggingInput : Type := mkGetObjectTaggingInput {
  tagging_Bucket : string;
  tagging_Key : string
}.

Record Tag : Type := mkTag {
  tag_Key : option string;
  tag_Value : option string
}.

Record GetObjectTaggingOutput : Type := mkGetObjectTaggingOutput {
  TagSet : option (list Tag)
}.

Record ListObjectsInput : Type := mkListObjectsInput {
  list_Bucket : string;
  list_Prefix : option string;
  Delimiter : option string;
  Marker : option string;
  MaxKeys : option nat
}.

Record S3Object : Type := mkS3Object { Key : option string }.

Record CommonPrefix : Type := mkCommonPrefix { Prefix : option string }.

Record ListObjectsOutput : Type := mkListObjectsOutput {
  Contents : option (list S3Object);
  CommonPrefixes : option (list CommonPrefix);
  IsTruncated : option bool;
  NextMarker : option string
}.

Inductive command : Type :=
| HeadObjectCommand (i : HeadObjectInput)
| CopyObjectCommand (i : CopyObjectInput)
| GetObjectTaggingCommand (i : GetObjectTaggingInput)
| ListObjectsCommand (i : ListObjectsInput).

(** What the program runs against: whatever answers the four commands,
    and the clock [new Date()] reads.  A request either fails with an
    error or gives its output, and may change the remote state. *)
Class Remote (R : Type) : Type := {
  head_object : HeadObjectInput -> R -> (Error + HeadObjectOutput) * R;
  copy_object : CopyObjectInput -> R -> (Error + unit) * R;
  get_object_tagging :
    GetObjectTaggingInput -> R -> (Error + GetObjectTaggingOutput) * R;
  list_objects : ListObjectsInput -> R -> (Error + ListObjectsOutput) * R;
  to_iso_string_now : R -> string
}.

(** *** JavaScript strings, continued *)

Definition hex_digit (n : nat) : ascii :=
  if (n <? 10)%nat then ascii_of_nat (48 + n) else ascii_of_nat (55 + n).

(** [%XX] for one byte. *)
Definition percent_byte (n : nat) (rest : string) : string :=
  String "%" (String (hex_digit (n / 16)) (String (hex_digit (n mod 16)) rest)).

(** The characters [encodeURIComponent] leaves alone: letters, digits and
    [- _ . ! ~ * ' ( )]. *)
Definition uri_unreserved (c : ascii) : bool :=
  let n := nat_of_ascii c in
  ((65 <=? n) && (n <=? 90) || (97 <=? n) && (n <=? 122) || (48 <=? n) && (n <=? 57)
   || (n =? 45) || (n =? 95) || (n =? 46) || (n =? 33) || (n =? 126)
   || (n =? 42) || (n =? 39) || (n =? 40) || (n =? 41))%nat.

(** One code unit as [encodeURIComponent] writes it, in front of [rest]:
    a code unit that is not left alone becomes the percent-escaped bytes
    of its UTF-8 encoding, one byte below U+0080 and two from there to
    U+00FF. *)
Definition encode_unit (c : ascii) (rest : string) : string :=
  let n := nat_of_ascii c in
  if uri_unreserved c then String c rest
  else if (n <? 128)%nat then percent_byte n rest
  else percent_byte (192 + n / 64) (percent_byte (128 + n mod 64) rest).

Fixpoint encodeURIComponent (s : string) : string :=
  match s with
  | EmptyString => ""
  | String c s' => encode_unit c (encodeURIComponent s')
  end.

(** [s.split(sep)] for a separator of one character. *)
Fixpoint split_on (sep : ascii) (s : string) : list string :=
  match s with
  | EmptyString => [""]
  | String c s' =>
      if Ascii.eqb c sep then "" :: split_on sep s'
      else
        match split_on sep s' with
        | part :: parts => String c part :: parts
        | [] => [String c ""]
        end
  end.

(** [parts.join(sep)]. *)
Fixpoint join_with (sep : string) (parts : list string) : string :=
  match parts with
  | [] => ""
  | [part] => part
  | part :: parts' => part +:+ sep +:+ join_with sep parts'
  end.

(** [s.slice(start, -1)]: from [start] to the last code unit, excluded. *)
Definition slice_to_last (start : nat) (s : string) : string :=
  substring start (String.length s - 1 - start) s.

(** [a ?? b]. *)
Definition nullish {A : Type} (a : option A) (b : A) : A :=
  match a with Some x => x | None => b end.

(** *** Async functions of the program

    An async function is a function of the state of the session to an
    outcome and a new state.  The session is the remote side, the commands
    sent so far and the lines written with [core.info].  A command takes
    effect on the remote side when [client.send] is called; its answer is
    handed over when the promise is awaited. *)

Record session (R : Type) : Type := mkSession {
  remote : R;
  sent : list command;
  info_log : list string
}.
Arguments mkSession {R}.
Arguments remote {R} s.
Arguments sent {R} s.
Arguments info_log {R} s.

Inductive result (A : Type) : Type :=
| Ok (a : A)
| Throws (e : Error)
| Hangs                       (* an await that is never resumed *)
| OutOfFuel.                  (* a bound of the model was reached *)
Arguments Ok {A} a.
Arguments Throws {A} e.
Arguments Hangs {A}.
Arguments OutOfFuel {A}.

Definition M (R A : Type) : Type := session R -> result A * session R.

Definition ret {R A : Type} (a : A) : M R A := fun w => (Ok a, w).

Definition throw {R A : Type} (e : Error) : M R A := fun w => (Throws e, w).

Definition bind {R A B : Type} (m : M R A) (k : A -> M R B) : M R B :=
  fun w =>
    match m w with
    | (Ok a, w') => k a w'
    | (Throws e, w') => (Throws e, w')
    | (Hangs, w') => (Hangs, w')
    | (OutOfFuel, w') => (OutOfFuel, w')
    end.

Notation "x <- m ;; k" := (bind m (fun x => k))
  (at level 20, m at level 99, k at level 200, only parsing).
Notation "m ;; k" := (bind m (fun _ => k))
  (at level 100, k at level 200, only parsing).

(** [core.info(line)]. *)
Definition info {R : Type} (line : string) : M R unit :=
  fun w => (Ok tt, {| remote := remote w; sent := sent w;
                      info_log := info_log w ++ [line] |}).

Section Program.

Context {R : Type} `{Remote R}.

(** [client.send(cmd)]: the command is recorded and answered; the
    promise holds the answer. *)
Definition request {A : Type} (cmd : command) (answer : R -> (Error + A) * R)
  : session R -> (Error + A) * session R :=
  fun w =>
    let '(r, rem) := answer (remote w) in
    (r, {| remote := rem; sent := sent w ++ [cmd]; info_log := info_log w |}).

(** [await] of a promise that holds [r]. *)
Definition await {A : Type} (r : Error + A) : M R A :=
  fun w => (match r with inl e => Throws e | inr a => Ok a end, w).

(** [await client.send(cmd)] with nothing in between. *)
Definition send {A : Type} (cmd : command) (answer : R -> (Error + A) * R) : M R A :=
  fun w => let '(r, w') := request cmd answer w in await r w'.

Definition send_head (i : HeadObjectInput) : M R HeadObjectOutput :=
  send (HeadObjectCommand i) (head_object i).

Definition send_copy (i : CopyObjectInput) : M R unit :=
  send (CopyObjectCommand i) (copy_object i).

Definition send_get_tagging (i : GetObjectTaggingInput) : M R GetObjectTaggingOutput :=
  send (GetObjectTaggingCommand i) (get_object_tagging i).

Definition send_list (i : ListObjectsInput) : M R ListObjectsOutput :=
  send (ListObjectsCommand i) (list_objects i).

(** [(new Date()).toISOString()]. *)
Definition date_now : M R string :=
  fun w => (Ok (to_iso_string_now (remote w)), w).

Definition default_cache_control : string := "max-age=0, stale-while-revalidate=86400".

(** The copy command [keyTaggedAsOld] builds from the answer [data] to
    its head command, at time [now]. *)
Definition mark_command (bucket key : string) (data : HeadObjectOutput) (now : string)
  : CopyObjectInput :=
  {| copy_Bucket := bucket;
     copy_Key := key;
     CopySource :=
       bucket +:+ "/" +:+ join_with "/" (map encodeURIComponent (split_on "/" key));
     copy_ContentType := ContentType data;
     copy_CacheControl := Some (nullish (CacheControl data) default_cache_control);
     MetadataDirective := Some "REPLACE";
     copy_Metadata := Some (<["old-at" := now]> (nullish (Metadata data) ∅));
     TaggingDirective := Some "REPLACE";
     Tagging := Some "old=true" |}.

(** Tag an object as old and update its last modified date.

    The call [keyTaggedAsOld(client, bucket, key)] runs to the first
    [await]: the head command is sent. *)
Definition keyTaggedAsOld_call (bucket key : string)
  : session R -> (Error + HeadObjectOutput) * session R :=
  request (HeadObjectCommand {| head_Bucket := bucket; head_Key := key |})
          (head_object {| head_Bucket := bucket; head_Key := key |}).

(** Resumed with the answer to the head command, it builds the copy
    command and sends it.  After the answer to that one nothing is left
    but to return: the last resumption has no effect of its own and is
    taken together with this one. *)
Definition keyTaggedAsOld_resume (bucket key : string)
           (answer : Error + HeadObjectOutput) : M R unit :=
  data <- await answer ;;
  now <- date_now ;;
  send_copy (mark_command bucket key data now).

(** The function awaited on its own, with nothing in between. *)
Definition keyTaggedAsOld (bucket key : string) : M R unit :=
  fun w =>
    let '(answer, w') := keyTaggedAsOld_call bucket key w in
    keyTaggedAsOld_resume bucket key answer w'.

(** [tag.Key === 'old' && tag.Value === 'true'] *)
Definition is_old_tag (tag : Tag) : bool :=
  match tag_Key tag, tag_Value tag with
  | Some k, Some v => String.eqb k "old" && String.eqb v "true"
  | _, _ => false
  end.

(** Check if an object is tagged as old. *)
Definition isKeyTaggedAsOld (bucket key : string) : M R bool :=
  tags <- send_get_tagging {| tagging_Bucket := bucket; tagging_Key := key |} ;;
  ret (match TagSet tags with
       | Some set => existsb is_old_tag set
       | None => false
       end).

(** The generator [tagger(list)]: its state is the part of [list.Contents]
    still to visit; an entry without a key, or with the empty key, is
    passed over.  The operation it yields is the call
    [keyTaggedAsOld(client, bucket, o.Key)], named here by its key. *)
Definition tagger (page : ListObjectsOutput) : list S3Object :=
  match Contents page with
  | Some contents => contents
  | None => []
  end.

Fixpoint tagger_pull (contents : list S3Object) : option (string * list S3Object) :=
  match contents with
  | [] => None
  | o :: contents' =>
      match Key o with
      | Some (String c k) => Some (String c k, contents')
      | Some EmptyString | None => tagger_pull contents'
      end
  end.

(** The operation [tagger] yields for [key], as the scheduler sees it:
    called when it is pulled, which sends the head command and leaves a
    promise that holds the key and the answer, and settled when it is
    resumed, which sends the copy command. *)
Definition start_key (bucket key : string) (w : session R)
  : (string * (Error + HeadObjectOutput)) * session R :=
  let '(answer, w') := keyTaggedAsOld_call bucket key w in ((key, answer), w').

Definition settle_key (bucket : string) (p : string * (Error + HeadObjectOutput))
           (w : session R) : (Error + unit) * session R :=
  match keyTaggedAsOld_resume bucket (fst p) (snd p) w with
  | (Ok u, w') => (inr u, w')
  | (Throws e, w') => (inl e, w')
  | (_, w') => (inl (mkError "Error" "unreachable"), w')
  end.

(** The integer a degree of parallelism holds, 0 when it holds none. *)
Definition degree (parallel : number) : nat :=
  match parallel with
  | Fin z => Z.to_nat z
  | _ => 0
  end.

(** The order in which the operations of one page settle and the races
    are won is not the program's to choose: [oracle w n] is the choice at
    step [n] of the page that is drained from session [w]. *)
Variable oracle : session R -> nat -> nat.

(** [parallelGenerator(parallel, tagger(data))] drained by
    [let result = await tasks.next(); while (!result.done) ...]: it ends
    when the generator returns, throws if the generator throws, and never
    ends if the generator stops at an [await] nothing will resume.  The
    number of steps taken is enough for an integer [parallel]; with
    +Infinity the priming loop does not end, however many are taken. *)
Definition drain (bucket : string) (parallel : number) (data : ListObjectsOutput)
  : M R unit :=
  fun w =>
    let fuel := (2 * degree parallel + 2 * length (tagger data) + 1)%nat in
    let st := run_schedule (start_key bucket) (settle_key bucket) tagger_pull parallel
                           (map (oracle w) (seq 0 fuel))
                           (parallelGenerator parallel (tagger data) w) in
    match sphase st with
    | Returned => (Ok tt, world st)
    | Threw message => (Throws (mkError "Error" message), world st)
    | _ =>
        match enabled st with
        | [] => (Hangs, world st)
        | _ :: _ => (OutOfFuel, world st)
        end
    end.

(** [data.Contents?.at(-1)?.Key] *)
Definition last_key (data : ListObjectsOutput) : option string :=
  match Contents data with
  | Some contents =>
      match last contents with
      | Some o => Key o
      | None => None
      end
  | None => None
  end.

(** Tag all objects in a prefix as old, updating their last modified
    date.  [pages] bounds the iterations of the [while] loop. *)
Fixpoint prefixTaggedAsOld_from (pages : nat) (bucket prefix : string)
         (parallel : number) (marker : option string) : M R unit :=
  match pages with
  | O => fun w => (OutOfFuel, w)
  | S pages' =>
      data <- send_list {| list_Bucket := bucket; list_Prefix := Some prefix;
                           Delimiter := None; Marker := marker; MaxKeys := None |} ;;
      drain bucket parallel data ;;
      let isTruncated := nullish (IsTruncated data) false in
      let marker' := match NextMarker data with
                     | Some m => Some m
                     | None => last_key data
                     end in
      if isTruncated
      then prefixTaggedAsOld_from pages' bucket prefix parallel marker'
      else ret tt
  end.

Definition prefixTaggedAsOld (pages : nat) (bucket prefix : string) (parallel : number)
  : M R unit :=
  prefixTaggedAsOld_from pages bucket prefix parallel None.

(** Checks if the first key in a prefix has been tagged as old. *)
Definition isPrefixTaggedAsOld (bucket prefix : string) : M R bool :=
  page <- send_list {| list_Bucket := bucket; list_Prefix := Some prefix;
                       Delimiter := None; Marker := None; MaxKeys := Some 1%nat |} ;;
  match match Contents page with
        | Some (o :: _) => Key o
        | _ => None
        end with
  | Some key => isKeyTaggedAsOld bucket key
  | None => ret false
  end.

(** [c.Prefix?.slice(folder.length + 1, -1) ?? ''] *)
Definition trimPrefix (folder : string) (c : CommonPrefix) : string :=
  match Prefix c with
  | Some p => slice_to_last (String.length folder + 1) p
  | None => ""
  end.

(** The versions one page of the listing contributes. *)
Definition page_versions (folder : string) (data : ListObjectsOutput) : list Version :=
  omap (fun c => extractVersion (VString (trimPrefix folder c)))
       (nullish (CommonPrefixes data) []).

(** List all versions of a folder. *)
Fixpoint listVersions_from (pages : nat) (bucket folder : string)
         (versions : list Version) (marker : option string) : M R (list Version) :=
  match pages with
  | O => fun w => (OutOfFuel, w)
  | S pages' =>
      data <- send_list {| list_Bucket := bucket; list_Prefix := Some (folder +:+ "/");
                           Delimiter := Some "/"; Marker := marker; MaxKeys := None |} ;;
      let versions' := versions ++ page_versions folder data in
      if nullish (IsTruncated data) false
      then listVersions_from pages' bucket folder versions' (NextMarker data)
      else ret versions'
  end.

Definition listVersions (pages : nat) (bucket folder : string) : M R (list Version) :=
  listVersions_from pages bucket folder [] None.

(** [compareVersions(v, currentVersion) < 0] *)
Definition older_than (currentVersion v : Version) : bool :=
  lt (compareVersions v currentVersion) zero.

Definition version_prefix (folder : string) (v : Version) : string :=
  folder +:+ "/" +:+ version v +:+ "/".

(** The body of [for (const v of versionPrefixes)]. *)
Definition tag_version (pages : nat) (bucket folder : string) (parallel : number)
           (v : Version) : M R unit :=
  let prefix := version_prefix folder v in
  tagged <- isPrefixTaggedAsOld bucket prefix ;;
  if negb tagged
  then info ("Tagging " +:+ prefix +:+ " as old") ;;
       prefixTaggedAsOld pages bucket prefix parallel
  else ret tt.

Fixpoint for_each {A : Type} (body : A -> M R unit) (l : list A) : M R unit :=
  match l with
  | [] => ret tt
  | x :: l' => body x ;; for_each body l'
  end.

(** [ptrData.Metadata?.pointer] *)
Definition pointer_of (ptrData : HeadObjectOutput) : value :=
  match Metadata ptrData with
  | Some m =>
      match m !! "pointer" with
      | Some p => VString p
      | None => VUndefined
      end
  | None => VUndefined
  end.

(** Find all versions older than the current release and tag them as
    old. *)
Definition tagOldVersions (pages : nat) (bucket folder : string) (parallel : number)
  : M R unit :=
  ptrData <- send_head {| head_Bucket := bucket; head_Key := folder +:+ "/index.html" |} ;;
  match extractVersion (pointer_of ptrData) with
  | None => throw (mkError "Error" ("No current version pointer found for " +:+ folder))
  | Some currentVersion =>
      info ("Current version: " +:+ version currentVersion) ;;
      versionPrefixes <- listVersions pages bucket folder ;;
      info ("Found " +:+ decimal_repr (Z.of_nat (length versionPrefixes))
            +:+ " version prefixes") ;;
      for_each (tag_version pages bucket folder parallel)
               (List.filter (older_than currentVersion) versionPrefixes)
  end.

End Program.

Arguments tagger_pull contents : simpl nomatch.

(** *** An object store to run the program against

    Modelled from the spec: the store behind the S3 client is not code of
    this repository.  Section 6 of the specification gives its interface:
    [HeadMetadata] returns the content type, cache control and custom
    metadata of an object or fails; [CopyInPlace] rewrites content type,
    cache control, metadata and tags and refreshes the last-modified time,
    the content staying as it is; [GetTags] returns the tags;
    [ListChildren] lists keys under a prefix in key order, page by page,
    grouping by a delimiter when one is given.  One bucket is modelled,
    with objects in key order and a clock that shows the milliseconds
    since midnight and advances by one with every request. *)

Record StoredObject : Type := mkStoredObject {
  body : string;
  content_type : option string;
  cache_control : option string;
  user_metadata : gmap string string;
  tag_set : list (string * string);
  last_modified : Z
}.

Record Store : Type := mkStore {
  bucket_name : string;
  objects : list (string * StoredObject);
  clock : Z;
  page_size : nat
}.

Fixpoint find_object (key : string) (objs : list (string * StoredObject))
  : option StoredObject :=
  match objs with
  | [] => None
  | (k, o) :: objs' => if String.eqb k key then Some o else find_object key objs'
  end.

(** Writes [o] at [key]: in place when the key exists, else at its place
    in key order. *)
Fixpoint put_object (key : string) (o : StoredObject)
         (objs : list (string * StoredObject)) : list (string * StoredObject) :=
  match objs with
  | [] => [(key, o)]
  | (k, o') :: objs' =>
      if String.eqb k key then (key, o) :: objs'
      else if String.ltb key k then (key, o) :: (k, o') :: objs'
      else (k, o') :: put_object key o objs'
  end.

Definition tick (s : Store) : Store :=
  {| bucket_name := bucket_name s; objects := objects s;
     clock := clock s + 1; page_size := page_size s |}.

Definition hex_value (c : ascii) : option nat :=
  let n := nat_of_ascii c in
  if ((48 <=? n) && (n <=? 57))%nat then Some (n - 48)%nat
  else if ((65 <=? n) && (n <=? 70))%nat then Some (n - 55)%nat
  else if ((97 <=? n) && (n <=? 102))%nat then Some (n - 87)%nat
  else None.

(** The bytes of a percent-encoded string. *)
Fixpoint percent_decode (s : string) : list nat :=
  match s with
  | EmptyString => []
  | String c s' =>
      match c, s' with
      | "%"%char, String h (String l rest) =>
          match hex_value h, hex_value l with
          | Some a, Some b => (16 * a + b)%nat :: percent_decode rest
          | _, _ => nat_of_ascii c :: percent_decode s'
          end
      | _, _ => nat_of_ascii c :: percent_decode s'
      end
  end.

(** The code units of a UTF-8 byte sequence, up to U+00FF. *)
Fixpoint utf8_decode (bytes : list nat) : string :=
  match bytes with
  | [] => ""
  | b :: bytes' =>
      if (b <? 128)%nat then String (ascii_of_nat b) (utf8_decode bytes')
      else
        match bytes' with
        | b2 :: bytes'' =>
            String (ascii_of_nat ((b - 192) * 64 + (b2 - 128))) (utf8_decode bytes'')
        | [] => String (ascii_of_nat b) ""
        end
  end.

(** The UTF-8 bytes of a string of code units up to U+00FF. *)
Fixpoint utf8_encode (s : string) : list nat :=
  match s with
  | EmptyString => []
  | String c s' =>
      let n := nat_of_ascii c in
      if (n <? 128)%nat then n :: utf8_encode s'
      else (192 + n / 64)%nat :: (128 + n mod 64)%nat :: utf8_encode s'
  end.

Fixpoint strip_prefix (p s : string) : option string :=
  match p, s with
  | EmptyString, _ => Some s
  | String a p', String b s' => if Ascii.eqb a b then strip_prefix p' s' else None
  | String _ _, EmptyString => None
  end.

(** The key a [CopySource] of this bucket names. *)
Definition copy_source_key (s : Store) (source : string) : option string :=
  match strip_prefix (bucket_name s +:+ "/") source with
  | Some encoded => Some (utf8_decode (percent_decode encoded))
  | None => None
  end.

(** [k1=v1&k2=v2] as a tag set. *)
Definition parse_tagging (t : string) : list (string * string) :=
  omap (fun kv => match split_on "=" kv with
                  | [k; v] => Some (k, v)
                  | _ => None
                  end)
       (match t with EmptyString => [] | _ => split_on "&" t end).

Definition store_head (i : HeadObjectInput) (s : Store)
  : (Error + HeadObjectOutput) * Store :=
  (if String.eqb (head_Bucket i) (bucket_name s) then
     match find_object (head_Key i) (objects s) with
     | Some o => inr {| ContentType := content_type o;
                        CacheControl := cache_control o;
                        Metadata := Some (user_metadata o) |}
     | None => inl (mkError "NotFound" "The specified key does not exist.")
     end
   else inl (mkError "NoSuchBucket" "The specified bucket does not exist."),
   tick s).

Definition store_copy (i : CopyObjectInput) (s : Store) : (Error + unit) * Store :=
  if String.eqb (copy_Bucket i) (bucket_name s) then
    match copy_source_key s (CopySource i) with
    | Some source_key =>
        match find_object source_key (objects s) with
        | Some o =>
            let replace_metadata :=
              match MetadataDirective i with
              | Some d => String.eqb d "REPLACE"
              | None => false
              end in
            let replace_tags :=
              match TaggingDirective i with
              | Some d => String.eqb d "REPLACE"
              | None => false
              end in
            let o' :=
              {| body := body o;
                 content_type :=
                   if replace_metadata then copy_ContentType i else content_type o;
                 cache_control :=
                   if replace_metadata then copy_CacheControl i else cache_control o;
                 user_metadata :=
                   if replace_metadata then nullish (copy_Metadata i) ∅
                   else user_metadata o;
                 tag_set :=
                   if replace_tags then parse_tagging (nullish (Tagging i) "")
                   else tag_set o;
                 last_modified := clock s |} in
            (inr tt,
             tick {| bucket_name := bucket_name s;
                     objects := put_object (copy_Key i) o' (objects s);
                     clock := clock s; page_size := page_size s |})
        | None => (inl (mkError "NoSuchKey" "The specified key does not exist."), tick s)
        end
    | None => (inl (mkError "InvalidArgument" "Invalid copy source."), tick s)
    end
  else (inl (mkError "NoSuchBucket" "The specified bucket does not exist."), tick s).

Definition store_get_tagging (i : GetObjectTaggingInput) (s : Store)
  : (Error + GetObjectTaggingOutput) * Store :=
  (if String.eqb (tagging_Bucket i) (bucket_name s) then
     match find_object (tagging_Key i) (objects s) with
     | Some o =>
         inr {| TagSet :=
                  Some (map (fun kv => {| tag_Key := Some (fst kv);
                                          tag_Value := Some (snd kv) |})
                            (tag_set o)) |}
     | None => inl (mkError "NoSuchKey" "The specified key does not exist.")
     end
   else inl (mkError "NoSuchBucket" "The specified bucket does not exist."),
   tick s).

(** One entry of a listing: a key, or the common prefix of a group. *)
Definition list_entry (prefix : string) (delimiter : option string) (key : string)
  : option (bool * string) :=
  match strip_prefix prefix key with
  | None => None
  | Some rest =>
      match delimiter with
      | Some d =>
          match index 0 d rest with
          | Some p =>
              Some (true, prefix +:+ substring 0 (p + String.length d) rest)
          | None => Some (false, key)
          end
      | None => Some (false, key)
      end
  end.

Fixpoint dedupe (entries : list (bool * string)) : list (bool * string) :=
  match entries with
  | e :: ((e' :: _) as rest) =>
      if bool_decide (e = e') then dedupe rest else e :: dedupe rest
  | _ => entries
  end.

Definition store_list (i : ListObjectsInput) (s : Store)
  : (Error + ListObjectsOutput) * Store :=
  (if String.eqb (list_Bucket i) (bucket_name s) then
     let prefix := nullish (list_Prefix i) "" in
     let entries := dedupe (omap (fun ko => list_entry prefix (Delimiter i) (fst ko))
                                 (objects s)) in
     let entries := match Marker i with
                    | Some m => List.filter (fun e : bool * string => String.ltb m (snd e)) entries
                    | None => entries
                    end in
     let n := match MaxKeys i with Some n => Nat.min n (page_size s) | None => page_size s end in
     let page := take n entries in
     let truncated := (n <? length entries)%nat in
     let keys := omap (fun e : bool * string =>
                         if fst e then None else Some {| Key := Some (snd e) |}) page in
     let groups := omap (fun e : bool * string =>
                           if fst e then Some {| Prefix := Some (snd e) |} else None) page in
     inr {| Contents := match keys with [] => None | _ => Some keys end;
            CommonPrefixes := match groups with [] => None | _ => Some groups end;
            IsTruncated := Some truncated;
            NextMarker :=
              match Delimiter i, truncated, last page with
              | Some _, true, Some e => Some (snd e)
              | _, _, _ => None
              end |}
   else inl (mkError "NoSuchBucket" "The specified bucket does not exist."),
   tick s).

Definition pad (width : nat) (n : Z) : string :=
  let d := decimal_repr n in
  zeros (width - String.length d) +:+ d.

(** [toISOString] of the clock, a time of day on 1970-01-01. *)
Definition store_now (s : Store) : string :=
  let ms := clock s mod 86400000 in
  "1970-01-01T" +:+ pad 2 (ms / 3600000) +:+ ":" +:+ pad 2 (ms / 60000 mod 60)
  +:+ ":" +:+ pad 2 (ms / 1000 mod 60) +:+ "." +:+ pad 3 (ms mod 1000) +:+ "Z".

#[export] Instance store_remote : Remote Store := {|
  head_object := store_head;
  copy_object := store_copy;
  get_object_tagging := store_get_tagging;
  list_objects := store_list;
  to_iso_string_now := store_now
|}.

(** *** The scenario of [main.test.ts] *)

Definition test_bucket : string := "tinymce-docs-cleanup-action".
Definition test_folder : string := "pr-123".
Definition test_runs : list string := ["run-12-3"; "run-13-1"; "run-13-2"; "run-14-1"].

Definition test_files : list (string * string) :=
  [("dir-one/file-four.txt", "four");
   ("dir-two/dir-three/file-five.txt", "five");
   ("file-one.txt", "one");
   ("file-three.txt", "three");
   ("file-two.txt", "two")].

Definition test_object (run_name file content : string) : string * StoredObject :=
  (test_folder +:+ "/" +:+ run_name +:+ "/" +:+ file,
   {| body := content;
      content_type := Some "text/plain";
      cache_control := None;
      user_metadata :=
        if String.eqb file "file-one.txt"
        then {[ "custom-key" := "custom-value"; "version" := run_name ]}
        else ∅;
      tag_set := [];
      last_modified := 0 |}).

Definition test_pointer : string * StoredObject :=
  (test_folder +:+ "/index.html",
   {| body := "<!doctype html><title>?</title>";
      content_type := Some "text/html";
      cache_control := None;
      user_metadata := {[ "pointer" := "run-13-2" ]};
      tag_set := [];
      last_modified := 0 |}).

Definition test_store : Store :=
  {| bucket_name := test_bucket;
     objects :=
       test_pointer ::
       flat_map (fun r => map (fun fc => test_object r (fst fc) (snd fc)) test_files)
                test_runs;
     clock := 1000;
     page_size := 2 |}.

Definition start_session (s : Store) : session Store :=
  {| remote := s; sent := []; info_log := [] |}.

(** The operation that settled first wins the race; slots settle from
    the last to the first. *)
Definition last_first (w : session Store) (n : nat) : nat := (4 - n mod 5)%nat.

Definition first_first (w : session Store) (n : nat) : nat := 0%nat.

(** *** What the statements about [keyTaggedAsOld] use *)

(** A stored object once marked at time [now], the store's clock showing
    [time]. *)
Definition marked (o : StoredObject) (now : string) (time : Z) : StoredObject :=
  {| body := body o;
     content_type := content_type o;
     cache_control := Some (nullish (cache_control o) default_cache_control);
     user_metadata := <["old-at" := now]> (user_metadata o);
     tag_set := [("old", "true")];
     last_modified := time |}.

Definition sample_key : string := "pr-123/run-12-3/file-one.txt".

Definition marked_once : session Store :=
  snd (keyTaggedAsOld test_bucket sample_key (start_session test_store)).

Definition marked_twice : session Store :=
  snd (keyTaggedAsOld test_bucket sample_key marked_once).

(** Content, tags and last-modified time of the object at [key]. *)
Definition attributes_at (w : session Store) (key : string)
  : option (string * list (string * string) * Z) :=
  match find_object key (objects (remote w)) with
  | Some o => Some (body o, tag_set o, last_modified o)
  | None => None
  end.

(** *** What the statements about the pipeline use *)

(** The key for which [tagger] makes a mark-operation, if it makes one. *)
Definition entry_key (o : S3Object) : option string :=
  match Key o with
  | Some (String c k) => Some (String c k)
  | _ => None
  end.

(** The keys of a page for which [tagger] makes a mark-operation. *)
Definition page_keys (page : ListObjectsOutput) : list string :=
  omap entry_key (nullish (Contents page) []).

(** Whatever [m] does, the commands it sends satisfy [P] and the lines it
    logs satisfy [Q]. *)
Definition emits {R A : Type} (P : command -> Prop) (Q : string -> Prop) (m : M R A)
  : Prop :=
  forall w r w',
    m w = (r, w') ->
    exists cmds lines,
      sent w' = sent w ++ cmds /\ info_log w' = info_log w ++ lines /\
      Forall P cmds /\ Forall Q lines.

(** The commands of a mark-operation. *)
Definition object_command (cmd : command) : Prop :=
  match cmd with
  | HeadObjectCommand _ | CopyObjectCommand _ => True
  | _ => False
  end.

(** The commands that sample a prefix: a listing of one key, and the tags
    of that key. *)
Definition sampling_command (prefix : string) (cmd : command) : Prop :=
  match cmd with
  | ListObjectsCommand i => list_Prefix i = Some prefix /\ MaxKeys i = Some 1%nat
  | GetObjectTaggingCommand _ => True
  | _ => False
  end.

(** A command of the work on [prefix]: its listings are under [prefix]. *)
Definition within (prefix : string) (cmd : command) : Prop :=
  match cmd with
  | ListObjectsCommand i => list_Prefix i = Some prefix
  | _ => True
  end.

(** A Version as [extractVersion] gives it for its identifier. *)
Definition parsed (v : Version) : Prop :=
  extractVersion (VString (version v)) = Some v.

(** Some object of the store under [prefix] carries a tag or the
    [old-at] field. *)
Definition touched_under (prefix : string) (s : Store) : bool :=
  existsb (fun ko : string * StoredObject =>
             String.prefix prefix (fst ko) &&
             (negb (bool_decide (tag_set (snd ko) = []))
              || bool_decide (is_Some (user_metadata (snd ko) !! "old-at"))))
          (objects s).

(** Every object of the store under [prefix] carries the tag [old=true]
    and the [old-at] field. *)
Definition marked_under (prefix : string) (s : Store) : bool :=
  forallb (fun ko : string * StoredObject =>
             negb (String.prefix prefix (fst ko)) ||
             (bool_decide (tag_set (snd ko) = [("old", "true")])
              && bool_decide (is_Some (user_metadata (snd ko) !! "old-at"))))
          (objects s).

Definition after_first_run : result unit * session Store :=
  tagOldVersions last_first 10 test_bucket test_folder (Fin 2) (start_session test_store).

Definition after_second_run : result unit * session Store :=
  tagOldVersions first_first 10 test_bucket test_folder (Fin 3)
                 (start_session (remote (snd after_first_run))).

(** A page without [Contents] that claims more is to come, and a store
    that answers every listing with it. *)
Definition bare_page : ListObjectsOutput :=
  {| Contents := None; CommonPrefixes := None;
     IsTruncated := Some true; NextMarker := None |}.

(** The pointer, the current version and the listed versions of the
    scenario. *)
Definition test_pointer_data : HeadObjectOutput :=
  {| ContentType := Some "text/html"; CacheControl := None;
     Metadata := Some {[ "pointer" := "run-13-2" ]} |}.

Definition test_current : Version := mkVersion "run-13-2" (Fin 13) (Fin 2).

Definition test_versions : list Version :=
  [mkVersion "run-12-3" (Fin 12) (Fin 3); mkVersion "run-13-1" (Fin 13) (Fin 1);
   mkVersion "run-13-2" (Fin 13) (Fin 2); mkVersion "run-14-1" (Fin 14) (Fin 1)].

Definition test_after_pointer : session Store :=
  snd (send_head {| head_Bucket := test_bucket;
                    head_Key := test_folder +:+ "/index.html" |}
                 (start_session test_store)).

Definition is_copy (cmd : command) : bool :=
  match cmd with CopyObjectCommand _ => true | _ => false end.

(** ** main.ts, continued *)

(** *** What the statements about the commands sent use *)

(** A remote side that answers a listing with keys under the prefix of
    the request only, as S3 does. *)
Definition lists_under_its_prefix (R : Type) `{Remote R} : Prop :=
  forall (i : ListObjectsInput) (rem rem' : R) (page : ListObjectsOutput)
         (o : S3Object) (key : string),
    list_objects i rem = (inr page, rem') ->
    o ∈ nullish (Contents page) [] -> Key o = Some key ->
    String.prefix (nullish (list_Prefix i) "") key = true.

(** A command of the work on [prefix] in [bucket]: a listing of that
    prefix, or a command about an object whose key is under it; its copy
    commands copy an object onto itself. *)
Definition about_prefix (bucket prefix : string) (cmd : command) : Prop :=
  match cmd with
  | HeadObjectCommand i =>
      head_Bucket i = bucket /\ String.prefix prefix (head_Key i) = true
  | CopyObjectCommand i =>
      copy_Bucket i = bucket /\ String.prefix prefix (copy_Key i) = true /\
      CopySource i
      = bucket +:+ "/" +:+ join_with "/" (map encodeURIComponent (split_on "/" (copy_Key i)))
  | GetObjectTaggingCommand i =>
      tagging_Bucket i = bucket /\ String.prefix prefix (tagging_Key i) = true
  | ListObjectsCommand i =>
      list_Bucket i = bucket /\ list_Prefix i = Some prefix
  end.

(** The listing of the versions of [folder]. *)
Definition version_listing (bucket folder : string) (cmd : command) : Prop :=
  match cmd with
  | ListObjectsCommand i =>
      list_Bucket i = bucket /\ list_Prefix i = Some (folder +:+ "/") /\
      Delimiter i = Some "/" /\ MaxKeys i = None
  | _ => False
  end.

(** The key of the object a command reads or writes. *)
Definition object_key (cmd : command) : option string :=
  match cmd with
  | HeadObjectCommand i => Some (head_Key i)
  | CopyObjectCommand i => Some (copy_Key i)
  | GetObjectTaggingCommand i => Some (tagging_Key i)
  | ListObjectsCommand _ => None
  end.

(** The keys of the head commands and of the copy commands among
    [cmds], in the order in which they were sent. *)
Definition head_keys (cmds : list command) : list string :=
  omap (fun cmd => match cmd with
                   | HeadObjectCommand i => Some (head_Key i)
                   | _ => None
                   end) cmds.

Definition copy_keys (cmds : list command) : list string :=
  omap (fun cmd => match cmd with
                   | CopyObjectCommand i => Some (copy_Key i)
                   | _ => None
                   end) cmds.

(** A command of a mark-operation in [bucket]: a head command, or the
    copy command [keyTaggedAsOld] builds for its key from some answer at
    some time. *)
Definition marking_command (bucket : string) (cmd : command) : Prop :=
  match cmd with
  | HeadObjectCommand i => head_Bucket i = bucket
  | CopyObjectCommand i => exists data now, i = mark_command bucket (copy_Key i) data now
  | _ => False
  end.

(** A remote side that answers every listing with [bare_page] and has no
    object. *)
Inductive Bare : Type := bare.

#[export] Instance bare_remote : Remote Bare := {|
  head_object := fun _ r => (inl (mkError "NotFound" "The specified key does not exist."), r);
  copy_object := fun _ r => (inl (mkError "NoSuchKey" "The specified key does not exist."), r);
  get_object_tagging :=
    fun _ r => (inl (mkError "NoSuchKey" "The specified key does not exist."), r);
  list_objects := fun _ r => (inr bare_page, r);
  to_iso_string_now := fun _ => "1970-01-01T00:00:00.000Z"
|}.

(** The first listing [prefixTaggedAsOld] sends for [prefix]. *)
Definition first_listing (bucket prefix : string) : command :=
  ListObjectsCommand {| list_Bucket := bucket; list_Prefix := Some prefix;
                        Delimiter := None; Marker := None; MaxKeys := None |}.

(** The first page of the listing of [pr-123/run-12-3/] in the scenario of
    [main.test.ts], and a page that lists a key the store does not hold. *)
Definition test_first_page : ListObjectsOutput :=
  {| Contents := Some [ {| Key := Some "pr-123/run-12-3/dir-one/file-four.txt" |};
                        {| Key := Some "pr-123/run-12-3/dir-two/dir-three/file-five.txt" |} ];
     CommonPrefixes := None; IsTruncated := Some true; NextMarker := None |}.

Definition stale_page : ListObjectsOutput :=
  {| Contents := Some [ {| Key := Some "pr-123/run-12-3/file-one.txt" |};
                        {| Key := Some "pr-123/run-12-3/removed.txt" |} ];
     CommonPrefixes := None; IsTruncated := Some false; NextMarker := None |}.

(** No [/] in the string. *)
Fixpoint no_slash (s : string) : bool :=
  match s with
  | EmptyString => true
  | String c s' => negb (Ascii.eqb c "/") && no_slash s'
  end.

(** *** The inputs of the action, [main] and [run]

    [core.getInput] of [@actions/core] and the two validators that
    [main.ts] imports from [./validation] are taken as parameters: the
    properties below hold whatever they are. *)

(** What [run] reports through [@actions/core]. *)
Inductive report : Type :=
| Debug (line : string)          (* core.debug(line) *)
| SetFailed (err : Error).       (* core.setFailed(err) *)

(** The functions are kept in a module of their own: [run] is also the
    name of a field of [Version]. *)
Module Action.

Section Inputs.

Variable getInput : string -> string.
Variables isValidGeneralPurposeBucketName isValidFolder : string -> bool.

(** Get the bucket input *)
Definition inputBucket : Error + string :=
  let bucket := getInput "bucket" in
  if negb (isValidGeneralPurposeBucketName bucket)
  then inl (mkError "Error" ("Invalid bucket name, got " +:+ bucket))
  else inr bucket.

(** Get the folder input *)
Definition inputFolder : Error + string :=
  let folder := getInput "folder" in
  if negb (isValidFolder folder)
  then inl (mkError "Error" ("Invalid folder name, got " +:+ folder))
  else inr folder.

(** Get the parallel input *)
Definition inputParallel : Error + number :=
  let parallel := parseInt (getInput "parallel") in
  if isNaN parallel || lt parallel (Fin 1)
  then inl (mkError "Error" ("Invalid integer value for parallel, got "
                             +:+ getInput "parallel"))
  else inr parallel.

Context {R : Type} `{Remote R}.
Variable oracle : session R -> nat -> nat.

(** A synchronous call that returns or throws. *)
Definition call {A : Type} (r : Error + A) : M R A :=
  match r with
  | inl e => throw e
  | inr a => ret a
  end.

(** Run the program *)
Definition main (pages : nat) : M R unit :=
  bucket <- call inputBucket ;;
  folder <- call inputFolder ;;
  parallel <- call inputParallel ;;
  tagOldVersions oracle pages bucket folder parallel.

(** Run the action and report errors.  Whatever the program throws is an
    [Error]: one it made with [new Error], or the rejection of
    [client.send]; the branch of the [catch] for other values is not
    reached. *)
Definition run (pages : nat) (w : session R) : list report * (result unit * session R) :=
  let '(r, w') := main pages w in
  match r with
  | Throws err => ([Debug "Starting tinymce-docs-cleanup-action"; SetFailed err], (Ok tt, w'))
  | _ => ([Debug "Starting tinymce-docs-cleanup-action"], (r, w'))
  end.

End Inputs.

End Action.

(** *** What the statements about the store use *)

(** The keys of the store, in the order in which it holds them. *)
Definition store_keys (s : Store) : list string := map fst (objects s).

(** Keys in strictly increasing order, as a bucket lists them. *)
Fixpoint increasing (keys : list string) : Prop :=
  match keys with
  | [] => True
  | key :: rest => Forall (fun key' => String.ltb key key' = true) rest /\ increasing rest
  end.

Fixpoint increasingb (keys : list string) : bool :=
  match keys with
  | [] => true
  | key :: rest => forallb (String.ltb key) rest && increasingb rest
  end.

(** The same bucket with the same keys: only attributes of objects and
    the clock may differ. *)
Definition same_frame (s s' : Store) : Prop :=
  bucket_name s' = bucket_name s /\ page_size s' = page_size s /\
  store_keys s' = store_keys s.

(** From [s] to [s'] the objects at [keys] have been marked once, and no
    other object has changed. *)
Definition marks (keys : list string) (s s' : Store) : Prop :=
  forall key o,
    find_object key (objects s) = Some o ->
    (key ∈ keys ->
     exists now time, find_object key (objects s') = Some (marked o now time)) /\
    (key ∉ keys -> find_object key (objects s') = Some o).

(** A character that needs no escape in the path of a [CopySource]. *)
Definition path_safe (c : ascii) : bool :=
  uri_unreserved c || Ascii.eqb c "/" || Ascii.eqb c "%".

Fixpoint all_chars (f : ascii -> bool) (s : string) : bool :=
  match s with
  | EmptyString => true
  | String c s' => f c && all_chars f s'
  end.

(** The path [keyTaggedAsOld] writes after the bucket in [CopySource]. *)
Definition copy_source_path (key : string) : string :=
  join_with "/" (map encodeURIComponent (split_on "/" key)).

(** Modelled from the spec: [IsPrefixMarked] of section 4.3 read on the
    store.  The first object under [prefix] in key order carries the tag
    [old=true]; a prefix with no object is not marked. *)
Definition already_marked (prefix : string) (s : Store) : bool :=
  match List.find (fun ko : string * StoredObject => String.prefix prefix (fst ko))
                  (objects s) with
  | Some ko => bool_decide (("old", "true") ∈ tag_set (snd ko))
  | None => false
  end.

(** Modelled from the spec: steps 3 and 4 of [RunRetention] in section
    4.3.  [key] is under the prefix of a listed version that is strictly
    less than the current one in the order of the data model and whose
    prefix is not already marked in [s]. *)
Definition due (folder : string) (cur : Version) (vs : list Version) (s : Store)
           (key : string) : bool :=
  existsb (fun v => bool_decide (lex_compare v cur = Lt)
                    && negb (already_marked (version_prefix folder v) s)
                    && String.prefix (version_prefix folder v) key)
          vs.

(** A command of the marking of [prefix]: a listing of all of the
    prefix, or a command of a mark-operation. *)
Definition scan_command (prefix : string) (cmd : command) : Prop :=
  match cmd with
  | ListObjectsCommand i => list_Prefix i = Some prefix /\ MaxKeys i = None
  | HeadObjectCommand _ | CopyObjectCommand _ => True
  | GetObjectTaggingCommand _ => False
  end.

(** A folder whose pointer names [run-1<309 zeros>-2], and which holds
    that version and [run-1<309 zeros>-1], with one object each. *)
Definition huge_current : string := "run-1" +:+ zeros 309 +:+ "-2".

Definition overflow_store : Store :=
  {| bucket_name := test_bucket;
     objects :=
       [ (test_folder +:+ "/index.html",
          {| body := "<!doctype html><title>?</title>";
             content_type := Some "text/html";
             cache_control := None;
             user_metadata := {[ "pointer" := huge_current ]};
             tag_set := [];
             last_modified := 0 |});
         (test_folder +:+ "/" +:+ huge_identifier +:+ "/file.txt",
          {| body := "one"; content_type := Some "text/plain"; cache_control := None;
             user_metadata := ∅; tag_set := []; last_modified := 0 |});
         (test_folder +:+ "/" +:+ huge_current +:+ "/file.txt",
          {| body := "two"; content_type := Some "text/plain"; cache_control := None;
             user_metadata := ∅; tag_set := []; last_modified := 0 |}) ];
     clock := 1000;
     page_size := 2 |}.

Definition after_overflow_run : result unit * session Store :=
  tagOldVersions first_first 10 test_bucket test_folder (Fin 2)
                 (start_session overflow_store).

(** A store with one object whose key needs escaping. *)
Definition spaced_key : string := "dir one/file+two.txt".

Definition spaced_store : Store :=
  {| bucket_name := test_bucket;
     objects := [ (spaced_key,
                   {| body := "two"; content_type := Some "text/plain";
                      cache_control := None; user_metadata := ∅; tag_set := [];
                      last_modified := 0 |}) ];
     clock := 1000;
     page_size := 2 |}.

(** * Properties *)

(** ** Strings and digit groups *)

#[local] Arguments append !s1 s2 : simpl nomatch.

Lemma append_nil_r (s : string) : s +:+ "" = s.
Proof. induction s as [|c s IH]; simpl; [reflexivity | now rewrite IH]. Qed.

Lemma append_assoc (s t u : string) : (s +:+ t) +:+ u = s +:+ (t +:+ u).
Proof. induction s as [|c s IH]; simpl; [reflexivity | now rewrite IH]. Qed.

Lemma append_length (s t : string) :
  String.length (s +:+ t) = (String.length s + String.length t)%nat.
Proof. induction s as [|c s IH]; simpl; [reflexivity | now rewrite IH]. Qed.

Lemma all_digits_app (s t : string) :
  all_digits (s +:+ t) = all_digits s && all_digits t.
Proof.
  induction s as [|c s IH]; simpl; [reflexivity|].
  rewrite IH. now rewrite andb_assoc.
Qed.

Lemma digit_group_cons (c : ascii) (s : string) :
  is_digit c = true -> all_digits s = true -> digit_group (String c s).
Proof. intros Hc Hs. split; [discriminate | simpl; now rewrite Hc, Hs]. Qed.

Lemma digit_group_inv (d : string) :
  digit_group d ->
  exists c d', d = String c d' /\ is_digit c = true /\ all_digits d' = true.
Proof.
  intros [Hne Hd]. destruct d as [|c d']; [congruence|].
  simpl in Hd. apply andb_true_iff in Hd as [Hc Hd']. eauto.
Qed.

Lemma is_digit_not_dash (c : ascii) : is_digit c = true -> Ascii.eqb "-" c = false.
Proof.
  intros H. destruct (Ascii.eqb_spec "-"%char c) as [<-|]; [discriminate H | reflexivity].
Qed.

Lemma is_digit_range (c : ascii) :
  is_digit c = true -> 0 <= digit_value c <= 9.
Proof.
  unfold is_digit, digit_value. intros H.
  apply andb_true_iff in H as [H1 H2].
  apply Nat.leb_le in H1, H2. lia.
Qed.

Lemma digit_char_value (c : ascii) :
  is_digit c = true -> digit_char (digit_value c) = c.
Proof.
  intros H. unfold digit_char, digit_value.
  pose proof (is_digit_range c H) as Hr. unfold digit_value in Hr.
  replace (Z.to_nat (48 + (Z.of_nat (nat_of_ascii c) - 48))) with (nat_of_ascii c) by lia.
  apply ascii_nat_embedding.
Qed.

(** ** The regular expression *)

Section Greedy.
Variable k : nat -> string -> list string -> option (list string).

(** Whatever [\d+] followed by [k] returns, a digit group was read and
    [k] accepted what follows it. *)
Lemma greedy_digits_sound (caps : list string) (s : string) :
  forall (acc : string) (pos : nat) (r : list string),
    greedy_digits k caps acc pos s = Some r ->
    exists d rest,
      s = d +:+ rest /\ digit_group d /\
      k (pos + String.length d)%nat rest (caps ++ [acc +:+ d]) = Some r.
Proof.
  induction s as [|c s IH]; intros acc pos r H; simpl in H; [discriminate|].
  destruct (is_digit c) eqn:Hc; [|discriminate].
  destruct (greedy_digits k caps (acc +:+ String c "") (S pos) s) as [r'|] eqn:Hg.
  - injection H as <-. apply IH in Hg as (d & rest & -> & Hd & Hk).
    exists (String c d), rest. split; [reflexivity|]. split.
    + destruct Hd as [_ Hd]. now apply digit_group_cons.
    + rewrite append_assoc in Hk. simpl in Hk. simpl.
      now replace (pos + S (String.length d))%nat with (S pos + String.length d)%nat by lia.
  - exists (String c ""), s. split; [reflexivity|]. split.
    + now apply digit_group_cons.
    + simpl. now replace (pos + 1)%nat with (S pos) by lia.
Qed.

(** [k] gives up on any input that starts with a digit. *)
Hypothesis k_rejects_digit :
  forall pos c s caps, is_digit c = true -> k pos (String c s) caps = None.

Lemma greedy_digits_maximal (caps : list string) (d : string) :
  forall (acc rest : string) (pos : nat),
    digit_group d ->
    (forall c s, rest = String c s -> is_digit c = false) ->
    greedy_digits k caps acc pos (d +:+ rest)
    = k (pos + String.length d)%nat rest (caps ++ [acc +:+ d]).
Proof.
  induction d as [|c d IH]; intros acc rest pos [Hne Hd] Hrest; [congruence|].
  simpl in Hd. apply andb_true_iff in Hd as [Hc Hd].
  simpl. rewrite Hc.
  destruct d as [|c' d'].
  - simpl. replace (pos + 1)%nat with (S pos) by lia.
    destruct rest as [|c2 rest'].
    + reflexivity.
    + simpl. now rewrite (Hrest c2 rest' eq_refl).
  - rewrite (IH (acc +:+ String c "") rest (S pos)).
    + rewrite append_assoc. simpl.
      replace (pos + S (S (String.length d')))%nat
        with (S (pos + S (String.length d')))%nat by lia.
      destruct (k _ rest _) eqn:Hk; [reflexivity|].
      simpl in Hd. apply andb_true_iff in Hd as [Hc' _].
      simpl. now rewrite k_rejects_digit.
    + split; [discriminate | exact Hd].
    + exact Hrest.
Qed.
End Greedy.

Lemma match_bol_later (p : list node) (pos : nat) (s : string) (caps : list string) :
  match_nodes (Bol :: p) (S pos) s caps = None.
Proof. reflexivity. Qed.

Lemma exec_from_bol_later (p : list node) (s : string) :
  forall pos, exec_from (Bol :: p) (S pos) s = None.
Proof.
  induction s as [|c s IH]; intros pos; simpl; [reflexivity | apply IH].
Qed.

Lemma exec_anchored (p : list node) (s : string) :
  exec (Bol :: p) s = match_nodes (Bol :: p) 0 s [].
Proof.
  unfold exec. destruct s as [|c s]; simpl.
  - now destruct (match_nodes p 0 "" []).
  - destruct (match_nodes p 0 (String c s) []); [reflexivity|].
    apply exec_from_bol_later.
Qed.

Lemma match_nodes_bol (p : list node) (s : string) (caps : list string) :
  match_nodes (Bol :: p) 0 s caps = match_nodes p 0 s caps.
Proof. reflexivity. Qed.

Lemma match_nodes_lit (c : ascii) (p : list node) (pos : nat) (s : string)
      (caps : list string) :
  match_nodes (Lit c :: p) pos s caps =
  match s with
  | String c' s' => if Ascii.eqb c c' then match_nodes p (S pos) s' caps else None
  | EmptyString => None
  end.
Proof. reflexivity. Qed.

Lemma match_nodes_cap (p : list node) (pos : nat) (s : string) (caps : list string) :
  match_nodes (CapDigits :: p) pos s caps = greedy_digits (match_nodes p) caps "" pos s.
Proof. reflexivity. Qed.

Lemma match_nodes_eol (pos : nat) (s : string) (caps : list string) :
  match_nodes [Eol] pos s caps = match s with EmptyString => Some caps | _ => None end.
Proof. now destruct s. Qed.

(** Reads one literal node of the pattern off the subject string. *)
Ltac read_lit H str :=
  let c := fresh "c" in
  rewrite match_nodes_lit in H;
  destruct str as [|c str]; [discriminate H|];
  match type of H with
  | context [Ascii.eqb ?a c] =>
      destruct (Ascii.eqb_spec a c) as [<-|]; [|discriminate H]
  end.

(** The pattern accepts exactly [run-<digits>-<digits>] and captures the
    two digit groups. *)
Lemma exec_version_pattern (str : string) (m : list string) :
  exec version_pattern str = Some m <->
  exists d1 d2,
    digit_group d1 /\ digit_group d2 /\
    str = "run-" +:+ d1 +:+ "-" +:+ d2 /\ m = [d1; d2].
Proof.
  unfold version_pattern. rewrite exec_anchored. split.
  - intros H. rewrite match_nodes_bol in H. do 4 read_lit H str.
    rewrite match_nodes_cap in H.
    apply greedy_digits_sound in H as (d1 & rest & -> & Hd1 & H).
    read_lit H rest. rewrite match_nodes_cap in H.
    apply greedy_digits_sound in H as (d2 & rest2 & -> & Hd2 & H).
    rewrite match_nodes_eol in H. destruct rest2; [|discriminate].
    injection H as <-. exists d1, d2. rewrite append_nil_r. auto.
  - intros (d1 & d2 & Hd1 & Hd2 & -> & ->).
    rewrite match_nodes_bol.
    change ("run-" +:+ d1 +:+ "-" +:+ d2)
      with (String "r" (String "u" (String "n" (String "-" (d1 +:+ String "-" d2))))).
    do 4 (rewrite match_nodes_lit; rewrite Ascii.eqb_refl).
    rewrite match_nodes_cap, greedy_digits_maximal; try assumption.
    + rewrite match_nodes_lit, Ascii.eqb_refl, match_nodes_cap.
      replace d2 with (d2 +:+ "") at 1 by apply append_nil_r.
      rewrite greedy_digits_maximal; try assumption.
      * rewrite match_nodes_eol. reflexivity.
      * intros pos c s caps _. reflexivity.
      * intros c s Hcs. discriminate Hcs.
    + intros pos c s caps Hc. rewrite match_nodes_lit. now rewrite is_digit_not_dash.
    + intros c s Hcs. injection Hcs as <- _. reflexivity.
Qed.

(** ** [parseInt] on a digit group *)

Lemma is_digit_not_space (c : ascii) : is_digit c = true -> is_white_space c = false.
Proof.
  unfold is_digit, is_white_space. intros H.
  apply andb_true_iff in H as [H1 H2]. apply Nat.leb_le in H1, H2.
  apply orb_false_iff; split; [apply orb_false_iff; split|].
  - apply andb_false_iff. right. apply Nat.leb_gt. lia.
  - apply Nat.eqb_neq. lia.
  - apply Nat.eqb_neq. lia.
Qed.

Lemma digit_prefix_all (d : string) : all_digits d = true -> digit_prefix d = d.
Proof.
  induction d as [|c d IH]; simpl; [reflexivity|].
  intros H. apply andb_true_iff in H as [Hc Hd]. now rewrite Hc, IH.
Qed.

Lemma decimal_value_from_nonneg (d : string) :
  forall acc, 0 <= acc -> all_digits d = true -> 0 <= decimal_value_from acc d.
Proof.
  induction d as [|c d IH]; intros acc Hacc H; simpl; [assumption|].
  simpl in H. apply andb_true_iff in H as [Hc Hd].
  apply IH; [|assumption]. pose proof (is_digit_range c Hc). lia.
Qed.

Lemma decimal_value_nonneg (d : string) : all_digits d = true -> 0 <= decimal_value d.
Proof. apply decimal_value_from_nonneg. lia. Qed.

Lemma parseInt_digit_group (d : string) :
  digit_group d -> parseInt d = of_Z (decimal_value d).
Proof.
  intros Hd. destruct (digit_group_inv d Hd) as (c & d' & -> & Hc & Hd').
  unfold parseInt. simpl skip_white_space. rewrite (is_digit_not_space c Hc).
  assert (Hsign : (let '(neg, u) :=
                    match String c d' with
                    | String "-" u => (true, u)
                    | String "+" u => (false, u)
                    | _ => (false, String c d')
                    end in (neg, u)) = (false, String c d')).
  { destruct (Ascii.eqb_spec "-"%char c) as [<-|Hm]; [discriminate Hc|].
    destruct (Ascii.eqb_spec "+"%char c) as [<-|Hp]; [discriminate Hc|].
    destruct c as [[] [] [] [] [] [] [] []]; try reflexivity; congruence. }
  destruct (match String c d' with
            | String "-" u => (true, u)
            | String "+" u => (false, u)
            | _ => (false, String c d')
            end) as [neg u].
  injection Hsign as -> ->.
  rewrite digit_prefix_all by (simpl; now rewrite Hc, Hd').
  reflexivity.
Qed.

(** ** Numbers *)

Lemma round_mag_small (m : Z) : m <= 2 ^ 53 -> round_mag m = m.
Proof.
  intros H. unfold round_mag.
  destruct (Z.ltb_spec m (2 ^ 53)) as [_|Hge]; [reflexivity|].
  assert (m = 2 ^ 53) as -> by lia. vm_compute. reflexivity.
Qed.

Lemma round_mag_pos (m : Z) : 0 < m -> 0 < round_mag m.
Proof.
  intros Hm. unfold round_mag.
  destruct (Z.ltb_spec m (2 ^ 53)) as [_|Hge]; [assumption|].
  assert (H53 : 53 <= Z.log2 m).
  { change 53 with (Z.log2 (2 ^ 53)). now apply Z.log2_le_mono. }
  set (e := Z.log2 m - 52).
  assert (He : 0 < 2 ^ e) by (apply Z.pow_pos_nonneg; lia).
  assert (Hle : 2 ^ e <= m).
  { transitivity (2 ^ Z.log2 m).
    - apply Z.pow_le_mono_r; lia.
    - apply Z.log2_spec. lia. }
  assert (Hq : 0 < m / 2 ^ e) by (apply Z.div_str_pos; lia).
  apply Z.mul_pos_pos; [|assumption].
  repeat match goal with |- context [if ?b then _ else _] => destruct b end; lia.
Qed.

Lemma round_mag_zero : round_mag 0 = 0.
Proof. reflexivity. Qed.

(** [of_Z] gives what IEEE-754 gives: around the ends of the exact
    range, at exact ties, at the overflow threshold and for negative
    arguments. *)
Example of_Z_agrees_with_ieee :
  agree_from (2 ^ 53 - 64) 256 = true /\
  agree_from (- (2 ^ 54) - 64) 256 = true /\
  agree_from (2 ^ 60 - 300) 600 = true /\
  agree_from (2 ^ 1024 - 2 ^ 970 - 8) 16 = true /\
  agree_from (10 ^ 22 - 64) 128 = true /\
  agree_from (10 ^ 309) 2 = true /\
  agree_from (-64) 128 = true.
Proof. repeat (split; [vm_compute; reflexivity|]). vm_compute. reflexivity. Qed.

Lemma sign_of_Z (z : Z) : sign (of_Z z) = Some (z ?= 0).
Proof.
  unfold of_Z.
  destruct (Z.eq_dec z 0) as [->|Hz]; [reflexivity|].
  assert (Hv : 0 < round_mag (Z.abs z)) by (apply round_mag_pos; lia).
  destruct (2 ^ 1024 <=? round_mag (Z.abs z)); simpl.
  - destruct (Z.ltb_spec z 0) as [Hlt|Hge]; f_equal; symmetry.
    + now apply Z.compare_lt_iff.
    + apply Z.compare_gt_iff. lia.
  - f_equal. destruct (Z.lt_total z 0) as [Hlt|[Heq|Hgt]]; [|contradiction|].
    + rewrite (proj2 (Z.compare_lt_iff z 0) Hlt). apply Z.compare_lt_iff.
      rewrite Z.sgn_neg by assumption. lia.
    + rewrite (proj2 (Z.compare_gt_iff z 0) Hgt). apply Z.compare_gt_iff.
      rewrite Z.sgn_pos by assumption. lia.
Qed.

Lemma strict_eq_zero_sign (d : number) :
  strict_eq d zero = true <-> sign d = Some Eq.
Proof.
  destruct d as [|[]|z]; simpl; try (split; discriminate).
  rewrite Z.eqb_eq. split.
  - intros ->. reflexivity.
  - intros H. injection H as H. now apply Z.compare_eq_iff.
Qed.

Lemma of_Z_zero_iff (z : Z) : of_Z z = Fin 0 <-> z = 0.
Proof.
  split; [|intros ->; reflexivity].
  intros H. pose proof (sign_of_Z z) as Hs. rewrite H in Hs. simpl in Hs.
  injection Hs as Hs. symmetry in Hs. now apply Z.compare_eq_iff in Hs.
Qed.

Lemma of_Z_exact (z : Z) : 0 <= z <= 2 ^ 53 -> of_Z z = Fin z.
Proof.
  intros [H0 H1]. unfold of_Z.
  rewrite Z.abs_eq by assumption. rewrite round_mag_small by assumption.
  destruct (Z.leb_spec (2 ^ 1024) z) as [Hbig|_].
  - exfalso. assert (2 ^ 53 < 2 ^ 1024) by (vm_compute; reflexivity). lia.
  - f_equal. destruct (Z.eq_dec z 0) as [->|]; [reflexivity|].
    rewrite Z.sgn_pos by lia. lia.
Qed.

Lemma of_Z_nonneg (z : Z) : 0 <= z -> isNaN (of_Z z) = false /\ lt (of_Z z) zero = false.
Proof.
  intros Hz. pose proof (sign_of_Z z) as Hs.
  destruct (of_Z z) as [|[]|x]; simpl in *; try discriminate; split; try reflexivity.
  - injection Hs as Hs. assert (z < 0) by (symmetry; exact Hs). lia.
  - injection Hs as Hs. apply Z.ltb_ge.
    destruct (Z.compare_spec x 0) as [?|Hlt|?]; try lia.
    assert (z < 0) by (symmetry; exact Hs). lia.
Qed.

Lemma sign_sub_fin (x y : Z) : sign (sub (Fin x) (Fin y)) = Some (x ?= y).
Proof. simpl. rewrite sign_of_Z. f_equal. symmetry. apply Z.compare_sub. Qed.

(** ** [extractVersion] *)

Lemma extractVersion_char (s : value) (v : Version) :
  extractVersion s = Some v <->
  exists str d1 d2,
    s = VString str /\ digit_group d1 /\ digit_group d2 /\
    str = "run-" +:+ d1 +:+ "-" +:+ d2 /\
    v = {| version := str;
           run := of_Z (decimal_value d1);
           attempt := of_Z (decimal_value d2) |}.
Proof.
  split.
  - intros H. destruct s as [| | | |str| |]; try discriminate H.
    simpl in H. destruct (exec version_pattern str) as [m|] eqn:Hm; [|discriminate].
    apply exec_version_pattern in Hm as (d1 & d2 & Hd1 & Hd2 & Hstr & ->).
    unfold group in H. simpl in H.
    rewrite !parseInt_digit_group in H by assumption.
    destruct (negb _ && negb _); [|discriminate].
    injection H as <-. exists str, d1, d2. auto.
  - intros (str & d1 & d2 & -> & Hd1 & Hd2 & Hstr & ->). simpl.
    assert (Hm : exec version_pattern str = Some [d1; d2]).
    { apply exec_version_pattern. exists d1, d2. auto. }
    rewrite Hm. unfold group. simpl.
    rewrite !parseInt_digit_group by assumption.
    destruct (of_Z_nonneg (decimal_value d1)) as [-> _].
    { apply decimal_value_nonneg, Hd1. }
    destruct (of_Z_nonneg (decimal_value d2)) as [-> _].
    { apply decimal_value_nonneg, Hd2. }
    reflexivity.
Qed.

(** C6: [extractVersion] succeeds exactly on the strings that fully match
    [run-<digits>-<digits>], and then returns a Version with all three
    fields set (the identifier is the input, neither number is NaN); it
    returns nothing on a number, [null], [undefined], an object or an
    array, nor on a string with a trailing segment, without the prefix,
    with another delimiter, with a non-digit, a sign or a decimal point,
    nor on the empty string. *)
Theorem extractVersion_accepts_exactly_the_pattern :
  (forall s : value,
      (exists v, extractVersion s = Some v) <->
      (exists str, s = VString str /\ matches_run_pattern str)) /\
  (forall str v,
      extractVersion (VString str) = Some v ->
      version v = str /\ isNaN (run v) = false /\ isNaN (attempt v) = false) /\
  (forall n, extractVersion (VNumber n) = None) /\
  extractVersion VNull = None /\
  extractVersion VUndefined = None /\
  (forall fields, extractVersion (VObject fields) = None) /\
  (forall items, extractVersion (VArray items) = None) /\
  extractVersion (VString "run-123-4-5") = None /\
  extractVersion (VString "123-4") = None /\
  extractVersion (VString "run_123_4") = None /\
  extractVersion (VString "run-abc-4") = None /\
  extractVersion (VString "run-123-xyz") = None /\
  extractVersion (VString "run--123-4") = None /\
  extractVersion (VString "run-123.5-4") = None /\
  extractVersion (VString "") = None.
Proof.
  split; [|split]; [| |repeat split; reflexivity].
  - intros s. split.
    + intros [v Hv]. apply extractVersion_char in Hv
        as (str & d1 & d2 & -> & Hd1 & Hd2 & Hstr & _).
      exists str. split; [reflexivity|]. exists d1, d2. auto.
    + intros (str & -> & d1 & d2 & Hd1 & Hd2 & Hstr).
      eexists. apply extractVersion_char. exists str, d1, d2. eauto 6.
  - intros str v Hv. apply extractVersion_char in Hv
      as (str' & d1 & d2 & Heq & Hd1 & Hd2 & Hstr & ->).
    injection Heq as <-. simpl. split; [reflexivity|].
    split; apply of_Z_nonneg, decimal_value_nonneg; [apply Hd1 | apply Hd2].
Qed.

(** ** Decimal representations *)

Lemma string_snoc_inv (c : ascii) (s : string) :
  exists t c', String c s = t +:+ String c' "" /\ String.length t = String.length s.
Proof.
  revert c. induction s as [|c0 s IH]; intros c.
  - exists "", c. split; reflexivity.
  - destruct (IH c0) as (t & c' & Ht & Hlen).
    exists (String c t), c'. simpl. rewrite Ht, Hlen. split; reflexivity.
Qed.

Lemma string_snoc_ind (P : string -> Prop) :
  P "" -> (forall s c, P s -> P (s +:+ String c "")) -> forall s, P s.
Proof.
  intros Hnil Hsnoc s.
  remember (String.length s) as n eqn:Hn. revert s Hn.
  induction n as [|n IH]; intros s Hn.
  - destruct s; [exact Hnil | discriminate].
  - destruct s as [|c s]; [discriminate|].
    destruct (string_snoc_inv c s) as (t & c' & -> & Hlen).
    apply Hsnoc, IH. simpl in Hn. lia.
Qed.

Lemma decimal_value_from_snoc (s : string) (c : ascii) :
  forall acc,
    decimal_value_from acc (s +:+ String c "")
    = 10 * decimal_value_from acc s + digit_value c.
Proof.
  induction s as [|c0 s IH]; intros acc; simpl; [reflexivity | apply IH].
Qed.

Lemma leading_nonzero_snoc (s : string) (c : ascii) :
  s <> "" -> leading_nonzero (s +:+ String c "") = leading_nonzero s.
Proof. destruct s; [congruence | reflexivity]. Qed.

Lemma digit_value_nonzero (c : ascii) :
  is_digit c = true -> negb (Ascii.eqb c "0") = true -> 1 <= digit_value c.
Proof.
  intros Hd Hz. pose proof (is_digit_range c Hd) as Hr.
  destruct (Z.eq_dec (digit_value c) 0) as [H0|]; [|lia].
  exfalso. pose proof (digit_char_value c Hd) as Hc. rewrite H0 in Hc.
  rewrite <- Hc in Hz. discriminate Hz.
Qed.

(** Printing the value of a digit group without leading zero gives the
    digit group back. *)
Lemma decimal_digits_value (d : string) :
  d <> "" -> all_digits d = true -> leading_nonzero d = true ->
  1 <= decimal_value d /\
  forall fuel acc,
    decimal_value d < 2 ^ Z.of_nat fuel ->
    decimal_digits fuel (decimal_value d) acc = d +:+ acc.
Proof.
  induction d as [|s c IH] using string_snoc_ind; [congruence|].
  intros _ Hall Hlead.
  rewrite all_digits_app in Hall. apply andb_true_iff in Hall as [Hs Hc].
  simpl in Hc. rewrite andb_true_r in Hc.
  pose proof (is_digit_range c Hc) as Hr.
  unfold decimal_value in *. rewrite decimal_value_from_snoc.
  destruct s as [|c0 s'].
  - cbn [decimal_value_from] in *.
    assert (1 <= digit_value c) by now apply digit_value_nonzero.
    replace (10 * 0 + digit_value c) with (digit_value c) by lia.
    split; [lia|]. intros fuel acc Hlt.
    destruct fuel as [|f]; [simpl in Hlt; lia|].
    cbn [decimal_digits]. destruct (Z.ltb_spec (digit_value c) 10); [|lia].
    rewrite Z.mod_small by lia. now rewrite digit_char_value.
  - rewrite leading_nonzero_snoc in Hlead by discriminate.
    destruct (IH ltac:(discriminate) Hs Hlead) as [Hpos Hprint].
    set (v := decimal_value_from 0 (String c0 s')) in *.
    split; [lia|]. intros fuel acc Hlt.
    destruct fuel as [|f]; [simpl in Hlt; lia|].
    cbn [decimal_digits].
    destruct (Z.ltb_spec (10 * v + digit_value c) 10); [lia|].
    replace ((10 * v + digit_value c) mod 10) with (digit_value c).
    2:{ rewrite Z.add_comm, Z.mul_comm, Z.mod_add by lia. now rewrite Z.mod_small by lia. }
    replace ((10 * v + digit_value c) / 10) with v.
    2:{ rewrite Z.add_comm, Z.mul_comm, Z.div_add by lia. rewrite Z.div_small by lia. lia. }
    rewrite digit_char_value by assumption.
    rewrite Hprint.
    + now rewrite append_assoc.
    + rewrite Nat2Z.inj_succ, Z.pow_succ_r in Hlt by lia. lia.
Qed.

Lemma decimal_repr_value (d : string) :
  digit_group d -> no_leading_zero d = true ->
  decimal_repr (decimal_value d) = d.
Proof.
  intros Hd Hnz.
  destruct (digit_group_inv d Hd) as (c & d' & -> & Hc & Hd').
  destruct (Ascii.eqb_spec c "0"%char) as [->|Hne].
  - destruct d'; [reflexivity | discriminate Hnz].
  - assert (Hlead : leading_nonzero (String c d') = true).
    { simpl. now apply negb_true_iff, Ascii.eqb_neq. }
    destruct (decimal_digits_value (String c d')) as [Hpos Hprint];
      [discriminate | apply Hd | exact Hlead |].
    unfold decimal_repr. rewrite Hprint; [apply append_nil_r|].
    rewrite Nat2Z.inj_succ, Z2Nat.id by apply Z.log2_nonneg.
    apply Z.log2_spec. lia.
Qed.

Lemma number_to_string_exact (d : string) :
  digit_group d -> no_leading_zero d = true -> decimal_value d <= 2 ^ 53 ->
  number_to_string (of_Z (decimal_value d)) = d.
Proof.
  intros Hd Hnz Hle.
  pose proof (decimal_value_nonneg d (proj2 Hd)) as H0.
  rewrite of_Z_exact by lia. simpl.
  destruct (Z.ltb_spec (decimal_value d) 0); [lia|].
  now apply decimal_repr_value.
Qed.

(** ** [compareVersions] *)

Lemma compareVersions_fin (ia ib : string) (r1 t1 r2 t2 : Z) :
  sign (compareVersions (mkVersion ia (Fin r1) (Fin t1)) (mkVersion ib (Fin r2) (Fin t2)))
  = Some (match r1 ?= r2 with Eq => t1 ?= t2 | c => c end).
Proof.
  unfold compareVersions. cbn [run attempt].
  pose proof (sign_sub_fin r1 r2) as Hs.
  destruct (strict_eq (sub (Fin r1) (Fin r2)) zero) eqn:Hz.
  - apply strict_eq_zero_sign in Hz. rewrite Hz in Hs. injection Hs as Hs.
    rewrite <- Hs. apply sign_sub_fin.
  - rewrite Hs. destruct (r1 ?= r2) eqn:Hc; try reflexivity.
    exfalso. apply strict_eq_zero_sign in Hs. congruence.
Qed.

Lemma finite_version_inv (v : Version) :
  finite_version v -> exists i r t, v = mkVersion i (Fin r) (Fin t).
Proof.
  destruct v as [i [|?|r] [|?|t]]; intros [H1 H2]; try discriminate. eauto.
Qed.

Lemma lex_trans (r1 t1 r2 t2 r3 t3 : Z) (o : comparison) :
  match r1 ?= r2 with Eq => t1 ?= t2 | c => c end = o ->
  match r2 ?= r3 with Eq => t2 ?= t3 | c => c end = o ->
  match r1 ?= r3 with Eq => t1 ?= t3 | c => c end = o.
Proof.
  destruct (Z.compare_spec r1 r2), (Z.compare_spec r2 r3), (Z.compare_spec r1 r3);
    destruct (Z.compare_spec t1 t2), (Z.compare_spec t2 t3), (Z.compare_spec t1 t3);
    intros <-; try lia; try congruence.
Qed.

Lemma lex_le_trans (r1 t1 r2 t2 r3 t3 : Z) :
  match r1 ?= r2 with Eq => t1 ?= t2 | c => c end <> Gt ->
  match r2 ?= r3 with Eq => t2 ?= t3 | c => c end <> Gt ->
  match r1 ?= r3 with Eq => t1 ?= t3 | c => c end <> Gt.
Proof.
  destruct (Z.compare_spec r1 r2), (Z.compare_spec r2 r3), (Z.compare_spec r1 r3);
    destruct (Z.compare_spec t1 t2), (Z.compare_spec t2 t3), (Z.compare_spec t1 t3);
    intros; try lia; try congruence.
Qed.

(** C7, as amended: on Versions whose [run] and [attempt] are finite,
    [compareVersions] is a three-way comparator for the order by [run]
    first and [attempt] second; it is 0 on equal arguments, antisymmetric
    and transitive, and two Versions with the same [run] and [attempt]
    compare equal whatever their identifiers. *)
Theorem compareVersions_total_order_on_finite (a b c : Version) :
  finite_version a -> finite_version b -> finite_version c ->
  sign (compareVersions a b) = Some (lex_compare a b) /\
  compareVersions a a = zero /\
  sign (compareVersions b a) = option_map CompOpp (sign (compareVersions a b)) /\
  (forall o, sign (compareVersions a b) = Some o ->
             sign (compareVersions b c) = Some o ->
             sign (compareVersions a c) = Some o) /\
  (sign (compareVersions a b) <> Some Gt ->
   sign (compareVersions b c) <> Some Gt ->
   sign (compareVersions a c) <> Some Gt) /\
  (run a = run b -> attempt a = attempt b -> compareVersions a b = zero).
Proof.
  intros Ha Hb Hc.
  destruct (finite_version_inv a Ha) as (ia & r1 & t1 & ->).
  destruct (finite_version_inv b Hb) as (ib & r2 & t2 & ->).
  destruct (finite_version_inv c Hc) as (ic & r3 & t3 & ->).
  rewrite !compareVersions_fin. unfold lex_compare. cbn [run attempt ordinal option_map].
  repeat split.
  - unfold compareVersions. cbn [run attempt sub].
    rewrite !Z.sub_diag. reflexivity.
  - f_equal. rewrite (Z.compare_antisym r1 r2), (Z.compare_antisym t1 t2).
    destruct (r1 ?= r2), (t1 ?= t2); reflexivity.
  - intros o H1 H2. injection H1 as H1. injection H2 as H2. f_equal.
    now apply (lex_trans r1 t1 r2 t2 r3 t3).
  - intros H1 H2 H3. injection H3 as H3.
    apply (lex_le_trans r1 t1 r2 t2 r3 t3); congruence.
  - intros Hr Ht. injection Hr as <-. injection Ht as <-.
    unfold compareVersions. cbn [run attempt sub].
    rewrite !Z.sub_diag. reflexivity.
Qed.

Lemma compareVersions_total_order_on_finite_witness :
  finite_version sample_run_122_1 /\ finite_version sample_run_123_1 /\
  finite_version sample_run_123_2 /\
  sign (compareVersions sample_run_122_1 sample_run_123_1)
  = Some (lex_compare sample_run_122_1 sample_run_123_1).
Proof.
  assert (Ha : finite_version sample_run_122_1) by (split; reflexivity).
  assert (Hb : finite_version sample_run_123_1) by (split; reflexivity).
  assert (Hc : finite_version sample_run_123_2) by (split; reflexivity).
  repeat (split; [assumption|]).
  exact (proj1 (compareVersions_total_order_on_finite
                  sample_run_122_1 sample_run_123_1 sample_run_123_2 Ha Hb Hc)).
Defined.

(** C7 as stated fails: the well-formed identifier [run-1<309 zeros>-1]
    parses to a Version whose [run] is +Infinity, and comparing that
    Version with itself gives NaN, not 0. *)
Lemma compareVersions_not_reflexive_on_overflow :
  exists a : Version,
    extractVersion (VString huge_identifier) = Some a /\
    compareVersions a a = NaN /\
    compareVersions a a <> zero /\
    sign (compareVersions a a) = None.
Proof.
  eexists. split; [vm_compute; reflexivity|].
  split; [reflexivity|]. split; [discriminate | reflexivity].
Qed.

(** ** The numbers [extractVersion] returns *)

(** C8, as amended: on success neither component is NaN or negative, and
    each is the double nearest to the decimal value of its digit group,
    which is that very value whenever it is at most 2^53.  Digit groups
    beyond that range are accepted and rounded. *)
Theorem extractVersion_components (str : string) (v : Version) :
  extractVersion (VString str) = Some v ->
  exists d1 d2 : string,
    digit_group d1 /\ digit_group d2 /\ str = "run-" +:+ d1 +:+ "-" +:+ d2 /\
    run v = of_Z (decimal_value d1) /\ attempt v = of_Z (decimal_value d2) /\
    isNaN (run v) = false /\ isNaN (attempt v) = false /\
    lt (run v) zero = false /\ lt (attempt v) zero = false /\
    (decimal_value d1 <= 2 ^ 53 -> run v = Fin (decimal_value d1)) /\
    (decimal_value d2 <= 2 ^ 53 -> attempt v = Fin (decimal_value d2)).
Proof.
  intros H. apply extractVersion_char in H
    as (str' & d1 & d2 & Heq & Hd1 & Hd2 & Hstr & ->).
  injection Heq as <-. exists d1, d2. cbn [run attempt].
  pose proof (decimal_value_nonneg d1 (proj2 Hd1)) as H1.
  pose proof (decimal_value_nonneg d2 (proj2 Hd2)) as H2.
  destruct (of_Z_nonneg _ H1) as [Hn1 Hl1].
  destruct (of_Z_nonneg _ H2) as [Hn2 Hl2].
  repeat (split; [assumption || reflexivity|]).
  split; intros Hle; apply of_Z_exact; lia.
Qed.

Lemma extractVersion_components_witness :
  extractVersion (VString "run-999999-888888")
  = Some (mkVersion "run-999999-888888" (Fin 999999) (Fin 888888)) /\
  exists d1 d2 : string,
    digit_group d1 /\ digit_group d2 /\
    "run-999999-888888" = "run-" +:+ d1 +:+ "-" +:+ d2.
Proof.
  assert (H : extractVersion (VString "run-999999-888888")
              = Some (mkVersion "run-999999-888888" (Fin 999999) (Fin 888888)))
    by (vm_compute; reflexivity).
  split; [exact H|].
  destruct (extractVersion_components _ _ H)
    as (d1 & d2 & Hd1 & Hd2 & Hstr & _).
  exists d1, d2. auto.
Defined.

(** C8 as stated fails: [run-9007199254740993-1] is accepted, and its run
    is 9007199254740992, not the value 2^53 + 1 of the digit group; the
    310-digit run of [huge_identifier] is accepted as +Infinity. *)
Lemma extractVersion_accepts_inexact_digit_group :
  (exists v : Version,
      extractVersion (VString "run-9007199254740993-1") = Some v /\
      run v = Fin 9007199254740992 /\
      decimal_value "9007199254740993" = 9007199254740993 /\
      run v <> Fin (decimal_value "9007199254740993")) /\
  (exists w : Version,
      extractVersion (VString huge_identifier) = Some w /\
      run w = Inf false /\ is_finite (run w) = false).
Proof.
  split.
  - eexists. split; [vm_compute; reflexivity|].
    split; [reflexivity|]. split; [reflexivity|]. vm_compute. discriminate.
  - eexists. split; [vm_compute; reflexivity|]. split; reflexivity.
Qed.

(** ** The identifier [extractVersion] returns *)

(** C9, as amended: the identifier of a parsed Version is the input
    string, of the form [run-<d1>-<d2>] with two digit groups whose values,
    rounded to doubles, are [run] and [attempt].  It is the canonical form
    [run-<run>-<attempt>] when neither digit group has a superfluous
    leading zero and both values are at most 2^53. *)
Theorem extractVersion_identifier (s : value) (v : Version) :
  extractVersion s = Some v ->
  exists str d1 d2 : string,
    s = VString str /\ version v = str /\
    digit_group d1 /\ digit_group d2 /\ str = "run-" +:+ d1 +:+ "-" +:+ d2 /\
    run v = of_Z (decimal_value d1) /\ attempt v = of_Z (decimal_value d2) /\
    (no_leading_zero d1 = true -> no_leading_zero d2 = true ->
     decimal_value d1 <= 2 ^ 53 -> decimal_value d2 <= 2 ^ 53 ->
     version v = canonical_identifier v).
Proof.
  intros H. apply extractVersion_char in H
    as (str & d1 & d2 & -> & Hd1 & Hd2 & Hstr & ->).
  exists str, d1, d2. cbn [version run attempt].
  repeat (split; [assumption || reflexivity|]).
  intros Hz1 Hz2 Hle1 Hle2. unfold canonical_identifier. cbn [run attempt].
  rewrite !number_to_string_exact by assumption. exact Hstr.
Qed.

Lemma extractVersion_identifier_witness :
  extractVersion (VString "run-123-4")
  = Some (mkVersion "run-123-4" (Fin 123) (Fin 4)) /\
  exists str d1 d2 : string,
    VString "run-123-4" = VString str /\
    version (mkVersion "run-123-4" (Fin 123) (Fin 4)) = str /\
    digit_group d1 /\ digit_group d2 /\ str = "run-" +:+ d1 +:+ "-" +:+ d2.
Proof.
  assert (H : extractVersion (VString "run-123-4")
              = Some (mkVersion "run-123-4" (Fin 123) (Fin 4)))
    by (vm_compute; reflexivity).
  split; [exact H|].
  destruct (extractVersion_identifier _ _ H)
    as (str & d1 & d2 & Hs & Hv & Hd1 & Hd2 & Hstr & _).
  exists str, d1, d2. auto.
Defined.

(** C9 as stated fails: [run-007-1] parses to run 7 and attempt 1, and its
    identifier, which keeps the leading zeros, is not [run-7-1]. *)
Lemma extractVersion_keeps_leading_zeros :
  exists v : Version,
    extractVersion (VString "run-007-1") = Some v /\
    version v = "run-007-1" /\
    run v = Fin 7 /\ attempt v = Fin 1 /\
    canonical_identifier v = "run-7-1" /\
    version v <> canonical_identifier v.
Proof.
  eexists. split; [vm_compute; reflexivity|].
  repeat (split; [vm_compute; reflexivity|]).
  vm_compute. discriminate.
Qed.

(** ** The scheduler: slot accounting *)

Section SchedulerFacts.

Context {W Op P T E Src : Type}.
Variable start : Op -> W -> P * W.
Variable settle : P -> W -> (E + T) * W.
Variable pull : Src -> option (Op * Src).

#[local] Abbreviation slot := (slot Op P T E).
#[local] Abbreviation sched := (sched W Op P T E Src).

Lemma pick_elem_of (c : nat) (evs : list event) (ev : event) :
  pick c evs = Some ev -> ev ∈ evs.
Proof. unfold pick. intros H. eapply list_elem_of_lookup_2, H. Qed.

Lemma pick_nonempty (c : nat) (evs : list event) :
  evs <> [] -> exists ev, pick c evs = Some ev.
Proof.
  intros Hne. unfold pick. apply lookup_lt_is_Some_2.
  apply Nat.mod_upper_bound. destruct evs; [congruence | simpl; lia].
Qed.

Lemma pick_nil (c : nat) : pick c [] = None.
Proof. unfold pick. now rewrite lookup_nil. Qed.

Lemma enabled_racing_inv (a : list slot) (ev : event) :
  ev ∈ concat (imap slot_events a) ->
  exists j s, a !! j = Some s /\ ev ∈ slot_events j s.
Proof.
  intros H. apply list_elem_of_In, in_concat in H as (l & Hl & Hev).
  apply list_elem_of_In, elem_of_lookup_imap in Hl as (j & s & -> & Hj).
  exists j, s. split; [assumption | now apply list_elem_of_In].
Qed.

Lemma enabled_racing_intro (a : list slot) (j : nat) (s : slot) (ev : event) :
  a !! j = Some s -> ev ∈ slot_events j s -> ev ∈ concat (imap slot_events a).
Proof.
  intros Hj Hev. apply list_elem_of_In, in_concat.
  exists (slot_events j s). split; apply list_elem_of_In; [|assumption].
  now apply elem_of_lookup_imap_2.
Qed.

(** Replacing one element changes a sum over the table by the difference
    of the two terms. *)
Lemma sum_list_with_insert (f : slot -> nat) (a : list slot) (j : nat) (s x : slot) :
  a !! j = Some s ->
  (sum_list_with f (<[j := x]> a) + f s = sum_list_with f a + f x)%nat.
Proof.
  revert j. induction a as [|y a IH]; intros [|j] Hj; simpl in *; try discriminate.
  - injection Hj as ->. lia.
  - specialize (IH j Hj). lia.
Qed.

Lemma table_ops_insert (a : list slot) (j : nat) (s x : slot) :
  a !! j = Some s ->
  table_ops (<[j := x]> a) ++ slot_ops s ≡ₚ slot_ops x ++ table_ops a.
Proof.
  unfold table_ops.
  revert j. induction a as [|y a IH]; intros [|j] Hj; simpl in *; try discriminate.
  - injection Hj as ->.
    rewrite <- app_assoc. apply Permutation_app_head, Permutation_app_comm.
  - specialize (IH j Hj).
    rewrite <- app_assoc, IH, !app_assoc.
    apply Permutation_app_tail, Permutation_app_comm.
Qed.

Lemma array_set_in_range (a : list slot) (j : nat) (s x : slot) :
  a !! j = Some s -> array_set a j x = <[j := x]> a.
Proof.
  intros Hj. unfold array_set.
  apply lookup_lt_Some in Hj. now rewrite (proj2 (Nat.ltb_lt _ _) Hj).
Qed.

Lemma well_indexed_insert (a : list slot) (j : nat) (x : slot) :
  well_indexed a -> x <> Hole -> (x = Null \/ slot_index x = Some j) ->
  well_indexed (<[j := x]> a).
Proof.
  intros Ha Hx Hi k s Hk.
  destruct (decide (j = k)) as [->|Hne].
  - apply list_lookup_insert_Some in Hk as [(_ & <- & _)|(? & _)]; [auto | congruence].
  - rewrite list_lookup_insert_ne in Hk by assumption. now apply Ha.
Qed.

Lemma well_indexed_snoc (a : list slot) (x : slot) :
  well_indexed a -> x <> Hole -> (x = Null \/ slot_index x = Some (length a)) ->
  well_indexed (a ++ [x]).
Proof.
  intros Ha Hx Hi k s Hk.
  apply lookup_app_Some in Hk as [Hk|[Hge Hk]]; [now apply Ha|].
  apply list_lookup_singleton_Some in Hk as [Hk <-].
  replace k with (length a) by lia. auto.
Qed.

Lemma well_indexed_slot (a : list slot) (j i : nat) (p : wrapped Op P T E) :
  well_indexed a -> a !! j = Some (Task p) -> slot_index (Task p) = Some i -> i = j.
Proof.
  intros Ha Hj Hi. destruct (Ha j _ Hj) as [_ [Hn|Hs]]; [discriminate | congruence].
Qed.

Lemma wrap_index (i : nat) (task : option (Op * P)) :
  slot_index (Task (wrap (T := T) (E := E) i task)) = Some i.
Proof. now destruct task as [[o p]|]. Qed.

Lemma wrap_waiting (i : nat) (task : option (Op * P)) :
  waiting (Task (wrap (T := T) (E := E) i task))
  = match task with Some _ => 1%nat | None => 0%nat end.
Proof. now destruct task as [[o p]|]. Qed.

(** [slots_ok] holds at the start and is kept by every step. *)
Lemma slots_ok_init (max : Z) (src : Src) (w : W) :
  0 <= max -> slots_ok max (parallelGenerator (Fin max) src w : sched).
Proof.
  intros Hmax. split; simpl; try lia.
  - intros j s Hj. now rewrite lookup_nil in Hj.
  - intros i Hi. destruct (max <? 1); [discriminate | now injection Hi as <-].
Qed.

Lemma slots_ok_step (max : Z) (ev : event) (st : sched) :
  slots_ok max st -> slots_ok max (step start settle pull (Fin max) ev st).
Proof.
  intros Hok. pose proof Hok as [Hidx Hcnt Hlen Hpri].
  unfold step.
  destruct ev as [|j|j]; destruct (sphase st) as [i| | | |msg] eqn:Hph;
    try exact Hok.
  - (* Continue *)
    unfold prime. specialize (Hpri i eq_refl). cbn [lt].
    destruct (Z.ltb_spec (Z.of_nat i) max) as [Hlt|Hge].
    + destruct (source_next start pull (source st) (world st)) as [[task g] w'].
      split; simpl.
      * apply well_indexed_snoc; [assumption | discriminate |].
        right. rewrite Hpri. apply wrap_index.
      * rewrite sum_list_with_app. destruct task as [[o p]|]; simpl; lia.
      * rewrite length_app. simpl. lia.
      * intros k Hk. injection Hk as <-. rewrite length_app. simpl. lia.
    + split; simpl; try assumption. intros k Hk. discriminate.
  - (* Settle, first loop *)
    destruct (tasks st !! j) as [[| |[i r|i o p|i o e]]|] eqn:Hj;
      try exact Hok.
    unfold settle_slot. destruct (settle p (world st)) as [r w'].
    pose proof (well_indexed_slot _ _ _ _ Hidx Hj eq_refl) as ->.
    split; simpl.
    + apply well_indexed_insert; [assumption | discriminate | right; now destruct r].
    + pose proof (sum_list_with_insert waiting _ _ _
                    (Task (match r with
                           | inr v => Resolved j (IValue (o, v))
                           | inl e => Forsaken j o e
                           end)) Hj) as Hs.
      simpl in Hs. destruct r; simpl in Hs; lia.
    + now rewrite length_insert.
    + intros k Hk. congruence.
  - (* Settle, second loop *)
    destruct (tasks st !! j) as [[| |[i r|i o p|i o e]]|] eqn:Hj;
      try exact Hok.
    unfold settle_slot. destruct (settle p (world st)) as [r w'].
    pose proof (well_indexed_slot _ _ _ _ Hidx Hj eq_refl) as ->.
    split; simpl.
    + apply well_indexed_insert; [assumption | discriminate | right; now destruct r].
    + pose proof (sum_list_with_insert waiting _ _ _
                    (Task (match r with
                           | inr v => Resolved j (IValue (o, v))
                           | inl e => Forsaken j o e
                           end)) Hj) as Hs.
      simpl in Hs. destruct r; simpl in Hs; lia.
    + now rewrite length_insert.
    + intros k Hk. congruence.
  - (* Resume, first loop *)
    destruct (tasks st !! j) as [[| |[i r|i o p|i o e]]|] eqn:Hj;
      try exact Hok.
    + destruct (Hidx j _ Hj) as [Hh _]. congruence.
    + pose proof (well_indexed_slot _ _ _ _ Hidx Hj eq_refl) as ->.
      unfold race_won. destruct r as [|x].
      * rewrite (array_set_in_range _ _ _ _ Hj). split; simpl.
        -- apply well_indexed_insert; [assumption | discriminate | now left].
        -- pose proof (sum_list_with_insert waiting _ _ _ Null Hj) as Hs.
           simpl in Hs. lia.
        -- now rewrite length_insert.
        -- intros k Hk. destruct (some_not_null _); discriminate.
      * destruct (source_next start pull (source st) (world st)) as [[task g] w'].
        rewrite (array_set_in_range _ _ _ _ Hj). split; simpl.
        -- apply well_indexed_insert; [assumption | discriminate |].
           right. apply wrap_index.
        -- pose proof (sum_list_with_insert waiting _ _ _
                         (Task (wrap j task)) Hj) as Hs.
           destruct task as [[o' p']|]; simpl in Hs |- *; lia.
        -- now rewrite length_insert.
        -- intros k Hk. discriminate.
  - (* Resume, second loop *)
    destruct (tasks st !! j) as [[| |[i r|i o p|i o e]]|] eqn:Hj;
      try exact Hok.
    + destruct (Hidx j _ Hj) as [Hh _]. congruence.
    + pose proof (well_indexed_slot _ _ _ _ Hidx Hj eq_refl) as ->.
      unfold drain_won. rewrite (array_set_in_range _ _ _ _ Hj). split; simpl.
      * apply well_indexed_insert; [assumption | discriminate | now left].
      * pose proof (sum_list_with_insert waiting _ _ _ Null Hj) as Hs.
        simpl in Hs. lia.
      * now rewrite length_insert.
      * intros k Hk. destruct (some_not_null _); discriminate.
Qed.

Lemma slots_ok_run (max : Z) (choices : list nat) :
  forall st : sched,
    slots_ok max st -> slots_ok max (run_schedule start settle pull (Fin max) choices st).
Proof.
  induction choices as [|c cs IH]; intros st Hst; simpl; [assumption|].
  destruct (pick c (enabled st)); [|assumption].
  apply IH, slots_ok_step, Hst.
Qed.

Lemma sum_waiting_le_length (a : list slot) :
  (sum_list_with waiting a <= length a)%nat.
Proof.
  induction a as [|s a IH]; simpl; [lia|].
  assert (waiting s <= 1)%nat by (destruct s as [| |[]]; simpl; lia). lia.
Qed.

(** C3: for every [max >= 1], every source and every order in which the
    operations settle, after any number of steps (of the priming loop, the
    race loop or the drain loop) the operations pulled and not yet settled
    are at most [max], and they are the ones waiting in the slot table. *)
Theorem in_flight_at_most_max
        (max : Z) (src : Src) (w : W) (choices : list nat) :
  1 <= max ->
  let st := run_schedule start settle pull (Fin max) choices
                         (parallelGenerator (Fin max) src w) in
  0 <= in_flight st <= max /\
  in_flight st = Z.of_nat (sum_list_with waiting (tasks st)) /\
  Z.of_nat (length (tasks st)) <= max.
Proof.
  intros Hmax st.
  assert (Hok : slots_ok max st).
  { apply slots_ok_run, slots_ok_init. lia. }
  destruct Hok as [_ Hcnt Hlen _].
  pose proof (sum_waiting_le_length (tasks st)) as Hle.
  unfold in_flight. rewrite Hcnt. repeat split; lia.
Qed.

End SchedulerFacts.

(** ** The scheduler: what a run is made of *)

Section SchedulerRuns.

Context {W Op P T E Src : Type}.
Variable start : Op -> W -> P * W.
Variable settle : P -> W -> (E + T) * W.
Variable pull : Src -> option (Op * Src).

#[local] Abbreviation slotT := (slot Op P T E).
#[local] Abbreviation schedT := (sched W Op P T E Src).

Lemma existsb_insert_true (f : slotT -> bool) (a : list slotT) (j : nat) (x : slotT) :
  existsb f (<[j := x]> a) = true -> f x = true \/ existsb f a = true.
Proof.
  revert j. induction a as [|y a IH]; intros [|j]; simpl; try (now right).
  - intros H. apply orb_true_iff in H as [H|H]; [now left|].
    right. apply orb_true_iff. now right.
  - intros H. apply orb_true_iff in H as [H|H].
    + right. apply orb_true_iff. now left.
    + destruct (IH j H) as [Hx|Ha]; [now left|].
      right. apply orb_true_iff. now right.
Qed.

Lemma existsb_insert_false (f : slotT -> bool) (a : list slotT) (j : nat) (x : slotT) :
  existsb f a = false -> f x = false -> existsb f (<[j := x]> a) = false.
Proof.
  intros Ha Hx. destruct (existsb f (<[j := x]> a)) eqn:H; [|reflexivity].
  apply existsb_insert_true in H as [H|H]; congruence.
Qed.

Lemma forallb_insert (f : slotT -> bool) (a : list slotT) (j : nat) (x : slotT) :
  forallb f a = true -> f x = true -> forallb f (<[j := x]> a) = true.
Proof.
  revert j. induction a as [|y a IH]; intros [|j]; simpl; try (intros; assumption).
  - intros H Hx. apply andb_true_iff in H as [_ H]. now rewrite Hx, H.
  - intros H Hx. apply andb_true_iff in H as [Hy H]. now rewrite Hy, IH.
Qed.

Lemma existsb_lookup (f : slotT -> bool) (a : list slotT) (j : nat) (s : slotT) :
  a !! j = Some s -> f s = true -> existsb f a = true.
Proof.
  intros Hj Hs. apply existsb_exists. exists s. split; [|assumption].
  apply list_elem_of_In. eapply list_elem_of_lookup_2, Hj.
Qed.

Lemma existsb_false_lookup (f : slotT -> bool) (a : list slotT) (j : nat) (s : slotT) :
  existsb f a = false -> a !! j = Some s -> f s = false.
Proof.
  intros Ha Hj. destruct (f s) eqn:Hs; [|reflexivity].
  rewrite (existsb_lookup f a j s Hj Hs) in Ha. discriminate.
Qed.

Lemma forallb_lookup (f : slotT -> bool) (a : list slotT) (j : nat) (s : slotT) :
  forallb f a = true -> a !! j = Some s -> f s = true.
Proof.
  intros Ha Hj. rewrite forallb_forall in Ha. apply Ha.
  apply list_elem_of_In. eapply list_elem_of_lookup_2, Hj.
Qed.

Lemma some_not_null_insert (a : list slotT) (j k : nat) (s y x : slotT) :
  a !! j = Some s -> a !! k = Some y -> j <> k -> y <> Null ->
  some_not_null (<[j := x]> a) = true.
Proof.
  intros Hj Hk Hne Hy. unfold some_not_null.
  apply existsb_lookup with (j := k) (s := y).
  - now rewrite list_lookup_insert_ne.
  - now destruct y.
Qed.

Lemma sum_list_with_snoc (f : slotT -> nat) (a : list slotT) (x : slotT) :
  sum_list_with f (a ++ [x]) = (sum_list_with f a + f x)%nat.
Proof. rewrite sum_list_with_app. simpl. lia. Qed.


(** What [source.next()] gives, from what the source still holds. *)
Lemma source_next_cases (g : option Src) (rest : list Op) (w : W) :
  match g with
  | Some s => source_yields pull s rest
  | None => rest = []
  end ->
  (exists o rest' s',
      rest = o :: rest' /\
      source_next start pull g w = (Some (o, fst (start o w)), Some s', snd (start o w)) /\
      source_yields pull s' rest') \/
  (rest = [] /\ source_next start pull g w = (None, None, w)).
Proof.
  destruct g as [s|]; simpl.
  - destruct rest as [|o rest']; simpl.
    + intros ->. now right.
    + intros (s' & -> & Hs'). left. exists o, rest', s'.
      destruct (start o w). auto.
  - intros ->. now right.
Qed.

Lemma source_next_none (g : option Src) (w : W) :
  g = None -> source_next start pull g w = (None, None, w).
Proof. now intros ->. Qed.

Lemma concat_map_insert {A : Type} (f : slotT -> list A) (a : list slotT) (j : nat)
      (s x : slotT) :
  a !! j = Some s ->
  concat (map f (<[j := x]> a)) ++ f s ≡ₚ f x ++ concat (map f a).
Proof.
  revert j. induction a as [|y a IH]; intros [|j] Hj; simpl in *; try discriminate.
  - injection Hj as ->.
    rewrite <- app_assoc. apply Permutation_app_head, Permutation_app_comm.
  - specialize (IH j Hj).
    rewrite <- app_assoc, IH, !app_assoc.
    apply Permutation_app_tail, Permutation_app_comm.
Qed.

Lemma concat_map_snoc {A : Type} (f : slotT -> list A) (a : list slotT) (x : slotT) :
  concat (map f (a ++ [x])) = concat (map f a) ++ f x.
Proof. rewrite map_app, concat_app. simpl. now rewrite app_nil_r. Qed.

Lemma single_slot (a : list slotT) (j : nat) (s : slotT) :
  (length a <= 1)%nat -> a !! j = Some s -> a = [s] /\ j = 0%nat.
Proof.
  destruct a as [|y [|z a]]; destruct j as [|j]; simpl; intros Hl Hj;
    try discriminate; try lia.
  injection Hj as ->. auto.
Qed.

Lemma table_lengths (a : list slotT) :
  (length (table_pending a) + length (table_outcomes a) <= length a)%nat.
Proof.
  unfold table_pending, table_outcomes.
  induction a as [|s a IH]; simpl; [lia|]. rewrite !length_app.
  destruct s as [| |[i [|[o v]]|i o p|i o e]]; simpl; lia.
Qed.

Lemma some_not_null_false_lookup (a : list slotT) (j : nat) (s : slotT) :
  some_not_null a = false -> a !! j = Some s -> s = Null.
Proof.
  intros Hn Hj. pose proof (existsb_false_lookup _ _ _ _ Hn Hj) as Hs.
  now destruct s.
Qed.

Lemma all_null_nothing {A : Type} (f : slotT -> list A) (a : list slotT) :
  f Null = [] -> some_not_null a = false -> concat (map f a) = [].
Proof.
  intros Hf. unfold some_not_null. induction a as [|s a IH]; simpl; [reflexivity|].
  intros H. apply orb_false_iff in H as [Hs Ha].
  destruct s; try discriminate. rewrite Hf. simpl. now apply IH.
Qed.

(** *** Interleavings *)

Lemma interleaving_counts (max : Z) (w0 w : W) (pulled : list Op)
      (flight : list (Op * P)) (log : list (Op * (E + T))) :
  interleaving start settle max w0 pulled flight log w ->
  length pulled = (length log + length flight)%nat /\ Z.of_nat (length flight) <= Z.max 0 max.
Proof.
  induction 1 as [|pulled flight log w o _ [IH1 IH2] Hlt
                  |pulled before after log w o p _ [IH1 IH2]].
  - simpl. lia.
  - rewrite !length_app. simpl. lia.
  - rewrite !length_app in *. simpl in *. lia.
Qed.

(** Every operation pulled has settled or is in flight, and nothing
    else. *)
Lemma interleaving_ops (max : Z) (w0 w : W) (pulled : list Op)
      (flight : list (Op * P)) (log : list (Op * (E + T))) :
  interleaving start settle max w0 pulled flight log w ->
  pulled ≡ₚ map fst log ++ map fst flight.
Proof.
  induction 1 as [|pulled flight log w o _ IH Hlt|pulled before after log w o p _ IH].
  - reflexivity.
  - rewrite IH, map_app. simpl. now rewrite app_assoc.
  - rewrite IH, !map_app. simpl. solve_Permutation.
Qed.

(** What has settled settled with what [settle] gave for the promise of
    a call of the operation. *)
Lemma interleaving_outcome (max : Z) (w0 w : W) (pulled : list Op)
      (flight : list (Op * P)) (log : list (Op * (E + T))) :
  interleaving start settle max w0 pulled flight log w ->
  (forall o p, (o, p) ∈ flight -> exists w1, p = fst (start o w1)) /\
  (forall o r, (o, r) ∈ log ->
               exists w1 w2, r = fst (settle (fst (start o w1)) w2)).
Proof.
  induction 1 as [|pulled flight log w o _ [IH1 IH2] Hlt
                  |pulled before after log w o p _ [IH1 IH2]].
  - split; intros o x Hin; inversion Hin.
  - split; [|exact IH2]. intros o' p' Hin.
    apply elem_of_app in Hin as [Hin|Hin]; [eauto|].
    apply list_elem_of_singleton in Hin. injection Hin as -> ->. eauto.
  - split.
    + intros o' p' Hin. apply (IH1 o' p').
      apply elem_of_app in Hin as [Hin|Hin]; apply elem_of_app; [now left|].
      right. now right.
    + intros o' r Hin. apply elem_of_app in Hin as [Hin|Hin]; [eauto|].
      apply list_elem_of_singleton in Hin. injection Hin as -> ->.
      destruct (IH1 o p) as [w1 ->]; [apply elem_of_app; right; left|]. eauto.
Qed.

Lemma run_all_snoc (w : W) (ops : list Op) (o : Op) :
  run_all start settle w (ops ++ [o])
  = (fst (run_all start settle w ops)
     ++ [(o, fst (run_op start settle o (snd (run_all start settle w ops))))],
     snd (run_op start settle o (snd (run_all start settle w ops)))).
Proof.
  revert w. induction ops as [|o' ops IH]; intros w; simpl.
  - now destruct (run_op start settle o w).
  - destruct (run_op start settle o' w) as [r w']. rewrite IH.
    now destruct (run_all start settle w' ops).
Qed.

Lemma run_all_fst (w : W) (ops : list Op) :
  map fst (fst (run_all start settle w ops)) = ops.
Proof.
  revert w. induction ops as [|o ops IH]; intros w; simpl; [reflexivity|].
  destruct (run_op start settle o w) as [r w']. specialize (IH w').
  destruct (run_all start settle w' ops). simpl in *. now rewrite IH.
Qed.

(** With one slot nothing overlaps: the interleaving is the run of the
    operations one after the other, up to the call of the last one. *)
Lemma interleaving_one (w0 w : W) (pulled : list Op)
      (flight : list (Op * P)) (log : list (Op * (E + T))) :
  interleaving start settle 1 w0 pulled flight log w ->
  (flight = [] /\ log = fst (run_all start settle w0 pulled) /\
   w = snd (run_all start settle w0 pulled)) \/
  (exists before o,
      pulled = before ++ [o] /\
      log = fst (run_all start settle w0 before) /\
      flight = [(o, fst (start o (snd (run_all start settle w0 before))))] /\
      w = snd (start o (snd (run_all start settle w0 before)))).
Proof.
  induction 1 as [|pulled flight log w o _ IH Hlt|pulled before after log w o p _ IH].
  - left. auto.
  - right. destruct flight as [|x flight]; [|simpl in Hlt; lia].
    destruct IH as [(_ & -> & ->)|(b & o' & _ & _ & Hf & _)]; [|discriminate].
    exists pulled, o. auto.
  - left. destruct IH as [(Hf & _)|(b & o' & -> & -> & Hf & ->)].
    + destruct before; discriminate.
    + destruct before as [|x before]; [|destruct before; discriminate].
      simpl in Hf. injection Hf as -> -> ->.
      rewrite run_all_snoc. unfold run_op. cbn [fst snd].
      destruct (start o' (snd (run_all start settle w0 b))) as [p1 w1]. cbn [fst snd].
      auto.
Qed.


(** *** The invariant of a run *)

Lemma traced_same (w0 : W) (max : Z) (ops : list Op) (st st' : schedT) (rest : list Op) :
  traced start settle w0 max ops st rest ->
  started st' = started st -> settled st' = settled st -> world st' = world st ->
  table_pending (tasks st') ≡ₚ table_pending (tasks st) ->
  traced start settle w0 max ops st' rest.
Proof.
  intros (pulled & flight & Hp & Hs & Hf & Hil) H1 H2 H3 H4.
  exists pulled, flight. rewrite H1, H2, H3, H4. auto.
Qed.

Lemma traced_start (w0 : W) (max : Z) (ops : list Op) (st st' : schedT)
      (o : Op) (rest : list Op) :
  traced start settle w0 max ops st (o :: rest) ->
  Z.of_nat (length (table_pending (tasks st))) < max ->
  started st' = (started st + 1)%nat -> settled st' = settled st ->
  world st' = snd (start o (world st)) ->
  table_pending (tasks st')
  ≡ₚ table_pending (tasks st) ++ [(o, fst (start o (world st)))] ->
  traced start settle w0 max ops st' rest.
Proof.
  intros (pulled & flight & Hp & Hs & Hf & Hil) Hlt H1 H2 H3 H4.
  exists (pulled ++ [o]), (flight ++ [(o, fst (start o (world st)))]).
  rewrite H1, H2, H3, H4, <- Hf. split; [|split; [|split]].
  - now rewrite <- app_assoc.
  - rewrite length_app. simpl. lia.
  - reflexivity.
  - apply il_start; [assumption|]. now rewrite Hf.
Qed.

Lemma traced_settle (w0 : W) (max : Z) (ops : list Op) (st st' : schedT)
      (o : Op) (p : P) (rest : list Op) :
  traced start settle w0 max ops st rest ->
  table_pending (tasks st) ≡ₚ (o, p) :: table_pending (tasks st') ->
  started st' = started st ->
  settled st' = settled st ++ [(o, fst (settle p (world st)))] ->
  world st' = snd (settle p (world st)) ->
  traced start settle w0 max ops st' rest.
Proof.
  intros (pulled & flight & Hp & Hs & Hf & Hil) H4 H1 H2 H3.
  assert (Hin : (o, p) ∈ flight) by (rewrite Hf, H4; left).
  apply list_elem_of_split in Hin as (before & after & ->).
  exists pulled, (before ++ after). rewrite H1, H2, H3.
  split; [assumption|]. split; [assumption|]. split.
  - apply (Permutation_cons_inv (a := (o, p))).
    rewrite <- H4, <- Hf. apply Permutation_middle.
  - now apply il_settle.
Qed.

Variable w0 : W.
Variable max : Z.
Variable ops : list Op.

Lemma run_inv_init (src : Src) :
  1 <= max -> source_yields pull src ops ->
  run_inv start settle pull w0 max ops (parallelGenerator (Fin max) src w0 : schedT) ops.
Proof.
  intros Hmax Hsrc. unfold parallelGenerator. cbn [lt].
  destruct (Z.ltb_spec max 1) as [?|_]; [lia|].
  split; simpl; try reflexivity; try assumption.
  - intros j s Hj. now rewrite lookup_nil in Hj.
  - exists [], []. split; [reflexivity|]. split; [reflexivity|].
    split; [reflexivity | apply il_nothing].
  - discriminate.
  - repeat split; lia.
Qed.

Lemma run_inv_pull (st : schedT) (rest : list Op) :
  run_inv start settle pull w0 max ops st rest ->
  (exists o rest' s',
      rest = o :: rest' /\
      source_next start pull (source st) (world st)
      = (Some (o, fst (start o (world st))), Some s', snd (start o (world st))) /\
      source_yields pull s' rest' /\ existsb is_done (tasks st) = false) \/
  (rest = [] /\ source_next start pull (source st) (world st) = (None, None, world st)).
Proof.
  intros [_ Hsrc _ _ _ Hdone _].
  destruct (source_next_cases _ _ (world st) Hsrc)
    as [(o & rest' & s' & -> & Hn & Hs')|[-> Hn]]; [left | now right].
  exists o, rest', s'. repeat split; try assumption.
  destruct (existsb is_done (tasks st)) eqn:Hd; [|reflexivity].
  rewrite (source_next_none _ (world st) (Hdone eq_refl)) in Hn. discriminate.
Qed.

(** The operation in slot [j] settles. *)
Lemma run_inv_settle (st : schedT) (rest : list Op) (j : nat) (o : Op) (p : P) :
  run_inv start settle pull w0 max ops st rest ->
  tasks st !! j = Some (Task (Waiting j o p)) ->
  (sphase st = Racing \/ sphase st = Draining) ->
  run_inv start settle pull w0 max ops (settle_slot settle j j o p st) rest /\
  (steps_left max (settle_slot settle j j o p st) rest < steps_left max st rest)%nat /\
  (in_source_order st -> in_source_order (settle_slot settle j j o p st)).
Proof.
  intros [Hidx Hsrc Htr Hout Hfin Hdone Hph] Hj Hphase.
  pose proof (fun st' => traced_settle w0 max ops st st' o p rest Htr) as Htr'.
  unfold settle_slot, steps_left in *.
  destruct (settle p (world st)) as [r w'] eqn:Hset. cbn [fst snd] in Htr'.
  set (x := Task (match r with
                  | inr v => Resolved j (IValue (o, v))
                  | inl e => Forsaken j o e
                  end) : slotT).
  assert (Hx1 : slot_pending x = []) by (unfold x; now destruct r).
  assert (Hx2 : slot_outcome x = [(o, r)]) by (unfold x; now destruct r).
  assert (Hx3 : is_done x = false) by (unfold x; now destruct r).
  assert (Hx4 : is_null x = false) by (unfold x; now destruct r).
  assert (Hx5 : (slot_weight x < 3)%nat) by (unfold x; destruct r; simpl; lia).
  assert (Hx6 : x <> Hole) by (unfold x; discriminate).
  assert (Hx7 : slot_index x = Some j) by (unfold x; now destruct r).
  clearbody x.
  pose proof (concat_map_insert slot_pending _ _ _ x Hj) as Hp.
  pose proof (concat_map_insert slot_outcome _ _ _ x Hj) as Hq.
  rewrite Hx1 in Hp. rewrite Hx2 in Hq. simpl in Hp, Hq. rewrite app_nil_r in Hq.
  fold (table_pending (<[j:=x]> (tasks st))) in Hp.
  fold (table_pending (tasks st)) in Hp.
  fold (table_outcomes (<[j:=x]> (tasks st))) in Hq.
  fold (table_outcomes (tasks st)) in Hq.
  split; [split | split]; cbn [sphase tasks source yielded started finished settled world].
  - apply well_indexed_insert; [assumption | assumption | now right].
  - assumption.
  - apply Htr'; cbn [sphase tasks source yielded started finished settled world];
      try reflexivity.
    rewrite <- Hp. symmetry. apply Permutation_cons_append.
  - rewrite Hout, Hq. solve_Permutation.
  - rewrite length_app. simpl. lia.
  - intros Hd. apply existsb_insert_true in Hd as [Hd|Hd]; [congruence | auto].
  - destruct Hphase as [Hr|Hr]; rewrite Hr in Hph |- *.
    + destruct Hph as [Hlen Hnull]. rewrite length_insert. split; [assumption|].
      now apply existsb_insert_false.
    + destruct Hph as [Hnone _]. split; [assumption|].
      unfold some_not_null. apply existsb_lookup with (j := j) (s := x).
      * apply list_lookup_insert_eq. now apply lookup_lt_Some in Hj.
      * destruct x; simpl in *; congruence.
  - pose proof (sum_list_with_insert slot_weight _ _ _ x Hj) as Hs.
    simpl in Hs. lia.
  - intros (Hl1 & He). unfold in_source_order.
    cbn [sphase tasks source yielded started finished settled world].
    destruct (single_slot _ _ _ Hl1 Hj) as [Ha ->]. rewrite Ha in *.
    cbn [list_insert insert] in *. unfold table_pending, table_outcomes in *.
    cbn [map concat slot_pending slot_outcome app] in *.
    rewrite Hx2. cbn [app]. split; [simpl; lia|].
    rewrite He, !app_nil_r. reflexivity.
Qed.

Ltac sched_fields :=
  cbn [sphase tasks source yielded started finished settled world wrap fst snd].

Ltac order_close :=
  rewrite ?map_app; unfold table_outcomes, fulfilled; simpl;
  rewrite <- ?app_assoc, ?app_nil_r; reflexivity.

Lemma pending_below (a : list slotT) :
  Z.of_nat (length (table_pending a)) <= Z.of_nat (length a).
Proof. pose proof (table_lengths a). lia. Qed.

(** Every step keeps [run_inv] and uses up some of [steps_left]; with one
    slot it keeps the order of the source. *)
Lemma run_inv_step (ev : event) (st : schedT) (rest : list Op) :
  run_inv start settle pull w0 max ops st rest -> ev ∈ enabled st ->
  exists rest',
    run_inv start settle pull w0 max ops (step start settle pull (Fin max) ev st) rest' /\
    (steps_left max (step start settle pull (Fin max) ev st) rest'
     < steps_left max st rest)%nat /\
    (max = 1 -> in_source_order st ->
     in_source_order (step start settle pull (Fin max) ev st)).
Proof.
  intros Hok Hev. pose proof Hok as [Hidx Hsrc Htr Hout Hfin Hdone Hph].
  unfold enabled in Hev. unfold step.
  destruct (sphase st) as [i| | | |msg] eqn:Hphase; try (now inversion Hev).
  - (* the priming loop *)
    apply list_elem_of_singleton in Hev as ->.
    destruct Hph as (Hlen & Hi & Hnull). unfold prime, steps_left. rewrite Hphase.
    cbn [lt]. destruct (Z.ltb_spec (Z.of_nat i) max) as [Hlt|Hge].
    + destruct (run_inv_pull _ _ Hok)
        as [(o & rest' & s' & -> & Hn & Hs' & Hnd)|[-> Hn]]; rewrite Hn.
      * exists rest'. split; [split | split]; sched_fields.
        -- apply well_indexed_snoc; [assumption | discriminate | right; now rewrite Hlen].
        -- assumption.
        -- eapply traced_start; [exact Htr | | | | |]; sched_fields; try reflexivity.
           ++ pose proof (pending_below (tasks st)). lia.
           ++ unfold table_pending. now rewrite concat_map_snoc.
        -- unfold table_outcomes. rewrite concat_map_snoc. simpl. now rewrite app_nil_r.
        -- assumption.
        -- rewrite existsb_app, Hnd. discriminate.
        -- rewrite length_app, existsb_app, Hnull. simpl. repeat split; lia.
        -- rewrite sum_list_with_snoc. simpl. lia.
        -- intros -> (Hl1 & He). unfold in_source_order. sched_fields.
           assert (Ha : tasks st = []) by (apply nil_length_inv; lia).
           rewrite Ha in *. split; [simpl; lia|]. rewrite He. reflexivity.
      * exists []. split; [split | split]; sched_fields.
        -- apply well_indexed_snoc; [assumption | discriminate | right; now rewrite Hlen].
        -- reflexivity.
        -- eapply traced_same; [exact Htr | | | |]; sched_fields; try reflexivity; try lia.
           unfold table_pending. rewrite concat_map_snoc. simpl. now rewrite app_nil_r.
        -- unfold table_outcomes. rewrite concat_map_snoc. simpl. now rewrite app_nil_r.
        -- assumption.
        -- reflexivity.
        -- rewrite length_app, existsb_app, Hnull. simpl. repeat split; lia.
        -- rewrite sum_list_with_snoc. simpl. lia.
        -- intros -> (Hl1 & He). unfold in_source_order. sched_fields.
           assert (Ha : tasks st = []) by (apply nil_length_inv; lia).
           rewrite Ha in *. split; [simpl; lia|]. rewrite He. reflexivity.
    + exists rest. split; [split | split]; sched_fields; try assumption.
      * split; [lia | assumption].
      * simpl. lia.
      * intros _ Hord. exact Hord.
  - (* the first loop *)
    apply enabled_racing_inv in Hev as (j & s & Hj & Hev).
    destruct (Hidx _ _ Hj) as [Hh Hi].
    destruct s as [| |[i r|i o p|i o e]]; try (now inversion Hev); try congruence;
      apply list_elem_of_singleton in Hev as ->; rewrite Hj;
      destruct Hi as [Hi|Hi]; try discriminate; injection Hi as ->.
    + (* the race reports slot j *)
      destruct Hph as [Hlen Hnull].
      unfold race_won, steps_left. rewrite Hphase. destruct r as [|[o x]].
      * assert (Hnone : source st = None).
        { apply Hdone. now apply existsb_lookup with (j := j) (s := Task (Resolved j IDone)). }
        rewrite Hnone in Hsrc. subst rest.
        rewrite (array_set_in_range _ _ _ _ Hj).
        pose proof (concat_map_insert slot_pending _ _ _ Null Hj) as Hp.
        pose proof (concat_map_insert slot_outcome _ _ _ Null Hj) as Hq.
        simpl in Hp, Hq. rewrite app_nil_r in Hp, Hq.
        exists []. split; [split | split]; sched_fields.
        -- apply well_indexed_insert; [assumption | discriminate | now left].
        -- now rewrite Hnone.
        -- eapply traced_same; [exact Htr | | | |]; sched_fields; try reflexivity.
           exact Hp.
        -- unfold table_outcomes. rewrite Hq. exact Hout.
        -- assumption.
        -- intros _. exact Hnone.
        -- destruct (some_not_null (<[j:=Null]> (tasks st))) eqn:Hsn; split; auto.
        -- pose proof (sum_list_with_insert slot_weight _ _ _ Null Hj) as Hs.
           simpl in Hs. destruct (some_not_null (<[j:=Null]> (tasks st))); simpl; lia.
        -- intros _ (Hl1 & He). unfold in_source_order. sched_fields.
           destruct (single_slot _ _ _ Hl1 Hj) as [Ha ->]. rewrite Ha in *.
           split; [simpl; lia | exact He].
      * destruct (run_inv_pull _ _ Hok)
          as [(o' & rest' & s' & -> & Hn & Hs' & Hnd)|[-> Hn]]; rewrite Hn;
          rewrite (array_set_in_range _ _ _ _ Hj).
        -- set (p' := fst (start o' (world st))).
           pose proof (concat_map_insert slot_pending _ _ _ (Task (Waiting j o' p')) Hj) as Hp.
           pose proof (concat_map_insert slot_outcome _ _ _ (Task (Waiting j o' p')) Hj) as Hq.
           simpl in Hp, Hq. rewrite app_nil_r in Hp.
           fold (table_pending (<[j:=Task (Waiting j o' p')]> (tasks st))) in Hp.
           fold (table_pending (tasks st)) in Hp.
           exists rest'. split; [split | split]; sched_fields.
           ++ apply well_indexed_insert; [assumption | discriminate | now right].
           ++ assumption.
           ++ eapply traced_start; [exact Htr | | | | |]; sched_fields; try reflexivity.
              ** pose proof (pending_below (<[j:=Task (Waiting j o' p')]> (tasks st))) as Hb.
                 rewrite Hp, length_insert in Hb. simpl in Hb. lia.
              ** rewrite Hp. apply Permutation_cons_append.
           ++ rewrite map_app. simpl. unfold fulfilled at 2. simpl.
              rewrite Hout. unfold table_outcomes. rewrite <- Hq. solve_Permutation.
           ++ assumption.
           ++ intros Hd. apply existsb_insert_true in Hd as [Hd|Hd]; [discriminate | congruence].
           ++ rewrite length_insert. split; [assumption|].
              now apply existsb_insert_false.
           ++ pose proof (sum_list_with_insert slot_weight _ _ _
                            (Task (Waiting j o' p')) Hj) as Hs.
              simpl in Hs. simpl. lia.
           ++ intros _ (Hl1 & He). unfold in_source_order. sched_fields.
              destruct (single_slot _ _ _ Hl1 Hj) as [Ha ->]. rewrite Ha in *.
              split; [simpl; lia|]. rewrite He. order_close.
        -- pose proof (concat_map_insert slot_pending _ _ _ (Task (Resolved j IDone)) Hj) as Hp.
           pose proof (concat_map_insert slot_outcome _ _ _ (Task (Resolved j IDone)) Hj) as Hq.
           simpl in Hp, Hq. rewrite app_nil_r in Hp.
           exists []. split; [split | split]; sched_fields.
           ++ apply well_indexed_insert; [assumption | discriminate | now right].
           ++ reflexivity.
           ++ eapply traced_same; [exact Htr | | | |]; sched_fields; try reflexivity; try lia.
              exact Hp.
           ++ rewrite map_app. simpl. unfold fulfilled at 2. simpl.
              rewrite Hout. unfold table_outcomes. rewrite <- Hq. solve_Permutation.
           ++ assumption.
           ++ reflexivity.
           ++ rewrite length_insert. split; [assumption|].
              now apply existsb_insert_false.
           ++ pose proof (sum_list_with_insert slot_weight _ _ _
                            (Task (Resolved j IDone)) Hj) as Hs.
              simpl in Hs. simpl. lia.
           ++ intros _ (Hl1 & He). unfold in_source_order. sched_fields.
              destruct (single_slot _ _ _ Hl1 Hj) as [Ha ->]. rewrite Ha in *.
              split; [simpl; lia|]. rewrite He. order_close.
    + (* the operation in slot j settles *)
      exists rest.
      destruct (run_inv_settle st rest j o p Hok Hj) as (H1 & H2 & H3); auto.
  - (* the second loop *)
    apply enabled_racing_inv in Hev as (j & s & Hj & Hev).
    destruct (Hidx _ _ Hj) as [Hh Hi].
    destruct s as [| |[i r|i o p|i o e]]; try (now inversion Hev); try congruence;
      apply list_elem_of_singleton in Hev as ->; rewrite Hj;
      destruct Hi as [Hi|Hi]; try discriminate; injection Hi as ->.
    + destruct Hph as [Hnone Hsome].
      rewrite Hnone in Hsrc. subst rest.
      unfold drain_won, steps_left. rewrite Hphase.
      rewrite (array_set_in_range _ _ _ _ Hj).
      pose proof (concat_map_insert slot_pending _ _ _ Null Hj) as Hp.
      pose proof (concat_map_insert slot_outcome _ _ _ Null Hj) as Hq.
      simpl in Hp. rewrite app_nil_r in Hp.
      exists []. split; [split | split]; sched_fields.
      * apply well_indexed_insert; [assumption | discriminate | now left].
      * now rewrite Hnone.
      * eapply traced_same; [exact Htr | | | |]; sched_fields; try reflexivity.
        exact Hp.
      * destruct r as [|[o x]]; simpl in Hq.
        -- rewrite app_nil_r in Hq. unfold table_outcomes. rewrite Hq. exact Hout.
        -- rewrite map_app. simpl. unfold fulfilled at 2. simpl.
           rewrite Hout. unfold table_outcomes. rewrite <- Hq. solve_Permutation.
      * assumption.
      * intros _. exact Hnone.
      * destruct (some_not_null (<[j:=Null]> (tasks st))) eqn:Hsn; split; auto.
      * pose proof (sum_list_with_insert slot_weight _ _ _ Null Hj) as Hs.
        destruct r as [|[o x]]; simpl in Hs;
          destruct (some_not_null (<[j:=Null]> (tasks st))); simpl; lia.
      * intros _ (Hl1 & He). unfold in_source_order. sched_fields.
        destruct (single_slot _ _ _ Hl1 Hj) as [Ha ->]. rewrite Ha in *.
        split; [simpl; lia|].
        destruct r as [|[o x]]; [exact He|]. rewrite He. order_close.
    + exists rest.
      destruct (run_inv_settle st rest j o p Hok Hj) as (H1 & H2 & H3); auto.
Qed.

Lemma run_inv_enabled (st : schedT) (rest : list Op) :
  run_inv start settle pull w0 max ops st rest ->
  steps_left max st rest = 0%nat -> enabled st = [].
Proof.
  intros Hok H0. destruct (enabled st) as [|ev evs] eqn:Hen; [reflexivity|].
  assert (Hev : ev ∈ enabled st) by (rewrite Hen; left).
  destruct (run_inv_step ev _ _ Hok Hev) as (rest' & _ & Hlt & _). lia.
Qed.

(** A run keeps [run_inv]; a schedule as long as [steps_left] runs until
    nothing can happen. *)
Lemma run_inv_run (choices : list nat) :
  forall (st : schedT) (rest : list Op),
    run_inv start settle pull w0 max ops st rest ->
    let st' := run_schedule start settle pull (Fin max) choices st in
    exists rest',
      run_inv start settle pull w0 max ops st' rest' /\
      ((steps_left max st rest <= length choices)%nat -> enabled st' = []) /\
      (max = 1 -> in_source_order st -> in_source_order st').
Proof.
  induction choices as [|c cs IH]; intros st rest Hok; simpl.
  - exists rest. split; [assumption|]. split; [|auto].
    intros Hle. eapply run_inv_enabled; [eassumption | lia].
  - destruct (pick c (enabled st)) as [ev|] eqn:Hpick.
    + apply pick_elem_of in Hpick.
      destruct (run_inv_step ev _ _ Hok Hpick) as (rest1 & Hok1 & Hlt & Hord1).
      destruct (IH _ _ Hok1) as (rest2 & Hok2 & Hen & Hord2).
      exists rest2. split; [assumption|]. split; [intros Hle; apply Hen; lia | auto].
    + exists rest. split; [assumption|]. split; [|auto].
      intros _. destruct (enabled st) as [|ev evs] eqn:Hen; [reflexivity|].
      destruct (pick_nonempty c (ev :: evs)) as [ev' Hev']; [discriminate|]. congruence.
Qed.

(** When nothing can happen, the generator has returned or a slot holds
    a promise that will never resolve. *)
Lemma run_inv_stuck (st : schedT) (rest : list Op) :
  1 <= max ->
  run_inv start settle pull w0 max ops st rest -> enabled st = [] ->
  sphase st = Returned \/
  ((sphase st = Racing \/ sphase st = Draining) /\
   exists j o e, tasks st !! j = Some (Task (Forsaken j o e))).
Proof.
  intros Hmax [Hidx _ _ _ _ _ Hph] Hen. unfold enabled in Hen.
  destruct (sphase st) as [i| | | |msg] eqn:Hphase;
    try discriminate; try contradiction; [| |now left]; right.
  - split; [now left|]. destruct Hph as [Hlen Hnull].
    destruct (tasks st) as [|s a] eqn:Ha; [simpl in Hlen; lia|].
    assert (H0 : tasks st !! 0%nat = Some s) by now rewrite Ha.
    rewrite <- Ha in *.
    destruct (Hidx _ _ H0) as [Hh Hi].
    pose proof (existsb_false_lookup _ _ _ _ Hnull H0) as Hn.
    destruct s as [| |[i r|i o p|i o e]]; try discriminate; try congruence.
    + assert (Hin : Resume 0 ∈ concat (imap slot_events (tasks st))).
      { eapply enabled_racing_intro; [exact H0 | simpl; left]. }
      rewrite Hen in Hin. inversion Hin.
    + assert (Hin : Settle 0 ∈ concat (imap slot_events (tasks st))).
      { eapply enabled_racing_intro; [exact H0 | simpl; left]. }
      rewrite Hen in Hin. inversion Hin.
    + destruct Hi as [Hi|Hi]; [discriminate|]. injection Hi as ->. eauto.
  - split; [now right|]. destruct Hph as [_ Hsome]. unfold some_not_null in Hsome.
    apply existsb_exists in Hsome as (s & Hin & Hs).
    apply list_elem_of_In, list_elem_of_lookup in Hin as [j Hj].
    destruct (Hidx _ _ Hj) as [Hh Hi].
    destruct s as [| |[i r|i o p|i o e]]; try discriminate; try congruence.
    + assert (Hin : Resume j ∈ concat (imap slot_events (tasks st))).
      { eapply enabled_racing_intro; [exact Hj | simpl; left]. }
      rewrite Hen in Hin. inversion Hin.
    + assert (Hin : Settle j ∈ concat (imap slot_events (tasks st))).
      { eapply enabled_racing_intro; [exact Hj | simpl; left]. }
      rewrite Hen in Hin. inversion Hin.
    + destruct Hi as [Hi|Hi]; [discriminate|]. injection Hi as ->. eauto.
Qed.

(** What the log and the counters say at any moment. *)
Lemma run_inv_log (st : schedT) (rest : list Op) :
  run_inv start settle pull w0 max ops st rest ->
  map fst (settled st) ++ map fst (table_pending (tasks st)) ++ rest ≡ₚ ops /\
  map fulfilled (yielded st) ⊆+ settled st /\
  started st = (length (settled st) + length (table_pending (tasks st)))%nat /\
  exists flight,
    interleaving start settle max w0 (take (started st) ops) flight (settled st)
                 (world st) /\
    flight ≡ₚ table_pending (tasks st).
Proof.
  intros [_ _ (pulled & flight & Hp & Hs & Hf & Hil) Hout _ _ _].
  pose proof (interleaving_ops _ _ _ _ _ _ Hil) as Hops.
  pose proof (interleaving_counts _ _ _ _ _ _ Hil) as [Hc _].
  split; [|split; [|split]].
  - rewrite <- Hp, Hops, Hf, <- app_assoc. reflexivity.
  - rewrite Hout. apply submseteq_inserts_r. reflexivity.
  - rewrite Hs, Hc, Hf. reflexivity.
  - exists flight. split; [|assumption].
    rewrite Hs, <- Hp, take_app_length. exact Hil.
Qed.

(** When the generator has returned, every operation of the source has
    been called and has settled, and every outcome has been yielded. *)
Lemma run_inv_returned (st : schedT) (rest : list Op) :
  run_inv start settle pull w0 max ops st rest -> sphase st = Returned ->
  rest = [] /\ map fst (settled st) ≡ₚ ops /\
  settled st ≡ₚ map fulfilled (yielded st) /\
  interleaving start settle max w0 ops [] (settled st) (world st) /\
  tasks st = replicate (length (tasks st)) Null.
Proof.
  intros [Hidx Hsrc (pulled & flight & Hp & Hs & Hf & Hil) Hout _ _ Hph] Hr.
  rewrite Hr in Hph.
  destruct Hph as [Hnone Hnull]. rewrite Hnone in Hsrc. subst rest.
  unfold table_pending in Hf. unfold table_outcomes in Hout.
  rewrite (all_null_nothing slot_pending _ eq_refl Hnull) in Hf.
  rewrite (all_null_nothing slot_outcome _ eq_refl Hnull) in Hout.
  apply Permutation_nil_r in Hf. subst flight.
  rewrite !app_nil_r in *. subst pulled.
  pose proof (interleaving_ops _ _ _ _ _ _ Hil) as Hops.
  simpl in Hops. rewrite app_nil_r in Hops.
  repeat split; try assumption; [now symmetry|].
  apply list_eq. intros j. destruct (tasks st !! j) as [s|] eqn:Hj.
  - rewrite (some_not_null_false_lookup _ _ _ Hnull Hj).
    symmetry. apply lookup_replicate_2. now apply lookup_lt_Some in Hj.
  - symmetry. apply lookup_replicate_None. now apply lookup_ge_None in Hj.
Qed.

(** A forsaken promise stands for an operation that rejected, and the
    generator that holds one has not returned. *)
Lemma run_inv_forsaken (st : schedT) (rest : list Op) (j i : nat) (o : Op) (e : E) :
  run_inv start settle pull w0 max ops st rest ->
  tasks st !! j = Some (Task (Forsaken i o e)) ->
  (o, inl e) ∈ settled st /\ sphase st <> Returned.
Proof.
  intros Hok Hj. pose proof Hok as [_ _ _ Hout _ _ Hph]. split.
  - rewrite Hout. apply elem_of_app. right. unfold table_outcomes.
    apply list_elem_of_In, in_concat. exists [(o, inl e)]. split; [|now left].
    apply list_elem_of_In, list_elem_of_fmap.
    exists (Task (Forsaken i o e)). split; [reflexivity|].
    eapply list_elem_of_lookup_2, Hj.
  - intros Hr. rewrite Hr in Hph. destruct Hph as [_ Hnull].
    pose proof (some_not_null_false_lookup _ _ _ Hnull Hj). discriminate.
Qed.

Lemma run_inv_never_threw (st : schedT) (rest : list Op) (msg : string) :
  run_inv start settle pull w0 max ops st rest -> sphase st <> Threw msg.
Proof. intros [_ _ _ _ _ _ Hph] Ht. now rewrite Ht in Hph. Qed.

(** Once nothing can happen, nothing does. *)
Lemma run_stays (choices : list nat) (st : schedT) :
  enabled st = [] -> run_schedule start settle pull (Fin max) choices st = st.
Proof.
  intros Hen. destruct choices as [|c cs]; simpl; [reflexivity|].
  now rewrite Hen, pick_nil.
Qed.

End SchedulerRuns.

(** ** The scheduler: every result exactly once *)

Lemma steps_left_init {W Op P T E Src : Type} (max : Z) (ops : list Op) (src : Src) (w : W) :
  1 <= max ->
  steps_left max (parallelGenerator (P := P) (T := T) (E := E) (Fin max) src w) ops
  = (2 * Z.to_nat max + 2 * length ops + 1)%nat.
Proof.
  intros Hmax. unfold steps_left, parallelGenerator. simpl.
  destruct (Z.ltb_spec max 1) as [?|_]; [lia|]. simpl. lia.
Qed.

Lemma map_fst_fulfilled {Op T E : Type} (l : list (Op * T)) :
  map fst (map (fulfilled (E := E)) l) = map fst l.
Proof. rewrite map_map. reflexivity. Qed.

Lemma elem_of_fulfilled {Op T E : Type} (l : list (Op * T)) (o : Op) (v : T) :
  (o, v) ∈ l -> (o, inr v) ∈ map (fulfilled (E := E)) l.
Proof.
  intros Hin. apply list_elem_of_fmap. exists (o, v). split; [reflexivity | assumption].
Qed.

(** The values of a list of results, when each operation has one
    result. *)
Lemma outputs_by_result {Op T : Type} (result : Op -> T) (l : list (Op * T)) :
  (forall o v, (o, v) ∈ l -> v = result o) -> map snd l = map result (map fst l).
Proof.
  induction l as [|[o v] l IH]; intros H; simpl; [reflexivity|].
  rewrite (H o v) by left. rewrite IH; [reflexivity|].
  intros o' v' Hin. apply H. now right.
Qed.


Lemma source_yields_list {A : Type} (l : list A) : source_yields list_pull l l.
Proof. induction l as [|x l IH]; simpl; [reflexivity | eauto]. Qed.

Lemma in_flight_at_most_max_witness :
  1 <= 3 /\
  let st := run_schedule start_outcome settle_outcome list_pull (Fin 3) (repeat 0%nat 40)
                         (parallelGenerator (Fin 3) ten_fulfil tt) in
  0 <= in_flight st <= 3 /\
  in_flight st = Z.of_nat (sum_list_with waiting (tasks st)) /\
  Z.of_nat (length (tasks st)) <= 3.
Proof.
  split; [lia|].
  apply (in_flight_at_most_max start_outcome settle_outcome list_pull 3 ten_fulfil tt
           (repeat 0%nat 40)).
  lia.
Defined.

(** Promises that are fulfilled from the start fulfil. *)
Lemma map_inr_fulfils (values : list Z) :
  forall o, o ∈ map (inr (A := string)) values ->
            fulfils (E := string) start_outcome settle_outcome o.
Proof.
  intros o Ho w1 w2. apply list_elem_of_fmap in Ho as (v & -> & _).
  now exists v, w2.
Qed.


Lemma pick_singleton (c : nat) (ev : event) : pick c [ev] = Some ev.
Proof. unfold pick. change (length [ev]) with 1%nat. now rewrite Nat.mod_1_r. Qed.

(** With [max = +Infinity] the priming loop has no exit: every step is
    one more iteration of it. *)
Lemma priming_for_ever {W Op P T E Src : Type}
      (start : Op -> W -> P * W) (settle : P -> W -> (E + T) * W)
      (pull : Src -> option (Op * Src)) (choices : list nat) :
  forall (st : sched W Op P T E Src) (i : nat),
    sphase st = Priming i ->
    let st' := run_schedule start settle pull (Inf false) choices st in
    sphase st' = Priming (i + length choices) /\ yielded st' = yielded st /\
    length (tasks st') = (length (tasks st) + length choices)%nat.
Proof.
  induction choices as [|c cs IH]; intros st i Hi; cbv zeta; simpl.
  - rewrite Nat.add_0_r. auto.
  - unfold enabled. rewrite Hi, pick_singleton. unfold step. rewrite Hi.
    unfold prime. cbn [lt negb].
    destruct (source_next start pull (source st) (world st)) as [[task g] w'].
    match goal with
    | |- context [run_schedule _ _ _ _ cs ?s] =>
        destruct (IH s (S i) eq_refl) as (H1 & H2 & H3)
    end.
    rewrite H1, H2, H3. cbn [yielded tasks]. rewrite length_app. simpl.
    split; [f_equal; lia|]. split; [reflexivity | lia].
Qed.

(** ** The scheduler: a rejected operation *)

Section Forsaken.

Context {W Op P T E Src : Type}.
Variable start : Op -> W -> P * W.
Variable settle : P -> W -> (E + T) * W.
Variable pull : Src -> option (Op * Src).

(** Once the operation of slot [j] has rejected, no step changes that
    slot, and the generator does not return. *)
Lemma forsaken_step (max : Z) (ev : event) (st : sched W Op P T E Src)
      (j i : nat) (o : Op) (e : E) :
  well_indexed (tasks st) ->
  tasks st !! j = Some (Task (Forsaken i o e)) ->
  sphase st <> Returned ->
  tasks (step start settle pull (Fin max) ev st) !! j = Some (Task (Forsaken i o e)) /\
  sphase (step start settle pull (Fin max) ev st) <> Returned.
Proof.
  intros Hidx Hj Hnr. unfold step.
  destruct ev as [|k|k]; destruct (sphase st) as [n| | | |msg] eqn:Hph;
    try (split; [assumption | rewrite ?Hph; congruence]).
  - unfold prime. cbn [lt]. destruct (Z.of_nat n <? max).
    + destruct (source_next start pull (source st) (world st)) as [[task g] w']. simpl.
      split; [|discriminate].
      apply lookup_app_l_Some, Hj.
    + simpl. split; [assumption | discriminate].
  - destruct (tasks st !! k) as [[| |[i' r|i' o' p'|i' o' e']]|] eqn:Hk;
      try (split; [assumption | rewrite ?Hph; congruence]).
    unfold settle_slot. destruct (settle p' (world st)) as [r w']. simpl.
    rewrite Hph. split; [|discriminate].
    rewrite list_lookup_insert_ne; [assumption | congruence].
  - destruct (tasks st !! k) as [[| |[i' r|i' o' p'|i' o' e']]|] eqn:Hk;
      try (split; [assumption | rewrite ?Hph; congruence]).
    unfold settle_slot. destruct (settle p' (world st)) as [r w']. simpl.
    rewrite Hph. split; [|discriminate].
    rewrite list_lookup_insert_ne; [assumption | congruence].
  - destruct (tasks st !! k) as [[| |[i' r|i' o' p'|i' o' e']]|] eqn:Hk;
      try (split; [assumption | rewrite ?Hph; congruence]).
    + destruct (Hidx _ _ Hk) as [Hh _]. congruence.
    + pose proof (well_indexed_slot _ _ _ _ Hidx Hk eq_refl) as ->.
      assert (Hne : k <> j) by congruence.
      unfold race_won. destruct r as [|x].
      * rewrite (array_set_in_range _ _ _ _ Hk). simpl.
        split; [now rewrite list_lookup_insert_ne|].
        rewrite (some_not_null_insert _ k j _ _ _ Hk Hj Hne); discriminate.
      * destruct (source_next start pull (source st) (world st)) as [[task g] w'].
        rewrite (array_set_in_range _ _ _ _ Hk). simpl.
        split; [now rewrite list_lookup_insert_ne | discriminate].
  - destruct (tasks st !! k) as [[| |[i' r|i' o' p'|i' o' e']]|] eqn:Hk;
      try (split; [assumption | rewrite ?Hph; congruence]).
    + destruct (Hidx _ _ Hk) as [Hh _]. congruence.
    + pose proof (well_indexed_slot _ _ _ _ Hidx Hk eq_refl) as ->.
      assert (Hne : k <> j) by congruence.
      unfold drain_won. rewrite (array_set_in_range _ _ _ _ Hk). simpl.
      split; [now rewrite list_lookup_insert_ne|].
      rewrite (some_not_null_insert _ k j _ _ _ Hk Hj Hne); discriminate.
Qed.

(** A rejection is final: in every continuation of a run in which the
    operation of slot [j] has rejected, that slot still holds the forsaken
    promise and the generator has neither returned nor thrown. *)
Lemma forsaken_for_ever (max : Z) (choices : list nat) :
  forall (st : sched W Op P T E Src) (j i : nat) (o : Op) (e : E),
    slots_ok max st ->
    tasks st !! j = Some (Task (Forsaken i o e)) ->
    sphase st <> Returned ->
    let st' := run_schedule start settle pull (Fin max) choices st in
    tasks st' !! j = Some (Task (Forsaken i o e)) /\ sphase st' <> Returned.
Proof.
  induction choices as [|c cs IH]; intros st j i o e Hok Hj Hnr; simpl; [auto|].
  destruct (pick c (enabled st)) as [ev|]; [|auto].
  pose proof Hok as [Hidx _ _ _].
  destruct (forsaken_step max ev st j i o e Hidx Hj Hnr) as (Hj' & Hnr').
  apply IH; [now apply slots_ok_step | assumption | assumption].
Qed.

End Forsaken.


Lemma run_stuck (choices : list nat) :
  run_schedule start_outcome settle_outcome list_pull (Fin 1) choices stuck_after_rejection
  = stuck_after_rejection.
Proof. destruct choices; reflexivity. Qed.

(** C1, on the code: [parallelGenerator(1, source)] where the first
    operation of the source rejects and the second would fulfil.  Whatever
    the schedule, the generator yields nothing, never returns and never
    throws, and never pulls the second operation; after three steps it sits
    at the first [await] for ever, the rejection reported nowhere. *)
Theorem rejection_is_swallowed (choices : list nat) :
  let st := run_schedule start_outcome settle_outcome list_pull (Fin 1) choices
                         (parallelGenerator (Fin 1) reject_then_fulfil tt) in
  outputs st = [] /\
  sphase st <> Returned /\
  (forall msg, sphase st <> Threw msg) /\
  (started st <= 1)%nat /\
  (3 <= length choices -> st = stuck_after_rejection)%nat /\
  enabled stuck_after_rejection = [].
Proof.
  destruct choices as [|c1 [|c2 [|c3 cs]]]; simpl;
    rewrite ?pick_singleton; simpl; rewrite ?pick_singleton; simpl;
    rewrite ?pick_singleton; simpl;
    try (repeat split; try discriminate; try reflexivity; try lia;
         intros; simpl in *; try lia; discriminate).
  rewrite run_stuck.
  repeat split; try discriminate; try reflexivity; simpl; lia.
Qed.

(** ** The scheduler: what a run amounts to *)

Lemma table_pending_null {Op P T E : Type} (n : nat) :
  table_pending (replicate n (Null (Op := Op) (P := P) (T := T) (E := E))) = [].
Proof. unfold table_pending. induction n; simpl; auto. Qed.

(** X1.  At every moment of a run of [parallelGenerator], for every
    integer [max >= 1], every finite source and every schedule, whatever
    the operations do: the operations called so far are the first
    [started] of the source, called in source order, each once; each has
    settled at most once, after its call, with at most [max] called and
    not settled at any time; the world is what those calls and
    settlements have made of it, in the order in which they happened.  The
    values yielded are values operations fulfilled with, each yielded at
    most once.  When the generator has returned, every operation of the
    source has been called and has settled, and each value has been
    yielded. *)
Theorem run_is_an_interleaving
        {W Op P T E Src : Type}
        (start : Op -> W -> P * W) (settle : P -> W -> (E + T) * W)
        (pull : Src -> option (Op * Src))
        (max : Z) (src : Src) (ops : list Op) (w : W) (choices : list nat) :
  1 <= max ->
  source_yields pull src ops ->
  let st := run_schedule start settle pull (Fin max) choices
                         (parallelGenerator (Fin max) src w) in
  exists flight : list (Op * P),
    interleaving start settle max w (take (started st) ops) flight (settled st)
                 (world st) /\
    flight ≡ₚ table_pending (tasks st) /\
    map fst (settled st) ⊆+ ops /\
    map fulfilled (yielded st) ⊆+ settled st /\
    (forall o v, (o, v) ∈ yielded st ->
                 exists w1 w2, fst (settle (fst (start o w1)) w2) = inr v) /\
    (sphase st = Returned ->
     started st = length ops /\ flight = [] /\
     map fulfilled (yielded st) ≡ₚ settled st).
Proof.
  intros Hmax Hsrc st.
  destruct (run_inv_run start settle pull w max ops choices _ _
              (run_inv_init start settle pull w max ops src Hmax Hsrc))
    as (rest & Hok & _ & _).
  simpl in Hok. fold st in Hok.
  destruct (run_inv_log start settle pull w max ops _ _ Hok)
    as (Hops & Hy & Hsta & flight & Hil & Hf).
  pose proof (interleaving_outcome start settle _ _ _ _ _ _ Hil) as [_ Hlog].
  exists flight. split; [exact Hil|]. split; [exact Hf|]. split.
  { rewrite <- Hops. apply submseteq_inserts_r. reflexivity. }
  split; [exact Hy|]. split.
  { intros o v Ho. destruct (Hlog o (inr v)) as (w1 & w2 & He); [|eauto].
    eapply elem_of_submseteq; [|exact Hy]. now apply elem_of_fulfilled. }
  intros Hr.
  destruct (run_inv_returned start settle pull w max ops _ _ Hok Hr)
    as (-> & Hp & Hq & _ & Hnull).
  assert (Hnone : table_pending (tasks st) = []).
  { rewrite Hnull. apply table_pending_null. }
  rewrite Hnone in Hf, Hsta, Hops. apply Permutation_nil_r in Hf.
  apply Permutation_length in Hops. rewrite !length_app, length_map in Hops.
  simpl in *. split; [lia|]. split; [assumption | now symmetry].
Qed.

Lemma run_is_an_interleaving_witness :
  1 <= 2 /\
  source_yields list_pull [1; 2; 3] [1; 2; 3] /\
  let st := run_schedule start_logged settle_logged list_pull (Fin 2) (repeat 0%nat 5)
                         (parallelGenerator (Fin 2) [1; 2; 3] []) in
  world st = [Called 1; Called 2; Ended 1; Called 3] /\
  exists flight : list (Z * Z),
    interleaving start_logged settle_logged 2 [] (take (started st) [1; 2; 3]) flight
                 (settled st) (world st).
Proof.
  assert (H1 : 1 <= 2) by lia.
  assert (H2 : source_yields list_pull [1; 2; 3] [1; 2; 3]) by apply source_yields_list.
  split; [exact H1|]. split; [exact H2|]. split; [vm_compute; reflexivity|].
  destruct (run_is_an_interleaving start_logged settle_logged list_pull 2 [1; 2; 3]
              [1; 2; 3] [] (repeat 0%nat 5) H1 H2) as (flight & Hil & _).
  exists flight. exact Hil.
Defined.





Lemma table_outcomes_null {Op P T E : Type} (n : nat) :
  table_outcomes (replicate n (Null (Op := Op) (P := P) (T := T) (E := E))) = [].
Proof. unfold table_outcomes. induction n; simpl; auto. Qed.

(** X4.  With [max = 1] the generator is the sequential loop over the
    source: at every moment the operations that have settled are a prefix
    of the source's, settled in that order, and the values yielded are a
    prefix of the outcomes of that run; when the generator has returned,
    every operation has settled in source order and the values were
    yielded in source order.  The world is the one that running those
    operations one after the other leaves, the next one being called or
    not. *)
Theorem one_slot_runs_in_source_order
        {W Op P T E Src : Type}
        (start : Op -> W -> P * W) (settle : P -> W -> (E + T) * W)
        (pull : Src -> option (Op * Src))
        (src : Src) (ops : list Op) (w : W) (choices : list nat) :
  source_yields pull src ops ->
  let st := run_schedule start settle pull (Fin 1) choices
                         (parallelGenerator (Fin 1) src w) in
  exists done : list Op,
    done `prefix_of` ops /\
    settled st = fst (run_all start settle w done) /\
    (world st = snd (run_all start settle w done) \/
     exists o, (done ++ [o]) `prefix_of` ops /\
               world st = snd (start o (snd (run_all start settle w done)))) /\
    map fulfilled (yielded st) `prefix_of` settled st /\
    (sphase st = Returned ->
     world st = snd (run_all start settle w ops) /\
     map fulfilled (yielded st) = fst (run_all start settle w ops)).
Proof.
  intros Hsrc st.
  assert (Hmax : 1 <= 1) by lia.
  destruct (run_inv_run start settle pull w 1 ops choices _ _
              (run_inv_init start settle pull w 1 ops src Hmax Hsrc))
    as (rest & Hok & _ & Hord).
  simpl in Hok, Hord. fold st in Hok, Hord.
  destruct (Hord eq_refl) as (Hl1 & He).
  { split; simpl; [lia | reflexivity]. }
  pose proof Hok as [_ _ (pulled & flight & Hp & _ & Hf & Hil) _ _ _ _].
  assert (Hret : sphase st = Returned ->
                 world st = snd (run_all start settle w ops) /\
                 map fulfilled (yielded st) = fst (run_all start settle w ops)).
  { intros Hr.
    destruct (run_inv_returned start settle pull w 1 ops _ _ Hok Hr)
      as (_ & _ & _ & Hall & Hnull).
    rewrite Hnull, table_outcomes_null, app_nil_r in He.
    destruct (interleaving_one start settle _ _ _ _ _ Hall)
      as [(_ & Hlog & Hw)|(b & o & _ & _ & Hfl & _)]; [|discriminate].
    split; [assumption | congruence]. }
  destruct (interleaving_one start settle _ _ _ _ _ Hil)
    as [(_ & Hlog & Hw)|(before & o & -> & Hlog & _ & Hw)].
  - exists pulled. split; [now exists rest|]. split; [assumption|].
    split; [now left|]. split; [|assumption].
    rewrite He. now eexists.
  - exists before. split; [exists ([o] ++ rest); now rewrite <- Hp, <- app_assoc|].
    split; [assumption|]. split.
    + right. exists o. split; [now exists rest | assumption].
    + split; [|assumption]. rewrite He. now eexists.
Qed.

Lemma one_slot_runs_in_source_order_witness :
  source_yields list_pull [1; 2; 3] [1; 2; 3] /\
  let st := run_schedule start_logged settle_logged list_pull (Fin 1) (repeat 0%nat 9)
                         (parallelGenerator (Fin 1) [1; 2; 3] []) in
  sphase st = Returned /\
  outputs st = [1; 2; 3] /\
  world st = [Called 1; Ended 1; Called 2; Ended 2; Called 3; Ended 3] /\
  exists done : list Z, done `prefix_of` [1; 2; 3].
Proof.
  assert (H : source_yields list_pull [1; 2; 3] [1; 2; 3])
    by apply source_yields_list.
  split; [exact H|]. split; [vm_compute; reflexivity|].
  split; [vm_compute; reflexivity|]. split; [vm_compute; reflexivity|].
  destruct (one_slot_runs_in_source_order start_logged settle_logged list_pull
              [1; 2; 3] [1; 2; 3] [] (repeat 0%nat 9) H) as (done & Hd & _).
  exists done. exact Hd.
Defined.

(** X5.  With [max < 1] the generator throws [max must be at least 1] at
    its first [next()], before it asks the source for anything: no
    operation is started and nothing is yielded. *)
Theorem max_below_one_throws
        {W Op P T E Src : Type}
        (start : Op -> W -> P * W) (settle : P -> W -> (E + T) * W)
        (pull : Src -> option (Op * Src))
        (max : Z) (src : Src) (w : W) (choices : list nat) :
  max < 1 ->
  run_schedule start settle pull (Fin max) choices (parallelGenerator (Fin max) src w)
  = {| sphase := Threw "max must be at least 1"; tasks := []; source := Some src;
       yielded := []; started := 0; finished := 0; settled := []; world := w |}.
Proof.
  intros Hmax. unfold parallelGenerator. cbn [lt].
  destruct (Z.ltb_spec max 1) as [_|?]; [|lia].
  now apply run_stays.
Qed.

Lemma max_below_one_throws_witness :
  0 < 1 /\
  sphase (run_schedule start_outcome settle_outcome list_pull (Fin 0) (repeat 0%nat 5)
                       (parallelGenerator (Fin 0) two_fulfil tt))
  = Threw "max must be at least 1".
Proof.
  split; [lia|].
  rewrite (max_below_one_throws start_outcome settle_outcome list_pull 0 two_fulfil tt
             (repeat 0%nat 5));
    [reflexivity | lia].
Defined.

(** ** The scheduler: what every run keeps, whatever [max] is *)

Section SchedulerWorld.

Context {W Op P T E Src : Type}.
Variable start : Op -> W -> P * W.
Variable settle : P -> W -> (E + T) * W.
Variable pull : Src -> option (Op * Src).

#[local] Abbreviation slotW := (slot Op P T E).
#[local] Abbreviation schedW := (sched W Op P T E Src).

Lemma array_set_lookup (a : list slotW) (i j : nat) (x s : slotW) :
  array_set a i x !! j = Some s -> s = x \/ s = Hole \/ a !! j = Some s.
Proof.
  unfold array_set. destruct (Nat.ltb_spec i (length a)) as [Hlt|Hge].
  - intros Hj. destruct (decide (i = j)) as [->|Hne].
    + rewrite list_lookup_insert_eq in Hj by assumption. left. congruence.
    + rewrite list_lookup_insert_ne in Hj by assumption. auto.
  - intros Hj. apply lookup_app_Some in Hj as [Hj|[_ Hj]]; [auto|].
    apply lookup_app_Some in Hj as [Hj|[_ Hj]].
    + apply lookup_replicate in Hj as [-> _]. auto.
    + apply list_lookup_singleton_Some in Hj as [_ <-]. auto.
Qed.

Variable ops : list Op.
Variable Q : W -> Prop.
Hypothesis start_keeps : forall o w, o ∈ ops -> Q w -> Q (snd (start o w)).
Hypothesis settle_keeps :
  forall o w1 w, o ∈ ops -> Q w -> Q (snd (settle (fst (start o w1)) w)).

Lemma keeps_pull (st : schedW) :
  keeps start pull ops Q st ->
  match source_next start pull (source st) (world st) with
  | (task, g, w) =>
      (exists rest, rest `suffix_of` ops /\
                    match g with
                    | Some s => source_yields pull s rest
                    | None => True
                    end) /\
      (forall o p, task = Some (o, p) -> o ∈ ops /\ exists w1, p = fst (start o w1)) /\
      Q w
  end.
Proof.
  intros ((rest & Hsuf & Hsrc) & _ & Hq). unfold source_next.
  destruct (source st) as [s|]; [|split; [exists rest; auto | split; [discriminate | auto]]].
  destruct rest as [|o rest]; simpl in Hsrc.
  - rewrite Hsrc. split; [exists []; auto | split; [discriminate | auto]].
  - destruct Hsrc as (s' & -> & Hs').
    assert (Ho : o ∈ ops).
    { destruct Hsuf as [l ->]. apply elem_of_app. right. left. }
    destruct (start o (world st)) as [p w'] eqn:Hst.
    split; [|split].
    + exists rest. split; [|assumption].
      destruct Hsuf as [l ->]. exists (l ++ [o]). now rewrite <- app_assoc.
    + intros o' p' Heq. injection Heq as <- <-. split; [assumption|].
      exists (world st). now rewrite Hst.
    + specialize (start_keeps o (world st) Ho Hq). now rewrite Hst in start_keeps.
Qed.

Lemma keeps_step (max : number) (ev : event) (st : schedW) :
  keeps start pull ops Q st -> keeps start pull ops Q (step start settle pull max ev st).
Proof.
  intros Hk. pose proof Hk as (Hsrc & Hwait & Hq). unfold step.
  destruct ev as [|j|j]; destruct (sphase st) as [i| | | |msg]; try exact Hk.
  - unfold prime. destruct (lt (Fin (Z.of_nat i)) max); [|exact Hk].
    pose proof (keeps_pull st Hk) as Hp.
    destruct (source_next start pull (source st) (world st)) as [[task g] w'].
    destruct Hp as (Hg & Ht & Hw). split; [exact Hg|]. split; [|exact Hw].
    cbn [tasks]. intros k i' o p Hk'.
    apply lookup_app_Some in Hk' as [Hk'|[_ Hk']]; [eauto|].
    apply list_lookup_singleton_Some in Hk' as [_ Hk'].
    destruct task as [[o' p']|]; [|discriminate]. injection Hk' as _ <- <-. now apply Ht.
  - destruct (tasks st !! j) as [[| |[i r|i o p|i o e]]|] eqn:Hj; try exact Hk.
    destruct (Hwait _ _ _ _ Hj) as [Ho [w1 ->]].
    unfold settle_slot.
    pose proof (settle_keeps o w1 (world st) Ho Hq) as Hs.
    destruct (settle (fst (start o w1)) (world st)) as [r w']. cbn [snd] in Hs.
    split; [exact Hsrc|]. split; [|exact Hs].
    cbn [tasks]. intros k i' o' p' Hk'.
    destruct (decide (j = k)) as [->|Hne].
    + rewrite list_lookup_insert_eq in Hk' by (now apply lookup_lt_Some in Hj).
      destruct r; discriminate.
    + rewrite list_lookup_insert_ne in Hk' by assumption. eauto.
  - destruct (tasks st !! j) as [[| |[i r|i o p|i o e]]|] eqn:Hj; try exact Hk.
    destruct (Hwait _ _ _ _ Hj) as [Ho [w1 ->]].
    unfold settle_slot.
    pose proof (settle_keeps o w1 (world st) Ho Hq) as Hs.
    destruct (settle (fst (start o w1)) (world st)) as [r w']. cbn [snd] in Hs.
    split; [exact Hsrc|]. split; [|exact Hs].
    cbn [tasks]. intros k i' o' p' Hk'.
    destruct (decide (j = k)) as [->|Hne].
    + rewrite list_lookup_insert_eq in Hk' by (now apply lookup_lt_Some in Hj).
      destruct r; discriminate.
    + rewrite list_lookup_insert_ne in Hk' by assumption. eauto.
  - destruct (tasks st !! j) as [[| |[i r|i o p|i o e]]|] eqn:Hj; try exact Hk.
    unfold race_won. destruct r as [|x].
    + split; [exact Hsrc|]. split; [|exact Hq].
      cbn [tasks]. intros k i' o p Hk'.
      apply array_set_lookup in Hk' as [Hk'|[Hk'|Hk']]; try discriminate. eauto.
    + pose proof (keeps_pull st Hk) as Hp.
      destruct (source_next start pull (source st) (world st)) as [[task g] w'].
      destruct Hp as (Hg & Ht & Hw). split; [exact Hg|]. split; [|exact Hw].
      cbn [tasks]. intros k i' o p Hk'.
      apply array_set_lookup in Hk' as [Hk'|[Hk'|Hk']]; try discriminate; [|eauto].
      destruct task as [[o' p']|]; [|discriminate]. injection Hk' as _ <- <-.
      now apply Ht.
  - destruct (tasks st !! j) as [[| |[i r|i o p|i o e]]|] eqn:Hj; try exact Hk.
    unfold drain_won. split; [exact Hsrc|]. split; [|exact Hq].
    cbn [tasks]. intros k i' o p Hk'.
    apply array_set_lookup in Hk' as [Hk'|[Hk'|Hk']]; try discriminate. eauto.
Qed.

Lemma keeps_run (max : number) (choices : list nat) :
  forall st : schedW,
    keeps start pull ops Q st ->
    keeps start pull ops Q (run_schedule start settle pull max choices st).
Proof.
  induction choices as [|c cs IH]; intros st Hk; simpl; [exact Hk|].
  destruct (pick c (enabled st)) as [ev|]; [|exact Hk].
  apply IH, keeps_step, Hk.
Qed.

(** What the call and the settling of every operation of the source
    keep, a run keeps. *)
Lemma run_world_invariant (max : number) (src : Src) (choices : list nat) (w0 : W) :
  source_yields pull src ops -> Q w0 ->
  Q (world (run_schedule start settle pull max choices (parallelGenerator max src w0))).
Proof.
  intros Hsrc H0.
  assert (Hk : keeps start pull ops Q (parallelGenerator max src w0 : schedW)).
  { split; [exists ops; split; [reflexivity | exact Hsrc]|].
    split; [|exact H0]. intros j i o p Hj. simpl in Hj. now rewrite lookup_nil in Hj. }
  apply (keeps_run max choices _ Hk).
Qed.

End SchedulerWorld.

(** ** Percent-encoding of a copy source *)

Lemma nat_of_ascii_lt (c : ascii) : (nat_of_ascii c < 256)%nat.
Proof. apply nat_ascii_bounded. Qed.

Lemma hex_value_hex_digit (k : nat) :
  (k < 16)%nat -> hex_value (hex_digit k) = Some k.
Proof.
  intros Hk. do 16 (destruct k as [|k]; [reflexivity|]). lia.
Qed.

Lemma percent_decode_percent_byte (n : nat) (rest : string) :
  (n < 256)%nat -> percent_decode (percent_byte n rest) = n :: percent_decode rest.
Proof.
  intros Hn. unfold percent_byte. cbn [percent_decode].
  change (Ascii.eqb "%" "%") with true.
  rewrite !hex_value_hex_digit.
  - f_equal. symmetry. apply Nat.div_mod_eq.
  - apply Nat.mod_upper_bound. lia.
  - apply Nat.Div0.div_lt_upper_bound. lia.
Qed.

Lemma percent_decode_other (c : ascii) (rest : string) :
  c <> "%"%char ->
  percent_decode (String c rest) = nat_of_ascii c :: percent_decode rest.
Proof.
  intros Hc. destruct c as [[] [] [] [] [] [] [] []]; try reflexivity. congruence.
Qed.

Lemma uri_unreserved_ascii (c : ascii) :
  uri_unreserved c = true -> (nat_of_ascii c < 128)%nat /\ c <> "%"%char.
Proof.
  intros H. split.
  - destruct c as [[] [] [] [] [] [] [] []]; vm_compute in H |- *;
      try discriminate H; lia.
  - intros ->. discriminate H.
Qed.

Lemma percent_decode_encode_unit (c : ascii) (rest : string) :
  percent_decode (encode_unit c rest)
  = utf8_encode (String c "") ++ percent_decode rest.
Proof.
  unfold encode_unit. cbn [utf8_encode]. pose proof (nat_of_ascii_lt c) as Hc.
  destruct (uri_unreserved c) eqn:Hu.
  - destruct (uri_unreserved_ascii c Hu) as [Hlt Hne].
    rewrite percent_decode_other by assumption.
    now rewrite (proj2 (Nat.ltb_lt _ _) Hlt).
  - destruct (Nat.ltb_spec (nat_of_ascii c) 128) as [Hlt|Hge].
    + now rewrite percent_decode_percent_byte.
    + assert (nat_of_ascii c / 64 < 4)%nat
        by (apply Nat.Div0.div_lt_upper_bound; lia).
      assert (nat_of_ascii c mod 64 < 64)%nat
        by (apply Nat.mod_upper_bound; lia).
      rewrite !percent_decode_percent_byte by lia. reflexivity.
Qed.

Lemma utf8_encode_cons (c : ascii) (s : string) :
  utf8_encode (String c s) = utf8_encode (String c "") ++ utf8_encode s.
Proof. cbn [utf8_encode]. now destruct (nat_of_ascii c <? 128)%nat. Qed.

Lemma utf8_decode_encode (s : string) : utf8_decode (utf8_encode s) = s.
Proof.
  induction s as [|c s IH]; [reflexivity|].
  cbn [utf8_encode]. pose proof (nat_of_ascii_lt c) as Hc.
  destruct (Nat.ltb_spec (nat_of_ascii c) 128) as [Hlt|Hge].
  - cbn [utf8_decode]. rewrite (proj2 (Nat.ltb_lt _ _) Hlt), IH.
    now rewrite ascii_nat_embedding.
  - cbn [utf8_decode].
    assert (Hb : (192 + nat_of_ascii c / 64 <? 128)%nat = false)
      by (apply Nat.ltb_ge; lia).
    rewrite Hb, IH. f_equal.
    replace ((192 + nat_of_ascii c / 64 - 192) * 64 + (128 + nat_of_ascii c mod 64 - 128))%nat
      with (nat_of_ascii c).
    + apply ascii_nat_embedding.
    + pose proof (Nat.div_mod_eq (nat_of_ascii c) 64). lia.
Qed.

Lemma split_on_nonempty (sep : ascii) (s : string) :
  exists part parts, split_on sep s = part :: parts.
Proof.
  induction s as [|c s (part & parts & IH)]; simpl; [eauto|].
  destruct (Ascii.eqb c sep); [eauto|]. rewrite IH. eauto.
Qed.

Lemma encode_unit_prefix (c : ascii) (rest : string) :
  encode_unit c rest = encode_unit c "" +:+ rest.
Proof.
  unfold encode_unit, percent_byte.
  destruct (uri_unreserved c); [reflexivity|].
  destruct (nat_of_ascii c <? 128)%nat; reflexivity.
Qed.

Lemma join_with_cons (sep part : string) (parts : list string) (u : string) :
  join_with sep ((u +:+ part) :: parts) = u +:+ join_with sep (part :: parts).
Proof.
  destruct parts as [|p parts]; [reflexivity|].
  cbn [join_with]. now rewrite append_assoc.
Qed.

(** The path of a copy source, decoded, is the key it was made from. *)
Lemma percent_decode_key (key : string) :
  percent_decode (join_with "/" (map encodeURIComponent (split_on "/" key)))
  = utf8_encode key.
Proof.
  induction key as [|c key IH]; [reflexivity|].
  cbn [split_on].
  destruct (split_on_nonempty "/" key) as (part & parts & Hs).
  rewrite Hs in *. cbn [map] in *.
  destruct (Ascii.eqb_spec c "/"%char) as [->|Hne].
  - cbn [map encodeURIComponent]. 
    change (join_with "/" ("" :: encodeURIComponent part :: map encodeURIComponent parts))
      with (String "/" (join_with "/" (encodeURIComponent part :: map encodeURIComponent parts))).
    rewrite percent_decode_other by discriminate. rewrite IH. reflexivity.
  - cbn [map encodeURIComponent].
    rewrite encode_unit_prefix, join_with_cons, <- encode_unit_prefix.
    rewrite percent_decode_encode_unit, IH.
    symmetry. apply utf8_encode_cons.
Qed.

Lemma strip_prefix_app (p s : string) : strip_prefix p (p +:+ s) = Some s.
Proof.
  induction p as [|c p IH]; simpl; [now destruct s|].
  now rewrite Ascii.eqb_refl.
Qed.

Lemma copy_source_key_roundtrip (s : Store) (bucket key : string) :
  bucket = bucket_name s ->
  copy_source_key s
    (bucket +:+ "/" +:+ join_with "/" (map encodeURIComponent (split_on "/" key)))
  = Some key.
Proof.
  intros ->. unfold copy_source_key.
  rewrite <- append_assoc, strip_prefix_app, percent_decode_key, utf8_decode_encode.
  reflexivity.
Qed.

(** ** [keyTaggedAsOld] *)

Lemma find_put_same (key : string) (o : StoredObject) (objs : list (string * StoredObject)) :
  find_object key (put_object key o objs) = Some o.
Proof.
  induction objs as [|[k o'] objs IH]; simpl.
  - now rewrite String.eqb_refl.
  - destruct (String.eqb_spec k key) as [->|Hne]; simpl.
    + now rewrite String.eqb_refl.
    + destruct (String.ltb key k); simpl.
      * now rewrite String.eqb_refl.
      * now rewrite (proj2 (String.eqb_neq k key) Hne).
Qed.

Lemma find_put_other (key k : string) (o : StoredObject)
      (objs : list (string * StoredObject)) :
  k <> key -> find_object k (put_object key o objs) = find_object k objs.
Proof.
  intros Hk. induction objs as [|[k' o'] objs IH]; simpl.
  - now rewrite (proj2 (String.eqb_neq key k)) by congruence.
  - destruct (String.eqb_spec k' key) as [->|Hne]; simpl.
    + rewrite (proj2 (String.eqb_neq key k)) by congruence. reflexivity.
    + destruct (String.ltb key k'); simpl.
      * rewrite (proj2 (String.eqb_neq key k)) by congruence. reflexivity.
      * now rewrite IH.
Qed.

(** What [keyTaggedAsOld] sends, against any remote side: a head command
    for the object, and, when that is answered, one copy command built
    from the answer. *)
Lemma keyTaggedAsOld_commands {R : Type} `{Remote R} (bucket key : string)
      (w : session R) :
  let head := {| head_Bucket := bucket; head_Key := key |} in
  match head_object head (remote w) with
  | (inl e, rem) =>
      keyTaggedAsOld bucket key w
      = (Throws e, {| remote := rem; sent := sent w ++ [HeadObjectCommand head];
                      info_log := info_log w |})
  | (inr data, rem) =>
      let copy := mark_command bucket key data (to_iso_string_now rem) in
      match copy_object copy rem with
      | (r, rem') =>
          keyTaggedAsOld bucket key w
          = (match r with inl e => Throws e | inr u => Ok u end,
             {| remote := rem';
                sent := (sent w ++ [HeadObjectCommand head]) ++ [CopyObjectCommand copy];
                info_log := info_log w |})
      end
  end.
Proof.
  intros head. unfold keyTaggedAsOld, keyTaggedAsOld_call, keyTaggedAsOld_resume, request.
  fold head. destruct (head_object head (remote w)) as [[e|data] rem]; [reflexivity|].
  unfold bind, await, date_now, send_copy, send, request. cbn [remote sent info_log].
  destruct (copy_object _ rem) as [[e|[]] rem']; reflexivity.
Qed.

(** The effect of [keyTaggedAsOld] on an object of the store. *)
Lemma keyTaggedAsOld_store (w : session Store) (key : string) (o : StoredObject) :
  find_object key (objects (remote w)) = Some o ->
  let s := remote w in
  exists w',
    keyTaggedAsOld (bucket_name s) key w = (Ok tt, w') /\
    find_object key (objects (remote w'))
    = Some (marked o (store_now (tick s)) (clock s + 1)) /\
    (forall k, k <> key ->
               find_object k (objects (remote w')) = find_object k (objects s)) /\
    bucket_name (remote w') = bucket_name s /\
    clock (remote w') = clock s + 2.
Proof.
  intros Hfind s. subst s.
  pose proof (keyTaggedAsOld_commands (bucket_name (remote w)) key w) as Hc.
  cbv zeta in Hc. cbn [head_object store_remote] in Hc.
  unfold store_head in Hc at 1. cbn [head_Bucket head_Key] in Hc.
  rewrite String.eqb_refl, Hfind in Hc.
  cbn [copy_object to_iso_string_now store_remote] in Hc.
  unfold store_copy in Hc.
  cbn [copy_Bucket CopySource mark_command bucket_name tick objects] in Hc.
  rewrite String.eqb_refl in Hc.
  rewrite (copy_source_key_roundtrip (tick (remote w)) (bucket_name (remote w)) key eq_refl)
    in Hc.
  rewrite Hfind in Hc.
  eexists. split; [exact Hc|]. cbn [remote objects tick bucket_name clock].
  split; [|split; [|split]].
  - rewrite find_put_same. reflexivity.
  - intros k Hk. now apply find_put_other.
  - reflexivity.
  - lia.
Qed.

(** C5, as amended: [keyTaggedAsOld] first sends a head command for the
    object and then one copy command onto the same key, with the content
    type of the answer, its cache control or the default, the custom
    metadata of the answer with [old-at] set to the current time, and the
    tag [old=true], metadata and tags being replaced.  On the store, the
    object keeps its content and content type, gets the cache control or
    the default, its metadata with [old-at] set, the one tag [old=true],
    and a new last-modified time; no other object changes.  Marking again
    changes [old-at] and the last-modified time only. *)
Theorem keyTaggedAsOld_marks_in_place
        (w : session Store) (key : string) (o : StoredObject) :
  find_object key (objects (remote w)) = Some o ->
  let s := remote w in
  let head := {| head_Bucket := bucket_name s; head_Key := key |} in
  let data := {| ContentType := content_type o; CacheControl := cache_control o;
                 Metadata := Some (user_metadata o) |} in
  let copy := mark_command (bucket_name s) key data (store_now (tick s)) in
  let o' := marked o (store_now (tick s)) (clock s + 1) in
  exists w',
    keyTaggedAsOld (bucket_name s) key w = (Ok tt, w') /\
    sent w' = sent w ++ [HeadObjectCommand head; CopyObjectCommand copy] /\
    copy_source_key s (CopySource copy) = Some (copy_Key copy) /\
    find_object key (objects (remote w')) = Some o' /\
    body o' = body o /\
    content_type o' = content_type o /\
    cache_control o' = Some (nullish (cache_control o) default_cache_control) /\
    user_metadata o' !! "old-at" = Some (store_now (tick s)) /\
    (forall k, k <> "old-at" -> user_metadata o' !! k = user_metadata o !! k) /\
    tag_set o' = [("old", "true")] /\
    last_modified o' = clock s + 1 /\
    (forall k, k <> key ->
               find_object k (objects (remote w')) = find_object k (objects s)) /\
    (forall now time, marked o' now time = marked o now time).
Proof.
  intros Hfind s head data copy o'.
  destruct (keyTaggedAsOld_store w key o Hfind) as (w' & Hrun & Hobj & Hother & _).
  exists w'. split; [exact Hrun|].
  split.
  { pose proof (keyTaggedAsOld_commands (bucket_name (remote w)) key w) as Hc.
    cbv zeta in Hc. cbn [head_object store_remote] in Hc.
    unfold store_head in Hc at 1. cbn [head_Bucket head_Key] in Hc.
    rewrite String.eqb_refl, Hfind in Hc.
    destruct (copy_object _ (tick (remote w))) as [r rem'].
    rewrite Hrun in Hc. injection Hc as _ ->. cbn [sent].
    now rewrite <- app_assoc. }
  split; [now apply copy_source_key_roundtrip|].
  split; [exact Hobj|].
  repeat (split; [reflexivity|]).
  split; [apply lookup_insert_eq|].
  split; [intros k Hk; now apply lookup_insert_ne|].
  repeat (split; [reflexivity|]).
  split; [exact Hother|].
  intros now time. unfold marked, o'. cbn [body content_type cache_control user_metadata].
  f_equal. apply insert_insert_eq.
Qed.

Lemma keyTaggedAsOld_marks_in_place_witness :
  exists o : StoredObject,
    find_object sample_key (objects test_store) = Some o /\
    exists w',
      keyTaggedAsOld test_bucket sample_key (start_session test_store) = (Ok tt, w') /\
      find_object sample_key (objects (remote w'))
      = Some (marked o (store_now (tick test_store)) 1001).
Proof.
  assert (H : find_object sample_key (objects (remote (start_session test_store)))
              = Some (snd (test_object "run-12-3" "file-one.txt" "one")))
    by (vm_compute; reflexivity).
  eexists. split; [exact H|].
  destruct (keyTaggedAsOld_marks_in_place _ _ _ H) as (w' & Hrun & _ & _ & Hobj & _).
  exists w'. split; [exact Hrun | exact Hobj].
Defined.

(** C5 as stated fails on the last-modified time, which the copy is there
    to refresh: marking [sample_key] in the test store leaves its content
    as it is and moves its last-modified time from 0 to 1001, and marking
    it again moves that time again, besides [old-at]. *)
Lemma keyTaggedAsOld_refreshes_last_modified :
  attributes_at (start_session test_store) sample_key = Some ("one", [], 0) /\
  fst (keyTaggedAsOld test_bucket sample_key (start_session test_store)) = Ok tt /\
  attributes_at marked_once sample_key = Some ("one", [("old", "true")], 1001) /\
  fst (keyTaggedAsOld test_bucket sample_key marked_once) = Ok tt /\
  attributes_at marked_twice sample_key = Some ("one", [("old", "true")], 1003) /\
  option_map snd (attributes_at marked_once sample_key)
  <> option_map snd (attributes_at (start_session test_store) sample_key) /\
  option_map snd (attributes_at marked_twice sample_key)
  <> option_map snd (attributes_at marked_once sample_key).
Proof.
  repeat (split; [vm_compute; reflexivity|]).
  split; vm_compute; discriminate.
Qed.
(** ** The source of a page *)

Lemma source_yields_same_pull {Op Src : Type} (pull : Src -> option (Op * Src))
      (s s' : Src) (ops : list Op) :
  pull s = pull s' -> source_yields pull s ops -> source_yields pull s' ops.
Proof. intros Heq. destruct ops; simpl; now rewrite Heq. Qed.

Lemma tagger_pull_cons (o : S3Object) (contents : list S3Object) :
  tagger_pull (o :: contents)
  = match entry_key o with
    | Some key => Some (key, contents)
    | None => tagger_pull contents
    end.
Proof. unfold entry_key. now destruct o as [[[|c k]|]]. Qed.

Lemma tagger_pull_yields (contents : list S3Object) :
  source_yields tagger_pull contents (omap entry_key contents).
Proof.
  induction contents as [|o contents IH]; [reflexivity|].
  cbn [omap list_omap].
  pose proof (tagger_pull_cons o contents) as Hp.
  destruct (entry_key o) as [key|].
  - cbn [source_yields]. eauto.
  - eapply source_yields_same_pull; [|exact IH]. now rewrite Hp.
Qed.

Lemma tagger_yields (page : ListObjectsOutput) :
  source_yields tagger_pull (tagger page) (page_keys page).
Proof.
  unfold tagger, page_keys, nullish.
  destruct (Contents page); apply tagger_pull_yields.
Qed.


(** ** The pipeline: what it sends and logs *)

Section Emits.

Context {R : Type} `{Remote R}.

Lemma emits_ret {A : Type} (P : command -> Prop) (Q : string -> Prop) (a : A) :
  emits P Q (ret (R := R) a).
Proof.
  intros w r w' Hrun. injection Hrun as <- <-.
  exists [], []. rewrite !app_nil_r. auto.
Qed.

Lemma emits_throw {A : Type} (P : command -> Prop) (Q : string -> Prop) (e : Error) :
  emits P Q (throw (R := R) (A := A) e).
Proof.
  intros w r w' Hrun. injection Hrun as <- <-.
  exists [], []. rewrite !app_nil_r. auto.
Qed.

Lemma emits_out_of_fuel {A : Type} (P : command -> Prop) (Q : string -> Prop) :
  emits P Q (fun w : session R => (OutOfFuel (A := A), w)).
Proof.
  intros w r w' Hrun. injection Hrun as <- <-.
  exists [], []. rewrite !app_nil_r. auto.
Qed.

Lemma emits_bind {A B : Type} (P : command -> Prop) (Q : string -> Prop)
      (m : M R A) (k : A -> M R B) :
  emits P Q m -> (forall a, emits P Q (k a)) -> emits P Q (bind m k).
Proof.
  intros Hm Hk w r w' Hrun. unfold bind in Hrun.
  destruct (m w) as [r1 w1] eqn:Hmw.
  destruct (Hm _ _ _ Hmw) as (c1 & l1 & Hs1 & Hi1 & Hc1 & Hl1).
  destruct r1 as [a|e| |].
  - destruct (Hk a _ _ _ Hrun) as (c2 & l2 & Hs2 & Hi2 & Hc2 & Hl2).
    exists (c1 ++ c2), (l1 ++ l2).
    rewrite Hs2, Hs1, Hi2, Hi1, <- !app_assoc.
    repeat split; try reflexivity; apply Forall_app; auto.
  - injection Hrun as <- <-. eauto 8.
  - injection Hrun as <- <-. eauto 8.
  - injection Hrun as <- <-. eauto 8.
Qed.

Lemma emits_weaken {A : Type} (P P' : command -> Prop) (Q Q' : string -> Prop)
      (m : M R A) :
  (forall c, P c -> P' c) -> (forall l, Q l -> Q' l) -> emits P Q m -> emits P' Q' m.
Proof.
  intros HP HQ Hm w r w' Hrun.
  destruct (Hm _ _ _ Hrun) as (cmds & lines & Hs & Hi & Hc & Hl).
  exists cmds, lines. repeat split; try assumption.
  - eapply Forall_impl; [exact Hc | auto].
  - eapply Forall_impl; [exact Hl | auto].
Qed.

Lemma request_session {A : Type} (cmd : command) (answer : R -> (Error + A) * R)
      (w : session R) :
  sent (snd (request cmd answer w)) = sent w ++ [cmd] /\
  info_log (snd (request cmd answer w)) = info_log w /\
  request cmd answer w
  = (fst (answer (remote w)),
     {| remote := snd (answer (remote w)); sent := sent w ++ [cmd];
        info_log := info_log w |}).
Proof. unfold request. now destruct (answer (remote w)). Qed.

Lemma emits_send {A : Type} (P : command -> Prop) (Q : string -> Prop)
      (cmd : command) (answer : R -> (Error + A) * R) :
  P cmd -> emits P Q (send cmd answer).
Proof.
  intros Hcmd w r w' Hrun. unfold send, request, await in Hrun.
  destruct (answer (remote w)) as [r0 rem]. injection Hrun as <- <-.
  exists [cmd], []. cbn [sent info_log]. rewrite app_nil_r. auto.
Qed.

Lemma emits_await {A : Type} (P : command -> Prop) (Q : string -> Prop) (r : Error + A) :
  emits P Q (await (R := R) r).
Proof.
  intros w r' w' Hrun. injection Hrun as <- <-.
  exists [], []. rewrite !app_nil_r. auto.
Qed.

Lemma emits_info (P : command -> Prop) (Q : string -> Prop) (line : string) :
  Q line -> emits P Q (info (R := R) line).
Proof.
  intros Hline w r w' Hrun. injection Hrun as <- <-.
  exists [], [line]. cbn [sent info_log]. rewrite app_nil_r. auto.
Qed.

Lemma emits_for_each {A : Type} (P : command -> Prop) (Q : string -> Prop)
      (body : A -> M R unit) (l : list A) :
  (forall x, x ∈ l -> emits P Q (body x)) -> emits P Q (for_each body l).
Proof.
  induction l as [|x l IH]; intros Hbody; simpl; [apply emits_ret|].
  apply emits_bind.
  - apply Hbody. left.
  - intros _. apply IH. intros y Hy. apply Hbody. now right.
Qed.

(** The commands of the mark-operation for [key]. *)
Lemma keyTaggedAsOld_resume_emits (P : command -> Prop) (bucket key : string)
      (answer : Error + HeadObjectOutput) :
  (forall data now, P (CopyObjectCommand (mark_command bucket key data now))) ->
  emits P (fun _ => False) (keyTaggedAsOld_resume bucket key answer).
Proof.
  intros Hcopy. unfold keyTaggedAsOld_resume. apply emits_bind; [apply emits_await|].
  intros data. apply emits_bind.
  - intros w r w' Hrun. injection Hrun as <- <-.
    exists [], []. rewrite !app_nil_r. auto.
  - intros now. apply emits_send, Hcopy.
Qed.

Lemma keyTaggedAsOld_emits_for (P : command -> Prop) (bucket key : string) :
  P (HeadObjectCommand {| head_Bucket := bucket; head_Key := key |}) ->
  (forall data now, P (CopyObjectCommand (mark_command bucket key data now))) ->
  emits P (fun _ => False) (keyTaggedAsOld bucket key).
Proof.
  intros Hhead Hcopy w r w' Hrun. unfold keyTaggedAsOld, keyTaggedAsOld_call in Hrun.
  destruct (request_session (HeadObjectCommand {| head_Bucket := bucket; head_Key := key |})
              (head_object {| head_Bucket := bucket; head_Key := key |}) w)
    as (Hs1 & Hi1 & _).
  destruct (request _ _ w) as [answer w1]. cbn [snd] in Hs1, Hi1.
  destruct (keyTaggedAsOld_resume_emits P bucket key answer Hcopy _ _ _ Hrun)
    as (c2 & l2 & Hs2 & Hi2 & Hc2 & Hl2).
  exists ([HeadObjectCommand {| head_Bucket := bucket; head_Key := key |}] ++ c2), l2.
  rewrite Hs2, Hs1, Hi2, Hi1, <- !app_assoc.
  repeat split; try reflexivity; [|assumption]. apply Forall_app. auto.
Qed.

Lemma keyTaggedAsOld_emits (bucket key : string) :
  emits object_command (fun _ => False) (keyTaggedAsOld bucket key).
Proof. apply keyTaggedAsOld_emits_for; simpl; auto. Qed.

Lemma start_key_session (bucket key : string) (w : session R) :
  start_key bucket key w
  = ((key, fst (head_object {| head_Bucket := bucket; head_Key := key |} (remote w))),
     {| remote := snd (head_object {| head_Bucket := bucket; head_Key := key |} (remote w));
        sent := sent w ++ [HeadObjectCommand {| head_Bucket := bucket; head_Key := key |}];
        info_log := info_log w |}).
Proof.
  unfold start_key, keyTaggedAsOld_call, request. now destruct (head_object _ (remote w)).
Qed.

Lemma settle_key_world (bucket key : string) (answer : Error + HeadObjectOutput)
      (w : session R) :
  snd (settle_key bucket (key, answer) w) = snd (keyTaggedAsOld_resume bucket key answer w).
Proof.
  unfold settle_key. cbn [fst snd].
  now destruct (keyTaggedAsOld_resume bucket key answer w) as [[u|e| |] w'].
Qed.

(** The mark-operation called and resumed with nothing in between is the
    function awaited on its own. *)
Lemma run_op_key (bucket key : string) (w : session R) :
  run_op (start_key bucket) (settle_key bucket) key w
  = match keyTaggedAsOld bucket key w with
    | (Ok u, w') => (inr u, w')
    | (Throws e, w') => (inl e, w')
    | (_, w') => (inl (mkError "Error" "unreachable"), w')
    end.
Proof.
  unfold run_op, start_key, keyTaggedAsOld, settle_key.
  destruct (keyTaggedAsOld_call bucket key w) as [answer w1]. reflexivity.
Qed.

Variable oracle : session R -> nat -> nat.

Lemma drain_world (bucket : string) (parallel : number) (page : ListObjectsOutput)
      (w : session R) :
  snd (drain oracle bucket parallel page w)
  = world (run_schedule (start_key bucket) (settle_key bucket) tagger_pull parallel
             (map (oracle w)
                  (seq 0 (2 * degree parallel + 2 * length (tagger page) + 1)))
             (parallelGenerator parallel (tagger page) w)).
Proof.
  unfold drain. cbv zeta.
  destruct (sphase _); try reflexivity; now destruct (enabled _).
Qed.

(** Draining a page sends commands of the mark-operations for its keys
    only, and logs nothing, whatever [parallel] is. *)
Lemma drain_emits_for (P : command -> Prop) (bucket : string) (parallel : number)
      (page : ListObjectsOutput) :
  (forall key, key ∈ page_keys page ->
               P (HeadObjectCommand {| head_Bucket := bucket; head_Key := key |}) /\
               forall data now, P (CopyObjectCommand (mark_command bucket key data now))) ->
  emits P (fun _ => False) (drain oracle bucket parallel page).
Proof.
  intros Hkeys w r w' Hrun.
  assert (Hw : w' = snd (drain oracle bucket parallel page w)) by now rewrite Hrun.
  rewrite drain_world in Hw. subst w'.
  apply (run_world_invariant (start_key bucket) (settle_key bucket) tagger_pull
           (page_keys page)
           (fun w' => exists cmds lines,
                sent w' = sent w ++ cmds /\ info_log w' = info_log w ++ lines /\
                Forall P cmds /\ Forall (fun _ => False) lines)).
  - intros key w1 Hin (c1 & l1 & Hs1 & Hi1 & Hc1 & Hl1).
    rewrite start_key_session. cbn [snd sent info_log].
    exists (c1 ++ [HeadObjectCommand {| head_Bucket := bucket; head_Key := key |}]), l1.
    rewrite Hs1, Hi1, <- !app_assoc. repeat split; try reflexivity; [|assumption].
    apply Forall_app. split; [assumption|]. constructor; [|constructor].
    now apply Hkeys.
  - intros key w0 w1 Hin (c1 & l1 & Hs1 & Hi1 & Hc1 & Hl1).
    rewrite start_key_session. cbn [fst]. rewrite settle_key_world.
    destruct (keyTaggedAsOld_resume bucket key _ w1) as [r1 w2] eqn:Hk.
    destruct (keyTaggedAsOld_resume_emits P bucket key _ (proj2 (Hkeys key Hin)) _ _ _ Hk)
      as (c2 & l2 & Hs2 & Hi2 & Hc2 & Hl2).
    exists (c1 ++ c2), (l1 ++ l2). cbn [snd].
    rewrite Hs2, Hs1, Hi2, Hi1, <- !app_assoc.
    repeat split; try reflexivity; apply Forall_app; auto.
  - apply tagger_yields.
  - exists [], []. rewrite !app_nil_r. auto.
Qed.

Lemma drain_emits (bucket : string) (parallel : number) (page : ListObjectsOutput) :
  emits object_command (fun _ => False) (drain oracle bucket parallel page).
Proof. apply drain_emits_for. simpl. auto. Qed.

Lemma object_command_within (prefix : string) (cmd : command) :
  object_command cmd -> within prefix cmd.
Proof. now destruct cmd. Qed.

Lemma prefixTaggedAsOld_from_emits (pages : nat) (bucket prefix : string)
      (parallel : number) :
  forall marker,
    emits (within prefix) (fun _ => False)
          (prefixTaggedAsOld_from oracle pages bucket prefix parallel marker).
Proof.
  induction pages as [|pages IH]; intros marker; simpl.
  - apply emits_out_of_fuel.
  - apply emits_bind; [now apply emits_send|].
    intros data. apply emits_bind.
    + eapply emits_weaken; [apply object_command_within | | apply drain_emits]. auto.
    + intros _. destruct (nullish (IsTruncated data) false); [apply IH | apply emits_ret].
Qed.

Lemma isKeyTaggedAsOld_emits (bucket key prefix : string) :
  emits (sampling_command prefix) (fun _ => False) (isKeyTaggedAsOld bucket key).
Proof.
  unfold isKeyTaggedAsOld. apply emits_bind; [now apply emits_send|].
  intros tags. apply emits_ret.
Qed.

(** Sampling a prefix sends a listing of one key under it and at most a
    request for the tags of that key: no mark-operation. *)
Lemma isPrefixTaggedAsOld_emits (bucket prefix : string) :
  emits (sampling_command prefix) (fun _ => False) (isPrefixTaggedAsOld bucket prefix).
Proof.
  unfold isPrefixTaggedAsOld. apply emits_bind; [now apply emits_send|].
  intros page.
  destruct (match Contents page with Some (o :: _) => Key o | _ => None end);
    [apply isKeyTaggedAsOld_emits | apply emits_ret].
Qed.

Lemma sampling_command_within (prefix : string) (cmd : command) :
  sampling_command prefix cmd -> within prefix cmd.
Proof. destruct cmd; simpl; tauto. Qed.

Lemma tag_version_emits (pages : nat) (bucket folder : string) (parallel : number)
      (v : Version) :
  emits (within (version_prefix folder v))
        (fun line => line = "Tagging " +:+ version_prefix folder v +:+ " as old")
        (tag_version oracle pages bucket folder parallel v).
Proof.
  unfold tag_version. apply emits_bind.
  - eapply emits_weaken; [apply sampling_command_within | | apply isPrefixTaggedAsOld_emits].
    intros l [].
  - intros tagged. destruct (negb tagged); [|apply emits_ret].
    apply emits_bind; [now apply emits_info|].
    intros _. eapply emits_weaken; [| |apply prefixTaggedAsOld_from_emits]; auto.
    intros l [].
Qed.

End Emits.

(** ** Draining a page *)

Lemma interleaving_nothing {W Op P T E : Type}
      (start : Op -> W -> P * W) (settle : P -> W -> (E + T) * W)
      (max : Z) (w0 w : W) (pulled : list Op) (flight : list (Op * P))
      (log : list (Op * (E + T))) :
  interleaving start settle max w0 pulled flight log w ->
  pulled = [] -> flight = [] /\ log = [] /\ w = w0.
Proof.
  induction 1 as [|pulled flight log w o _ IH Hlt|pulled before after log w o p _ IH].
  - auto.
  - intros Hp. destruct pulled; discriminate.
  - intros Hp. destruct (IH Hp) as (Hf & _). destruct before; discriminate.
Qed.

Lemma page_keys_length (page : ListObjectsOutput) :
  (length (page_keys page) <= length (tagger page))%nat.
Proof.
  unfold page_keys, tagger, nullish. destruct (Contents page) as [l|]; [|simpl; lia].
  induction l as [|o l IH]; [simpl; lia|].
  cbn [omap list_omap]. destruct (entry_key o); simpl in *; lia.
Qed.

Section DrainFacts.

Context {R : Type} `{Remote R}.

(** A mark-operation awaited on its own ends: it returns, or throws the
    error of one of its two requests. *)
Lemma keyTaggedAsOld_result (bucket key : string) (w : session R) :
  fst (keyTaggedAsOld bucket key w) = Ok tt \/
  exists e, fst (keyTaggedAsOld bucket key w) = Throws e.
Proof.
  pose proof (keyTaggedAsOld_commands bucket key w) as Hc. cbv zeta in Hc.
  destruct (head_object _ (remote w)) as [[e|data] rem].
  - rewrite Hc. right. now exists e.
  - destruct (copy_object _ rem) as [[e|[]] rem']; rewrite Hc.
    + right. now exists e.
    + now left.
Qed.

(** How a pending mark-operation settles, in terms of the answers of
    the remote side. *)
Lemma settle_key_cases (bucket key : string) (answer : Error + HeadObjectOutput)
      (w : session R) :
  match answer with
  | inl e => settle_key bucket (key, answer) w = (inl e, w)
  | inr data =>
      let copy := mark_command bucket key data (to_iso_string_now (remote w)) in
      settle_key bucket (key, answer) w
      = (fst (copy_object copy (remote w)),
         {| remote := snd (copy_object copy (remote w));
            sent := sent w ++ [CopyObjectCommand copy];
            info_log := info_log w |})
  end.
Proof.
  unfold settle_key, keyTaggedAsOld_resume, bind, await, date_now, send_copy, send, request.
  cbn [fst snd]. destruct answer as [e|data]; [reflexivity|].
  destruct (copy_object _ (remote w)) as [[e|[]] rem]; reflexivity.
Qed.

Variable oracle : session R -> nat -> nat.

(** What the drained generator was at the end. *)
Lemma drain_run (bucket : string) (parallel : Z) (page : ListObjectsOutput)
      (w : session R) :
  1 <= parallel ->
  exists (st : sched (session R) string (string * (Error + HeadObjectOutput)) unit Error
                     (list S3Object)) rest,
    run_inv (start_key bucket) (settle_key bucket) tagger_pull w parallel
            (page_keys page) st rest /\
    enabled st = [] /\
    (parallel = 1 -> in_source_order st) /\
    drain oracle bucket (Fin parallel) page w
    = match sphase st with
      | Returned => (Ok tt, world st)
      | Threw message => (Throws (mkError "Error" message), world st)
      | _ => (Hangs, world st)
      end.
Proof.
  intros Hmax.
  set (choices := map (oracle w)
                      (seq 0 (2 * Z.to_nat parallel + 2 * length (tagger page) + 1))).
  destruct (run_inv_run (start_key bucket) (settle_key bucket) tagger_pull w parallel
              (page_keys page) choices _ _
              (run_inv_init (start_key bucket) (settle_key bucket) tagger_pull w parallel
                            (page_keys page) (tagger page) Hmax (tagger_yields page)))
    as (rest & Hok & Hen & Hord).
  simpl in Hok, Hen, Hord.
  assert (Hstop : enabled (run_schedule (start_key bucket) (settle_key bucket) tagger_pull
                             (Fin parallel) choices
                             (parallelGenerator (Fin parallel) (tagger page) w)) = []).
  { apply Hen. rewrite steps_left_init by assumption.
    unfold choices. rewrite length_map, length_seq.
    pose proof (page_keys_length page). lia. }
  eexists _, rest. split; [exact Hok|]. split; [exact Hstop|]. split.
  { intros H1. apply Hord; [exact H1|]. split; simpl; [lia | reflexivity]. }
  unfold drain. cbv zeta. cbn [degree]. fold choices. rewrite Hstop.
  now destruct (sphase _).
Qed.

(** Draining ends in one of two ways: the generator has returned, every
    operation of the page having been called and having fulfilled; or it
    waits for ever, some operation having rejected. *)
Lemma drain_cases (bucket : string) (parallel : Z) (page : ListObjectsOutput)
      (w : session R) :
  1 <= parallel ->
  exists pulled flight log,
    interleaving (start_key bucket) (settle_key bucket) parallel w pulled flight log
                 (snd (drain oracle bucket (Fin parallel) page w)) /\
    pulled `prefix_of` page_keys page /\
    ((fst (drain oracle bucket (Fin parallel) page w) = Ok tt /\
      pulled = page_keys page /\ flight = [] /\
      forall key r, (key, r) ∈ log -> r = inr tt) \/
     (fst (drain oracle bucket (Fin parallel) page w) = Hangs /\
      exists key e, (key, inl e) ∈ log)).
Proof.
  intros Hmax.
  destruct (drain_run bucket parallel page w Hmax) as (st & rest & Hok & Hstop & _ & Hdrain).
  destruct (run_inv_log _ _ _ _ _ _ _ _ Hok) as (_ & _ & _ & flight & Hil & Hf).
  destruct (run_inv_stuck _ _ _ _ _ _ _ _ Hmax Hok Hstop) as [Hr|[Hph (j & o & e & Hj)]].
  - destruct (run_inv_returned _ _ _ _ _ _ _ _ Hok Hr) as (_ & _ & Hq & Hall & _).
    exists (page_keys page), [], (settled st). rewrite Hdrain, Hr. cbn [fst snd].
    split; [exact Hall|]. split; [reflexivity|]. left.
    repeat split; try reflexivity.
    intros key r Hin. rewrite Hq in Hin.
    apply list_elem_of_fmap in Hin as ([o' []] & Heq & _). now injection Heq as _ ->.
  - exists (take (started st) (page_keys page)), flight, (settled st).
    assert (Hd : drain oracle bucket (Fin parallel) page w = (Hangs, world st)).
    { rewrite Hdrain. now destruct Hph as [-> | ->]. }
    rewrite Hd. cbn [fst snd]. split; [exact Hil|].
    split; [apply prefix_take|]. right. split; [reflexivity|].
    exists o, e. now destruct (run_inv_forsaken _ _ _ _ _ _ _ _ _ _ _ _ Hok Hj).
Qed.

(** A page for which [tagger] makes no mark-operation is drained without
    error and without effect. *)
Lemma drain_nothing (bucket : string) (parallel : Z) (page : ListObjectsOutput)
      (w : session R) :
  1 <= parallel -> page_keys page = [] ->
  drain oracle bucket (Fin parallel) page w = (Ok tt, w).
Proof.
  intros Hmax Hkeys.
  destruct (drain_cases bucket parallel page w Hmax)
    as (pulled & flight & log & Hil & Hpre & Hcase).
  rewrite Hkeys in Hpre. apply prefix_nil_inv in Hpre.
  destruct (interleaving_nothing _ _ _ _ _ _ _ _ Hil Hpre) as (_ & -> & Hw).
  destruct Hcase as [(Hr & _)|(_ & key & e & Hin)]; [|inversion Hin].
  destruct (drain oracle bucket (Fin parallel) page w) as [r w']. simpl in *. congruence.
Qed.

(** What the operations of an interleaving have sent: a head command for
    each operation called, in the order of the calls, and a copy command
    for some of those that have settled, among them all that have
    fulfilled. *)
Lemma interleaving_commands (bucket : string) (max : Z) (w w' : session R)
      (pulled : list string) (flight : list (string * (string * (Error + HeadObjectOutput))))
      (log : list (string * (Error + unit))) :
  interleaving (start_key bucket) (settle_key bucket) max w pulled flight log w' ->
  exists cmds,
    sent w' = sent w ++ cmds /\ info_log w' = info_log w /\
    head_keys cmds = pulled /\
    Forall (marking_command bucket) cmds /\
    copy_keys cmds ⊆+ map fst log /\
    (forall key p, (key, p) ∈ flight -> fst p = key) /\
    exists failed,
      map fst log ≡ₚ copy_keys cmds ++ failed /\
      forall key, key ∈ failed -> exists e, (key, inl e) ∈ log.
Proof.
  induction 1 as [|pulled flight log w1 key _ IH Hlt|pulled before after log w1 key p _ IH].
  - exists []. rewrite app_nil_r. repeat split; auto.
    + intros key p Hin. inversion Hin.
    + exists []. split; [reflexivity|]. intros key Hin. inversion Hin.
  - destruct IH as (cmds & Hs & Hi & Hh & Hm & Hc & Hfl & failed & Hp & Hfail).
    rewrite start_key_session. cbn [fst snd sent info_log].
    exists (cmds ++ [HeadObjectCommand {| head_Bucket := bucket; head_Key := key |}]).
    rewrite Hs, Hi, <- app_assoc. split; [reflexivity|]. split; [reflexivity|].
    unfold head_keys, copy_keys in *. rewrite !omap_app. cbn [omap list_omap head_Key].
    rewrite Hh, app_nil_r. split; [reflexivity|]. split.
    { apply Forall_app. split; [assumption|]. now repeat constructor. }
    split; [assumption|]. split.
    { intros key' p' Hin. apply elem_of_app in Hin as [Hin|Hin]; [eauto|].
      apply list_elem_of_singleton in Hin. injection Hin as -> ->. reflexivity. }
    exists failed. auto.
  - destruct IH as (cmds & Hs & Hi & Hh & Hm & Hc & Hfl & failed & Hp & Hfail).
    assert (Hkey : fst p = key) by (apply Hfl; apply elem_of_app; right; left).
    destruct p as [key' answer]. cbn [fst] in Hkey. subst key'.
    pose proof (settle_key_cases bucket key answer w1) as Hset.
    assert (Hfl' : forall k q, (k, q) ∈ before ++ after -> fst q = k).
    { intros k q Hin. apply Hfl. apply elem_of_app in Hin as [Hin|Hin];
        apply elem_of_app; [now left | right; now right]. }
    destruct answer as [e|data]; cbv zeta in Hset; rewrite Hset; cbn [fst snd sent info_log].
    + exists cmds. split; [assumption|]. split; [assumption|]. split; [assumption|].
      split; [assumption|]. split.
      { rewrite map_app. now apply submseteq_inserts_r. }
      split; [assumption|]. exists (failed ++ [key]). split.
      * rewrite map_app, Hp. cbn [map fst]. now rewrite app_assoc.
      * intros k Hin. apply elem_of_app in Hin as [Hin|Hin].
        -- destruct (Hfail k Hin) as [e' He']. exists e'. apply elem_of_app. now left.
        -- apply list_elem_of_singleton in Hin as ->. exists e.
           apply elem_of_app. right. left.
    + set (copy := mark_command bucket key data (to_iso_string_now (remote w1))).
      exists (cmds ++ [CopyObjectCommand copy]).
      rewrite Hs, Hi, <- app_assoc. split; [reflexivity|]. split; [reflexivity|].
      unfold head_keys, copy_keys in *. rewrite !omap_app. cbn [omap list_omap].
      rewrite Hh, app_nil_r. split; [reflexivity|]. split.
      { apply Forall_app. split; [assumption|]. constructor; [|constructor].
        simpl. now exists data, (to_iso_string_now (remote w1)). }
      split.
      { rewrite map_app. cbn [map fst copy_Key copy mark_command].
        now apply submseteq_app. }
      split; [assumption|]. exists failed. split.
      * rewrite map_app, Hp. cbn [map fst copy_Key copy mark_command].
        rewrite <- !app_assoc. apply Permutation_app_head. apply Permutation_app_comm.
      * intros k Hin. destruct (Hfail k Hin) as [e' He']. exists e'.
        apply elem_of_app. now left.
Qed.

(** With one slot, draining follows the loop over the keys of the page. *)
Lemma run_all_ok (bucket : string) (keys : list string) :
  forall w : session R,
    (forall key r, (key, r) ∈ fst (run_all (start_key bucket) (settle_key bucket) w keys) ->
                   r = inr tt) ->
    for_each (keyTaggedAsOld bucket) keys w
    = (Ok tt, snd (run_all (start_key bucket) (settle_key bucket) w keys)).
Proof.
  induction keys as [|key keys IH]; intros w Hall; [reflexivity|].
  cbn [for_each run_all] in *.
  pose proof (run_op_key bucket key w) as Hop.
  destruct (run_op (start_key bucket) (settle_key bucket) key w) as [r w1].
  destruct (run_all (start_key bucket) (settle_key bucket) w1 keys) as [rs w2] eqn:Hrest.
  cbn [fst snd] in *.
  assert (Hr : r = inr tt) by (apply (Hall key); left). subst r.
  unfold bind. destruct (keyTaggedAsOld bucket key w) as [[[]|e| |] w'];
    try discriminate. injection Hop as <-.
  rewrite IH; [now rewrite Hrest|].
  intros k r Hin. apply (Hall k). rewrite Hrest in Hin. now right.
Qed.

Lemma run_all_throws (bucket : string) (before after : list string) (key : string)
      (e : Error) :
  forall w : session R,
    (key, inl e) ∈ fst (run_all (start_key bucket) (settle_key bucket) w (before ++ [key])) ->
    Forall (fun x => snd x = inr tt)
           (fst (run_all (start_key bucket) (settle_key bucket) w before)) ->
    for_each (keyTaggedAsOld bucket) (before ++ key :: after) w
    = (Throws e, snd (run_all (start_key bucket) (settle_key bucket) w (before ++ [key]))).
Proof.
  induction before as [|k before IH]; intros w Hin Hbefore.
  - cbn [app for_each run_all] in *.
    pose proof (run_op_key bucket key w) as Hop.
    pose proof (keyTaggedAsOld_result bucket key w) as Hres.
    destruct (run_op (start_key bucket) (settle_key bucket) key w) as [r w1].
    cbn [fst snd] in *. apply list_elem_of_singleton in Hin. injection Hin as <-.
    unfold bind. destruct (keyTaggedAsOld bucket key w) as [[[]|e'| |] w'];
      cbn [fst] in Hres; destruct Hres as [Hres|[e0 Hres]]; try discriminate.
    injection Hop as <- <-. reflexivity.
  - cbn [app for_each run_all] in *.
    pose proof (run_op_key bucket k w) as Hop.
    destruct (run_op (start_key bucket) (settle_key bucket) k w) as [r w1].
    destruct (run_all (start_key bucket) (settle_key bucket) w1 before) as [rs w2] eqn:Hb.
    destruct (run_all (start_key bucket) (settle_key bucket) w1 (before ++ [key]))
      as [rs' w3] eqn:Hbk.
    cbn [fst snd] in *.
    apply Forall_cons in Hbefore as [Hr Hrs]. cbn [snd] in Hr. subst r.
    unfold bind. destruct (keyTaggedAsOld bucket k w) as [[[]|e'| |] w'];
      try discriminate. injection Hop as <-.
    specialize (IH w1). rewrite Hb, Hbk in IH. cbn [fst snd] in IH. apply IH.
    + apply elem_of_cons in Hin as [Hin|Hin]; [discriminate | assumption].
    + assumption.
Qed.

End DrainFacts.

(** ** Pages with absent fields *)



Lemma bare_restarts (oracle : session Bare -> nat -> nat) (bucket prefix : string)
      (pages : nat) :
  forall w : session Bare,
    prefixTaggedAsOld_from oracle pages bucket prefix (Fin 5) None w
    = (OutOfFuel,
       {| remote := remote w;
          sent := sent w ++ repeat (first_listing bucket prefix) pages;
          info_log := info_log w |}).
Proof.
  induction pages as [|pages IH]; intros w.
  - simpl. rewrite app_nil_r. now destruct w.
  - cbn [prefixTaggedAsOld_from repeat].
    unfold bind at 1. unfold send_list, send, request, await.
    cbn [list_objects bare_remote].
    unfold bind at 1. rewrite (drain_nothing oracle) by (lia || reflexivity).
    cbn [bare_page IsTruncated NextMarker nullish last_key Contents].
    rewrite IH. cbn [remote sent info_log]. rewrite <- app_assoc. reflexivity.
Qed.


(** ** Draining a page, whatever the remote side answers *)



(** X17.  With [parallel = 1] draining a page is the loop
    [for (key of keys) await keyTaggedAsOld(client, bucket, key)] over the
    keys of the page, against any remote side and under any schedule,
    but for the error: where the loop would throw the error of a
    mark-operation, draining never completes, with the session as the
    loop leaves it. *)
Theorem one_at_a_time_is_the_loop
        {R : Type} `{Remote R} (oracle : session R -> nat -> nat)
        (bucket : string) (page : ListObjectsOutput) (w : session R) :
  match for_each (keyTaggedAsOld bucket) (page_keys page) w with
  | (Ok u, w') => drain oracle bucket (Fin 1) page w = (Ok tt, w')
  | (Throws e, w') => drain oracle bucket (Fin 1) page w = (Hangs, w')
  | (Hangs, _) | (OutOfFuel, _) => False
  end.
Proof.
  assert (Hmax : 1 <= 1) by lia.
  destruct (drain_run oracle bucket 1 page w Hmax) as (st & rest & Hok & Hstop & Hord & Hdrain).
  destruct (Hord eq_refl) as (Hl1 & He).
  pose proof Hok as [_ _ (pulled & flight & Hp & _ & Hf & Hil) _ _ _ _].
  destruct (run_inv_stuck _ _ _ _ _ _ _ _ Hmax Hok Hstop) as [Hr|[Hph (j & o & e & Hj)]].
  - destruct (run_inv_returned _ _ _ _ _ _ _ _ Hok Hr) as (_ & _ & Hq & Hall & _).
    destruct (interleaving_one _ _ _ _ _ _ _ Hall)
      as [(_ & Hlog & Hw)|(b & o & _ & _ & Hfl & _)]; [|discriminate].
    rewrite run_all_ok.
    + rewrite Hdrain, Hr, Hw. reflexivity.
    + intros key r Hin. rewrite <- Hlog, Hq in Hin.
      apply list_elem_of_fmap in Hin as ([o' []] & Heq & _). now injection Heq as _ ->.
  - destruct (single_slot _ _ _ Hl1 Hj) as [Ha ->]. rewrite Ha in He, Hf.
    unfold table_outcomes, table_pending in He, Hf. simpl in He, Hf.
    apply Permutation_nil_r in Hf. subst flight.
    destruct (interleaving_one _ _ _ _ _ _ _ Hil)
      as [(_ & Hlog & Hw)|(b & o' & _ & _ & Hfl & _)]; [|discriminate].
    assert (Hpulled : pulled = map fst (yielded st) ++ [o]).
    { rewrite <- (run_all_fst (start_key bucket) (settle_key bucket) w pulled), <- Hlog, He.
      rewrite map_app, map_fst_fulfilled. reflexivity. }
    rewrite Hpulled in Hlog, Hw, Hp.
    assert (Hbefore : fst (run_all (start_key bucket) (settle_key bucket) w
                                   (map fst (yielded st)))
                      = map fulfilled (yielded st)).
    { rewrite run_all_snoc, He in Hlog. cbn [fst] in Hlog.
      apply app_inj_tail in Hlog as [Hlog _]. now symmetry. }
    rewrite <- Hp, <- app_assoc. cbn [app].
    rewrite (run_all_throws bucket _ _ _ e).
    + rewrite Hdrain, Hw. now destruct Hph as [-> | ->].
    + rewrite <- Hlog, He. apply elem_of_app. right. left.
    + rewrite Hbefore. apply Forall_forall. intros x Hx.
      apply list_elem_of_fmap in Hx as ([k []] & -> & _). reflexivity.
Qed.

(** ** Which versions are marked *)

Lemma append_inj_l (s a b : string) : s +:+ a = s +:+ b -> a = b.
Proof.
  induction s as [|c s IH]; simpl; [auto|]. intros Heq. injection Heq as Heq. auto.
Qed.

Lemma append_inj_r (a b s : string) : a +:+ s = b +:+ s -> a = b.
Proof.
  revert b. induction a as [|c a IH]; intros [|d b] Heq; simpl in Heq.
  - reflexivity.
  - exfalso. apply (f_equal String.length) in Heq. simpl in Heq.
    rewrite append_length in Heq. lia.
  - exfalso. apply (f_equal String.length) in Heq. simpl in Heq.
    rewrite append_length in Heq. lia.
  - injection Heq as -> Heq. f_equal. now apply IH.
Qed.

Lemma version_prefix_inj (folder : string) (v v' : Version) :
  version_prefix folder v = version_prefix folder v' -> version v = version v'.
Proof.
  unfold version_prefix. intros Heq.
  apply append_inj_l in Heq. simpl in Heq. injection Heq as Heq.
  now apply append_inj_r in Heq.
Qed.

Lemma parsed_same_identifier (v v' : Version) :
  parsed v -> parsed v' -> version v = version v' -> v = v'.
Proof. unfold parsed. intros Hv Hv' Heq. rewrite Heq in Hv. congruence. Qed.

Lemma page_versions_parsed (folder : string) (page : ListObjectsOutput) :
  Forall parsed (page_versions folder page).
Proof.
  apply Forall_forall. intros v Hv. unfold page_versions in Hv.
  apply list_elem_of_omap in Hv as (c & _ & Hc).
  unfold parsed.
  destruct (proj1 (extractVersion_char _ _) Hc)
    as (str & d1 & d2 & Hs & _ & _ & _ & ->).
  injection Hs as <-. exact Hc.
Qed.

Section Selection.

Context {R : Type} `{Remote R}.
Variable oracle : session R -> nat -> nat.
Variables (pages : nat) (bucket folder : string).

Lemma listVersions_from_parsed (n : nat) :
  forall versions marker (w w' : session R) vs,
    Forall parsed versions ->
    listVersions_from n bucket folder versions marker w = (Ok vs, w') ->
    Forall parsed vs.
Proof.
  induction n as [|n IH]; intros versions marker w w' vs Hv Hrun; [discriminate|].
  cbn [listVersions_from] in Hrun. unfold bind at 1 in Hrun.
  destruct (send_list _ w) as [[page|e| |] w1]; try discriminate.
  assert (Hv' : Forall parsed (versions ++ page_versions folder page))
    by (apply Forall_app; split; [assumption | apply page_versions_parsed]).
  destruct (nullish (IsTruncated page) false).
  - eapply IH; eassumption.
  - injection Hrun as <- _. exact Hv'.
Qed.

Lemma bind_ret_l {A B : Type} (a : A) (k : A -> M R B) (w : session R) :
  bind (ret a) k w = k a w.
Proof. reflexivity. Qed.

Lemma bind_ext {A B : Type} (m : M R A) (k k' : A -> M R B) (w : session R) :
  (forall a w', k a w' = k' a w') -> bind m k w = bind m k' w.
Proof.
  intros Hk. unfold bind. destruct (m w) as [[a|e| |] w']; auto.
Qed.

End Selection.


(** ** Which objects the pipeline touches *)

Lemma prefix_empty (c : ascii) (s : string) : String.prefix (String c s) "" = false.
Proof. reflexivity. Qed.

Lemma prefix_cons (c d : ascii) (s k : string) :
  String.prefix (String c s) (String d k)
  = if ascii_dec c d then String.prefix s k else false.
Proof. reflexivity. Qed.

Lemma prefix_app_inv (p x k : string) :
  String.prefix (p +:+ x) k = true ->
  exists k', k = p +:+ k' /\ String.prefix x k' = true.
Proof.
  revert k. induction p as [|c p IH]; intros k Hk.
  - now exists k.
  - change (String c p +:+ x) with (String c (p +:+ x)) in Hk.
    destruct k as [|d k]; [now rewrite prefix_empty in Hk|].
    rewrite prefix_cons in Hk.
    destruct (ascii_dec c d) as [->|]; [|discriminate].
    destruct (IH k Hk) as (k' & -> & Hx). now exists k'.
Qed.

Lemma prefix_app_intro (p x k : string) :
  String.prefix x k = true -> String.prefix (p +:+ x) (p +:+ k) = true.
Proof.
  intros Hx. induction p as [|c p IH]; [assumption|].
  change (String.prefix (String c (p +:+ x)) (String c (p +:+ k)) = true).
  rewrite prefix_cons. destruct (ascii_dec c c); [assumption | congruence].
Qed.

Lemma no_slash_app (a b : string) :
  no_slash (a +:+ b) = no_slash a && no_slash b.
Proof.
  induction a as [|c a IH]; simpl; [reflexivity|]. now rewrite IH, andb_assoc.
Qed.

Lemma all_digits_no_slash (d : string) : all_digits d = true -> no_slash d = true.
Proof.
  induction d as [|c d IH]; simpl; [reflexivity|].
  intros H. apply andb_true_iff in H as [Hc Hd]. rewrite (IH Hd), andb_true_r.
  destruct (Ascii.eqb_spec c "/") as [->|]; [discriminate | reflexivity].
Qed.

Lemma parsed_no_slash (v : Version) : parsed v -> no_slash (version v) = true.
Proof.
  unfold parsed. intros Hv.
  apply extractVersion_char in Hv as (str & d1 & d2 & Hs & [_ Hd1] & [_ Hd2] & Hstr & _).
  injection Hs as <-. rewrite Hstr, !no_slash_app.
  rewrite (all_digits_no_slash _ Hd1), (all_digits_no_slash _ Hd2). reflexivity.
Qed.

(** Two names without [/], each followed by [/], that start the same
    string are the same name. *)
Lemma prefix_slash_unique (a b k : string) :
  no_slash a = true -> no_slash b = true ->
  String.prefix (a +:+ "/") k = true -> String.prefix (b +:+ "/") k = true -> a = b.
Proof.
  revert b k. induction a as [|c a IH]; intros b k Ha Hb Hka Hkb.
  - change ("" +:+ "/") with "/" in Hka.
    destruct k as [|e k]; [now rewrite prefix_empty in Hka|].
    rewrite prefix_cons in Hka.
    destruct (ascii_dec "/" e) as [<-|]; [|discriminate].
    destruct b as [|d b]; [reflexivity|].
    change (String d b +:+ "/") with (String d (b +:+ "/")) in Hkb.
    rewrite prefix_cons in Hkb.
    destruct (ascii_dec d "/") as [->|]; [|discriminate]. discriminate.
  - change (String c a +:+ "/") with (String c (a +:+ "/")) in Hka.
    destruct k as [|e k]; [now rewrite prefix_empty in Hka|].
    rewrite prefix_cons in Hka.
    destruct (ascii_dec c e) as [->|]; [|discriminate].
    destruct b as [|d b].
    + change ("" +:+ "/") with "/" in Hkb. rewrite prefix_cons in Hkb.
      destruct (ascii_dec "/" e) as [<-|]; [|discriminate]. discriminate.
    + change (String d b +:+ "/") with (String d (b +:+ "/")) in Hkb.
      rewrite prefix_cons in Hkb.
      destruct (ascii_dec d e) as [->|]; [|discriminate].
      simpl in Ha, Hb.
      apply andb_true_iff in Ha as [_ Ha]. apply andb_true_iff in Hb as [_ Hb].
      f_equal. eapply IH; eassumption.
Qed.

(** The prefixes of two parsed versions of a folder hold no key in
    common. *)
Lemma version_prefix_disjoint (folder key : string) (v v' : Version) :
  parsed v -> parsed v' ->
  String.prefix (version_prefix folder v) key = true ->
  String.prefix (version_prefix folder v') key = true -> v = v'.
Proof.
  intros Hv Hv' Hk Hk'. unfold version_prefix in *.
  apply prefix_app_inv in Hk as (k1 & -> & Hk).
  apply prefix_app_inv in Hk' as (k2 & Heq & Hk').
  apply append_inj_l in Heq. subst k2.
  change ("/" +:+ version v +:+ "/") with (String "/" (version v +:+ "/")) in Hk.
  change ("/" +:+ version v' +:+ "/") with (String "/" (version v' +:+ "/")) in Hk'.
  destruct k1 as [|c k1]; [now rewrite prefix_empty in Hk|].
  rewrite prefix_cons in Hk, Hk'.
  destruct (ascii_dec "/" c); [|discriminate].
  apply parsed_same_identifier; try assumption.
  eapply prefix_slash_unique; eauto using parsed_no_slash.
Qed.

Section Touched.

Context {R : Type} `{Remote R}.
Variable oracle : session R -> nat -> nat.
Hypothesis listing : lists_under_its_prefix R.

Lemma emits_bind_ok {A B : Type} (P : command -> Prop) (Q : string -> Prop)
      (m : M R A) (k : A -> M R B) :
  emits P Q m ->
  (forall a w w', m w = (Ok a, w') -> emits P Q (k a)) ->
  emits P Q (bind m k).
Proof.
  intros Hm Hk w r w' Hrun. unfold bind in Hrun.
  destruct (m w) as [r1 w1] eqn:Hmw.
  destruct (Hm _ _ _ Hmw) as (c1 & l1 & Hs1 & Hi1 & Hc1 & Hl1).
  destruct r1 as [a|e| |].
  - destruct (Hk a _ _ Hmw _ _ _ Hrun) as (c2 & l2 & Hs2 & Hi2 & Hc2 & Hl2).
    exists (c1 ++ c2), (l1 ++ l2).
    rewrite Hs2, Hs1, Hi2, Hi1, <- !app_assoc.
    repeat split; try reflexivity; apply Forall_app; auto.
  - injection Hrun as <- <-. eauto 8.
  - injection Hrun as <- <-. eauto 8.
  - injection Hrun as <- <-. eauto 8.
Qed.

Lemma send_list_ok (i : ListObjectsInput) (page : ListObjectsOutput) (w w' : session R) :
  send_list i w = (Ok page, w') ->
  exists rem', list_objects i (remote w) = (inr page, rem').
Proof.
  unfold send_list, send, request, await.
  destruct (list_objects i (remote w)) as [[e|a] rem'];
    intros Heq; [discriminate|].
  assert (a = page) by congruence. subst a. eauto.
Qed.

Lemma page_keys_under (i : ListObjectsInput) (page : ListObjectsOutput)
      (rem rem' : R) (prefix key : string) :
  list_objects i rem = (inr page, rem') -> list_Prefix i = Some prefix ->
  key ∈ page_keys page -> String.prefix prefix key = true.
Proof.
  intros Hl Hp Hkey. unfold page_keys in Hkey.
  apply list_elem_of_omap in Hkey as (o & Ho & Hk).
  pose proof (listing i rem rem' page o key Hl Ho) as Hu.
  rewrite Hp in Hu. apply Hu.
  unfold entry_key in Hk. destruct (Key o) as [[|c k]|]; congruence.
Qed.

Lemma drain_about (bucket prefix : string) (parallel : number) (page : ListObjectsOutput) :
  (forall key, key ∈ page_keys page -> String.prefix prefix key = true) ->
  emits (about_prefix bucket prefix) (fun _ => False) (drain oracle bucket parallel page).
Proof.
  intros Hkeys. apply drain_emits_for. intros key Hkey.
  specialize (Hkeys key Hkey). simpl. auto.
Qed.

Lemma prefixTaggedAsOld_from_about (pages : nat) (bucket prefix : string) (parallel : number) :
  forall marker,
    emits (about_prefix bucket prefix) (fun _ => False)
          (prefixTaggedAsOld_from oracle pages bucket prefix parallel marker).
Proof.
  induction pages as [|pages IH]; intros marker; simpl.
  - apply emits_out_of_fuel.
  - apply emits_bind_ok; [apply emits_send; simpl; auto|].
    intros data w w' Hsend. apply send_list_ok in Hsend as [rem' Hl].
    apply emits_bind.
    + apply drain_about. intros key Hkey.
      eapply page_keys_under; [exact Hl | reflexivity | exact Hkey].
    + intros _. destruct (nullish (IsTruncated data) false); [apply IH | apply emits_ret].
Qed.

Lemma isPrefixTaggedAsOld_about (bucket prefix : string) :
  emits (about_prefix bucket prefix) (fun _ => False) (isPrefixTaggedAsOld bucket prefix).
Proof.
  unfold isPrefixTaggedAsOld.
  apply emits_bind_ok; [apply emits_send; simpl; auto|].
  intros page w w' Hsend. apply send_list_ok in Hsend as [rem' Hl].
  destruct (Contents page) as [[|o l]|] eqn:Hc; try apply emits_ret.
  destruct (Key o) as [key|] eqn:Hk; [|apply emits_ret].
  unfold isKeyTaggedAsOld. apply emits_bind; [|intros tags; apply emits_ret].
  apply emits_send. simpl. split; [reflexivity|].
  apply (listing _ _ _ _ o key Hl); [|assumption].
  rewrite Hc. simpl. left.
Qed.

Lemma tag_version_about (pages : nat) (bucket folder : string) (parallel : number)
      (v : Version) :
  emits (about_prefix bucket (version_prefix folder v))
        (fun line => line = "Tagging " +:+ version_prefix folder v +:+ " as old")
        (tag_version oracle pages bucket folder parallel v).
Proof.
  unfold tag_version. apply emits_bind.
  - eapply emits_weaken; [| |apply isPrefixTaggedAsOld_about]; auto.
    intros l [].
  - intros tagged. destruct (negb tagged); [|apply emits_ret].
    apply emits_bind; [now apply emits_info|].
    intros _. eapply emits_weaken; [| |apply prefixTaggedAsOld_from_about]; auto.
    intros l [].
Qed.

Lemma listVersions_from_listing (pages : nat) (bucket folder : string) :
  forall versions marker,
    emits (version_listing bucket folder) (fun _ => False)
          (listVersions_from pages bucket folder versions marker).
Proof.
  induction pages as [|pages IH]; intros versions marker; simpl.
  - apply emits_out_of_fuel.
  - apply emits_bind; [apply emits_send; simpl; auto|].
    intros data. destruct (nullish (IsTruncated data) false); [apply IH | apply emits_ret].
Qed.

End Touched.

Lemma older_than_irrefl (v : Version) : older_than v v = false.
Proof.
  destruct v as [s [|[]|r] [|[]|t]]; unfold older_than, compareVersions; simpl;
    rewrite ?Z.sub_diag; try reflexivity.
Qed.

Lemma about_prefix_key (bucket prefix key : string) (cmd : command) :
  about_prefix bucket prefix cmd -> object_key cmd = Some key ->
  String.prefix prefix key = true.
Proof.
  destruct cmd as [i|i|i|i]; simpl; intros Ha Hk; try discriminate;
    injection Hk as <-; tauto.
Qed.

(** X7.  Against a remote side that lists keys under the requested prefix
    only, once the pointer has been read and parses to the version [cur],
    every command [tagOldVersions] goes on to send is a listing of the
    versions of the folder or a command of the work on the prefix of a
    parsed version older than [cur]: a listing of that prefix, or a read,
    a tag request or a copy in place of an object under it.  No object
    under the prefix of the current version, or of any version that is not
    older, is read or written. *)
Theorem only_older_versions_are_touched
        {R : Type} `{Remote R} (oracle : session R -> nat -> nat)
        (pages : nat) (bucket folder : string) (parallel : number)
        (w w0 : session R) (data : HeadObjectOutput) (cur : Version) :
  lists_under_its_prefix R ->
  send_head {| head_Bucket := bucket; head_Key := folder +:+ "/index.html" |} w
  = (Ok data, w0) ->
  extractVersion (pointer_of data) = Some cur ->
  exists cmds : list command,
    sent (snd (tagOldVersions oracle pages bucket folder parallel w)) = sent w0 ++ cmds /\
    Forall (fun cmd =>
              version_listing bucket folder cmd \/
              exists v, parsed v /\ older_than cur v = true /\
                        about_prefix bucket (version_prefix folder v) cmd) cmds /\
    (forall cmd key v,
        cmd ∈ cmds -> object_key cmd = Some key ->
        parsed v -> older_than cur v = false ->
        String.prefix (version_prefix folder v) key = false) /\
    (forall cmd key,
        cmd ∈ cmds -> object_key cmd = Some key ->
        String.prefix (version_prefix folder cur) key = false).
Proof.
  intros Hlisting Hhead Hcur.
  set (P := fun cmd =>
              version_listing bucket folder cmd \/
              exists v, parsed v /\ older_than cur v = true /\
                        about_prefix bucket (version_prefix folder v) cmd).
  assert (Hem : emits P (fun _ => True)
                  (info ("Current version: " +:+ version cur) ;;
                   versionPrefixes <- listVersions pages bucket folder ;;
                   info ("Found " +:+ decimal_repr (Z.of_nat (length versionPrefixes))
                         +:+ " version prefixes") ;;
                   for_each (tag_version oracle pages bucket folder parallel)
                            (List.filter (older_than cur) versionPrefixes))).
  { apply emits_bind; [now apply emits_info|]. intros _.
    apply emits_bind_ok.
    - eapply emits_weaken; [| |apply listVersions_from_listing].
      + intros cmd Hc. now left.
      + auto.
    - intros vs w1 w2 Hvs.
      assert (Hparsed : Forall parsed vs).
      { eapply listVersions_from_parsed; [|exact Hvs]. constructor. }
      apply emits_bind; [now apply emits_info|]. intros _.
      apply emits_for_each. intros v Hv.
      apply list_elem_of_In, filter_In in Hv as [Hin Hold].
      eapply emits_weaken; [| |apply tag_version_about; assumption].
      + intros cmd Hc. right. exists v. split; [|auto].
        rewrite Forall_forall in Hparsed. now apply Hparsed, list_elem_of_In.
      + auto. }
  assert (Hrun : tagOldVersions oracle pages bucket folder parallel w
                 = (info ("Current version: " +:+ version cur) ;;
                    versionPrefixes <- listVersions pages bucket folder ;;
                    info ("Found " +:+ decimal_repr (Z.of_nat (length versionPrefixes))
                          +:+ " version prefixes") ;;
                    for_each (tag_version oracle pages bucket folder parallel)
                             (List.filter (older_than cur) versionPrefixes)) w0).
  { unfold tagOldVersions. unfold bind at 1. now rewrite Hhead, Hcur. }
  rewrite Hrun.
  destruct ((info ("Current version: " +:+ version cur) ;;
             versionPrefixes <- listVersions pages bucket folder ;;
             info ("Found " +:+ decimal_repr (Z.of_nat (length versionPrefixes))
                   +:+ " version prefixes") ;;
             for_each (tag_version oracle pages bucket folder parallel)
                      (List.filter (older_than cur) versionPrefixes)) w0)
    as [r w'] eqn:Hk.
  destruct (Hem _ _ _ Hk) as (cmds & lines & Hs & _ & Hc & _).
  assert (Hnew : forall cmd key v,
             cmd ∈ cmds -> object_key cmd = Some key ->
             parsed v -> older_than cur v = false ->
             String.prefix (version_prefix folder v) key = false).
  { intros cmd key v Hin Hkey Hv Hnot.
    rewrite Forall_forall in Hc. destruct (Hc cmd Hin) as [Hl|(v0 & Hv0 & Hold & Ha)].
    - destruct cmd; simpl in Hl; try contradiction. discriminate.
    - destruct (String.prefix (version_prefix folder v) key) eqn:Hp; [|reflexivity].
      pose proof (about_prefix_key _ _ _ _ Ha Hkey) as Hp0.
      pose proof (version_prefix_disjoint folder key v0 v Hv0 Hv Hp0 Hp). congruence. }
  exists cmds. cbn [snd]. split; [assumption|]. split; [assumption|].
  split; [assumption|].
  intros cmd key Hin Hkey. apply (Hnew cmd key cur Hin Hkey).
  - unfold parsed.
    apply extractVersion_char in Hcur as (str & d1 & d2 & Hs' & Hd1 & Hd2 & Hstr & ->).
    cbn [version]. apply extractVersion_char. exists str, d1, d2. auto.
  - apply older_than_irrefl.
Qed.

Lemma strip_prefix_prefix (p s r : string) :
  strip_prefix p s = Some r -> String.prefix p s = true.
Proof.
  revert s. induction p as [|c p IH]; intros [|d s] Hs; simpl in Hs;
    try reflexivity; try discriminate.
  rewrite prefix_cons. destruct (Ascii.eqb_spec c d) as [->|]; [|discriminate].
  destruct (ascii_dec d d); [eauto | congruence].
Qed.

Lemma dedupe_subset (e : bool * string) (l : list (bool * string)) :
  e ∈ dedupe l -> e ∈ l.
Proof.
  induction l as [|a [|b l] IH]; simpl; try (intros; assumption).
  destruct (bool_decide (a = b)).
  - intros Hin. right. now apply IH.
  - intros Hin. apply elem_of_cons in Hin as [->|Hin]; [left | right; now apply IH].
Qed.

Lemma list_entry_key (prefix key k : string) (delimiter : option string) :
  list_entry prefix delimiter k = Some (false, key) ->
  key = k /\ String.prefix prefix k = true.
Proof.
  unfold list_entry. destruct (strip_prefix prefix k) as [rest|] eqn:Hs; [|discriminate].
  apply strip_prefix_prefix in Hs.
  destruct delimiter as [d|]; [destruct (index 0 d rest)|]; intros Heq;
    try discriminate; injection Heq as <-; auto.
Qed.

(** The store lists under the requested prefix only. *)
Lemma store_lists_under_its_prefix : lists_under_its_prefix Store.
Proof.
  intros i s s' page o key Hlist Ho Hkey.
  cbn [list_objects store_remote] in Hlist. unfold store_list in Hlist.
  destruct (String.eqb (list_Bucket i) (bucket_name s)); [|discriminate].
  injection Hlist as <- _. cbn [Contents] in Ho.
  set (entries := dedupe (omap (fun ko : string * StoredObject =>
                                  list_entry (nullish (list_Prefix i) "") (Delimiter i)
                                             (fst ko)) (objects s))) in *.
  set (filtered := match Marker i with
                   | Some m => List.filter (fun e : bool * string => String.ltb m (snd e))
                                           entries
                   | None => entries
                   end) in *.
  set (n := match MaxKeys i with
            | Some n => Nat.min n (page_size s)
            | None => page_size s
            end) in *.
  destruct (omap (fun e : bool * string =>
                    if fst e then None else Some {| Key := Some (snd e) |})
                 (take n filtered)) as [|o0 keys] eqn:Hkeys; [inversion Ho|].
  cbn [nullish] in Ho. rewrite <- Hkeys in Ho.
  apply list_elem_of_omap in Ho as ([b k] & Hin & Hb). cbn [fst snd] in Hb.
  destruct b; [discriminate|]. injection Hb as <-. cbn [Key] in Hkey.
  injection Hkey as <-.
  assert (Hin' : (false, k) ∈ entries).
  { apply elem_of_take in Hin as (j & Hj & _).
    apply list_elem_of_lookup_2 in Hj. unfold filtered in Hj.
    destruct (Marker i); [|assumption].
    apply list_elem_of_In, filter_In in Hj as [Hj _]. now apply list_elem_of_In. }
  apply dedupe_subset, list_elem_of_omap in Hin' as ([k0 o0'] & _ & He).
  apply list_entry_key in He as [-> Hp]. exact Hp.
Qed.

Lemma only_older_versions_are_touched_witness :
  lists_under_its_prefix Store /\
  send_head {| head_Bucket := test_bucket; head_Key := test_folder +:+ "/index.html" |}
            (start_session test_store)
  = (Ok test_pointer_data, test_after_pointer) /\
  extractVersion (pointer_of test_pointer_data) = Some test_current /\
  exists cmds : list command,
    sent (snd (tagOldVersions last_first 10 test_bucket test_folder (Fin 2)
                              (start_session test_store)))
    = sent test_after_pointer ++ cmds /\
    forall cmd key,
      cmd ∈ cmds -> object_key cmd = Some key ->
      String.prefix (version_prefix test_folder test_current) key = false.
Proof.
  assert (H1 : send_head {| head_Bucket := test_bucket;
                            head_Key := test_folder +:+ "/index.html" |}
                         (start_session test_store)
               = (Ok test_pointer_data, test_after_pointer))
    by (vm_compute; reflexivity).
  assert (H2 : extractVersion (pointer_of test_pointer_data) = Some test_current)
    by (vm_compute; reflexivity).
  split; [exact store_lists_under_its_prefix|]. split; [exact H1|]. split; [exact H2|].
  destruct (only_older_versions_are_touched last_first 10 test_bucket test_folder (Fin 2)
              (start_session test_store) test_after_pointer test_pointer_data test_current
              store_lists_under_its_prefix H1 H2) as (cmds & Hs & _ & _ & Hcur).
  exists cmds. split; [exact Hs | exact Hcur].
Defined.

(** ** The pointer *)

Lemma extractVersion_matches (p : string) :
  matches_run_pattern p <-> exists v, extractVersion (VString p) = Some v.
Proof.
  split.
  - intros (d1 & d2 & Hd1 & Hd2 & Hp). eexists. apply extractVersion_char.
    exists p, d1, d2. repeat split; try assumption; try reflexivity; apply Hd1 || apply Hd2.
  - intros [v Hv]. apply extractVersion_char in Hv as (str & d1 & d2 & Hs & Hd1 & Hd2 & Hstr & _).
    injection Hs as <-. exists d1, d2. auto.
Qed.

Lemma tagOldVersions_unfold
      {R : Type} `{Remote R} (oracle : session R -> nat -> nat)
      (pages : nat) (bucket folder : string) (parallel : number) (w : session R) :
  let head := {| head_Bucket := bucket; head_Key := folder +:+ "/index.html" |} in
  let after := fun rem => {| remote := rem; sent := sent w ++ [HeadObjectCommand head];
                             info_log := info_log w |} in
  tagOldVersions oracle pages bucket folder parallel w
  = match head_object head (remote w) with
    | (inl e, rem) => (Throws e, after rem)
    | (inr data, rem) =>
        match extractVersion (pointer_of data) with
        | None =>
            (Throws (mkError "Error" ("No current version pointer found for " +:+ folder)),
             after rem)
        | Some currentVersion =>
            (info ("Current version: " +:+ version currentVersion) ;;
             versionPrefixes <- listVersions pages bucket folder ;;
             info ("Found " +:+ decimal_repr (Z.of_nat (length versionPrefixes))
                   +:+ " version prefixes") ;;
             for_each (tag_version oracle pages bucket folder parallel)
                      (List.filter (older_than currentVersion) versionPrefixes))
              (after rem)
        end
    end.
Proof.
  intros head after. unfold tagOldVersions. unfold bind at 1.
  unfold send_head, send, request, await. fold head. destruct (head_object head (remote w)) as [[e|data] rem]; [reflexivity|].
  fold (after rem). now destruct (extractVersion (pointer_of data)).
Qed.

(** X8.  [tagOldVersions] first reads [<folder>/index.html].  If that
    request fails, its error is thrown.  If the answer has no [pointer]
    metadata, or one that is not of the form [run-<digits>-<digits>], the
    error [No current version pointer found for <folder>] is thrown.  In
    both cases that one command is all that was sent and nothing was
    logged.  If the pointer is of that form, it is logged as the current
    version, and the run goes on from there. *)
Theorem tagOldVersions_needs_a_pointer
        {R : Type} `{Remote R} (oracle : session R -> nat -> nat)
        (pages : nat) (bucket folder : string) (parallel : number) (w : session R) :
  let head := {| head_Bucket := bucket; head_Key := folder +:+ "/index.html" |} in
  let after := fun rem => {| remote := rem; sent := sent w ++ [HeadObjectCommand head];
                             info_log := info_log w |} in
  let missing := mkError "Error" ("No current version pointer found for " +:+ folder) in
  match head_object head (remote w) with
  | (inl e, rem) =>
      tagOldVersions oracle pages bucket folder parallel w = (Throws e, after rem)
  | (inr data, rem) =>
      match pointer_of data with
      | VString p =>
          (~ matches_run_pattern p ->
           tagOldVersions oracle pages bucket folder parallel w = (Throws missing, after rem)) /\
          (matches_run_pattern p ->
           exists cmds lines,
             sent (snd (tagOldVersions oracle pages bucket folder parallel w))
             = sent w ++ HeadObjectCommand head :: cmds /\
             info_log (snd (tagOldVersions oracle pages bucket folder parallel w))
             = info_log w ++ ("Current version: " +:+ p) :: lines)
      | _ => tagOldVersions oracle pages bucket folder parallel w = (Throws missing, after rem)
      end
  end.
Proof.
  intros head after missing.
  rewrite (tagOldVersions_unfold oracle pages bucket folder parallel w). fold head.
  destruct (head_object head (remote w)) as [[e|data] rem]; [reflexivity|].
  fold (after rem). fold missing.
  destruct (pointer_of data) as [| | | |p| |] eqn:Hp; try reflexivity.
  split.
  - intros Hno. destruct (extractVersion (VString p)) as [v|] eqn:Hv; [|reflexivity].
    exfalso. apply Hno, extractVersion_matches. eauto.
  - intros Hyes. apply extractVersion_matches in Hyes as [v Hv]. rewrite Hv.
    assert (Hid : version v = p).
    { apply extractVersion_char in Hv as (str & d1 & d2 & Hs & _ & _ & _ & ->).
      now injection Hs as <-. }
    rewrite Hid.
    match goal with
    | |- context [bind ?m ?k ?s] =>
        destruct (bind m k s) as [r w'] eqn:Hk
    end.
    pose proof Hk as Hk'. unfold bind at 1 in Hk'. cbn [info] in Hk'.
    match type of Hk' with
    | ?k ?s = _ =>
        assert (Hem' : emits (fun _ => True) (fun _ => True) k)
    end.
    { apply emits_bind.
      - eapply emits_weaken; [| |apply (listVersions_from_listing pages bucket folder)]; auto.
      - intros vs. apply emits_bind; [now apply emits_info|]. intros _.
        apply emits_for_each. intros x _.
        eapply emits_weaken; [| |apply tag_version_emits]; auto. }
    destruct (Hem' _ _ _ Hk') as (cmds & lines & Hs & Hi & _).
    cbn [sent info_log after] in Hs, Hi. cbn [snd].
    exists cmds, lines. rewrite Hs, Hi, <- !app_assoc. auto.
Qed.

(** ** The inputs, [main] and [run] *)

Lemma parseInt_leading_digits (d t : string) :
  digit_group d ->
  match t with String c _ => is_digit c = false | EmptyString => True end ->
  parseInt (d +:+ t) = of_Z (decimal_value d).
Proof.
  intros Hd Ht. destruct (digit_group_inv d Hd) as (c & d' & -> & Hc & Hd').
  change (String c d' +:+ t) with (String c (d' +:+ t)).
  unfold parseInt. simpl skip_white_space. rewrite (is_digit_not_space c Hc).
  assert (Hsign : (let '(neg, u) :=
                    match String c (d' +:+ t) with
                    | String "-" u => (true, u)
                    | String "+" u => (false, u)
                    | _ => (false, String c (d' +:+ t))
                    end in (neg, u)) = (false, String c (d' +:+ t))).
  { destruct (Ascii.eqb_spec "-"%char c) as [<-|Hm]; [discriminate Hc|].
    destruct (Ascii.eqb_spec "+"%char c) as [<-|Hp]; [discriminate Hc|].
    destruct c as [[] [] [] [] [] [] [] []]; try reflexivity; congruence. }
  destruct (match String c (d' +:+ t) with
            | String "-" u => (true, u)
            | String "+" u => (false, u)
            | _ => (false, String c (d' +:+ t))
            end) as [neg u].
  injection Hsign as -> ->.
  assert (Hpre : digit_prefix (String c (d' +:+ t)) = String c d').
  { cbn [digit_prefix]. rewrite Hc. f_equal. clear Hd Hc.
    induction d' as [|c' d' IH].
    - change ("" +:+ t) with t. destruct t as [|c0 t]; [reflexivity|].
      cbn [digit_prefix]. now rewrite Ht.
    - change (String c' d' +:+ t) with (String c' (d' +:+ t)).
      simpl in Hd'. apply andb_true_iff in Hd' as [Hc' Hd''].
      cbn [digit_prefix]. rewrite Hc'. f_equal. now apply IH. }
  rewrite Hpre. reflexivity.
Qed.

Lemma of_Z_from_one (z : Z) :
  1 <= z -> (exists z', of_Z z = Fin z' /\ 1 <= z') \/ of_Z z = Inf false.
Proof.
  intros Hz. unfold of_Z. rewrite Z.abs_eq by lia.
  pose proof (round_mag_pos z ltac:(lia)) as Hpos.
  destruct (2 ^ 1024 <=? round_mag z).
  - right. destruct (Z.ltb_spec z 0); [lia | reflexivity].
  - left. eexists. split; [reflexivity|]. rewrite Z.sgn_pos by lia. lia.
Qed.

(** X9.  [inputParallel] returns what [parseInt] makes of the input, and
    only when that is a number not below 1: an integer from 1 on, or
    +Infinity; otherwise it throws [Invalid integer value for parallel, got
    <input>].  As [parseInt] stops at the first character that is no
    digit, an input that starts with digits of value 1 or more is
    accepted whatever follows them. *)
Theorem inputParallel_accepts_from_one (getInput : string -> string) :
  let input := getInput "parallel" in
  match Action.inputParallel getInput with
  | inr n =>
      n = parseInt input /\ isNaN n = false /\ lt n (Fin 1) = false /\
      ((exists z, n = Fin z /\ 1 <= z) \/ n = Inf false)
  | inl e =>
      e = mkError "Error" ("Invalid integer value for parallel, got " +:+ input) /\
      (parseInt input = NaN \/ lt (parseInt input) (Fin 1) = true)
  end /\
  (forall d t,
      input = d +:+ t -> digit_group d -> 1 <= decimal_value d ->
      match t with String c _ => is_digit c = false | EmptyString => True end ->
      Action.inputParallel getInput = inr (of_Z (decimal_value d))).
Proof.
  intros input. unfold Action.inputParallel. fold input. split.
  - destruct (parseInt input) as [|[]|z] eqn:Hp; simpl.
    + split; [reflexivity | now left].
    + split; [reflexivity | now right].
    + repeat (split; [reflexivity|]). now right.
    + destruct (Z.ltb_spec z 1).
      * split; [reflexivity | now right].
      * split; [reflexivity|]. split; [reflexivity|].
        split; [simpl; now apply Z.ltb_ge|].
        left. exists z. split; [reflexivity | lia].
  - intros d t Hin Hd Hv Ht. rewrite Hin, (parseInt_leading_digits d t Hd Ht).
    destruct (of_Z_from_one _ Hv) as [(z' & -> & Hz')| ->]; simpl; [|reflexivity].
    destruct (Z.ltb_spec z' 1); [lia | reflexivity].
Qed.

(** X10.  The inputs are checked before anything is sent, in the order
    bucket, folder, parallel.  With an input that is not valid, [run]
    sends no command and logs nothing: it reports the error of the first
    input that is not valid with [core.setFailed], and returns.  With
    valid inputs the program is [tagOldVersions] on them, with the
    degree [inputParallel] returns, which is at least 1 when finite.  [run] never throws: whatever the program
    throws is reported with [core.setFailed]. *)
Theorem invalid_input_fails_before_any_request
        {R : Type} `{Remote R}
        (getInput : string -> string)
        (isValidGeneralPurposeBucketName isValidFolder : string -> bool)
        (oracle : session R -> nat -> nat) (pages : nat) (w : session R) :
  let go := Action.run getInput isValidGeneralPurposeBucketName isValidFolder oracle
                pages w in
  let started := Debug "Starting tinymce-docs-cleanup-action" in
  let bucket := getInput "bucket" in
  let folder := getInput "folder" in
  (isValidGeneralPurposeBucketName bucket = false ->
   go = ([started; SetFailed (mkError "Error" ("Invalid bucket name, got " +:+ bucket))],
         (Ok tt, w))) /\
  (isValidGeneralPurposeBucketName bucket = true -> isValidFolder folder = false ->
   go = ([started; SetFailed (mkError "Error" ("Invalid folder name, got " +:+ folder))],
         (Ok tt, w))) /\
  (isValidGeneralPurposeBucketName bucket = true -> isValidFolder folder = true ->
   forall e, Action.inputParallel getInput = inl e ->
             go = ([started; SetFailed e], (Ok tt, w))) /\
  (isValidGeneralPurposeBucketName bucket = true -> isValidFolder folder = true ->
   forall parallel, Action.inputParallel getInput = inr parallel ->
                    (forall max, parallel = Fin max -> 1 <= max) /\
                    Action.main getInput isValidGeneralPurposeBucketName isValidFolder oracle
                                pages w
                    = tagOldVersions oracle pages bucket folder parallel w) /\
  (forall e, fst (snd go) <> Throws e) /\
  (forall e w',
      Action.main getInput isValidGeneralPurposeBucketName isValidFolder oracle pages w
      = (Throws e, w') ->
      go = ([started; SetFailed e], (Ok tt, w'))).
Proof.
  intros go started bucket folder. subst go.
  split; [|split; [|split; [|split; [|split]]]].
  - intros Hb. unfold Action.run, Action.main, Action.inputBucket. fold bucket.
    rewrite Hb. reflexivity.
  - intros Hb Hf. unfold Action.run, Action.main, Action.inputBucket, Action.inputFolder.
    fold bucket folder.
    rewrite Hb, Hf. reflexivity.
  - intros Hb Hf e He.
    unfold Action.run, Action.main, Action.inputBucket, Action.inputFolder.
    fold bucket folder.
    rewrite Hb, Hf, He. reflexivity.
  - intros Hb Hf parallel Hp. split.
    + intros max ->. unfold Action.inputParallel in Hp.
      destruct (isNaN (parseInt (getInput "parallel"))
                || lt (parseInt (getInput "parallel")) (Fin 1)) eqn:Hg; [discriminate|].
      injection Hp as Hp. rewrite Hp in Hg. simpl in Hg. now apply Z.ltb_ge in Hg.
    + unfold Action.main, Action.inputBucket, Action.inputFolder. fold bucket folder.
      rewrite Hb, Hf, Hp. reflexivity.
  - intros e. unfold Action.run.
    destruct (Action.main getInput isValidGeneralPurposeBucketName isValidFolder oracle
                   pages w) as [[u|e'| |] w']; discriminate.
  - intros e w' Hm. unfold Action.run. rewrite Hm. reflexivity.
Qed.


(** ** Identifiers and their order *)

Lemma digit_char_is_digit (k : Z) : 0 <= k < 10 -> is_digit (digit_char k) = true.
Proof.
  intros Hk. unfold digit_char.
  assert (Hc : k = 0 \/ k = 1 \/ k = 2 \/ k = 3 \/ k = 4 \/ k = 5 \/ k = 6 \/ k = 7
               \/ k = 8 \/ k = 9) by lia.
  repeat (destruct Hc as [->|Hc]; [reflexivity|]). now subst.
Qed.

Lemma digit_value_char (k : Z) : 0 <= k < 10 -> digit_value (digit_char k) = k.
Proof.
  intros Hk. unfold digit_char.
  assert (Hc : k = 0 \/ k = 1 \/ k = 2 \/ k = 3 \/ k = 4 \/ k = 5 \/ k = 6 \/ k = 7
               \/ k = 8 \/ k = 9) by lia.
  repeat (destruct Hc as [->|Hc]; [reflexivity|]). now subst.
Qed.

(** The digits printed for [z] are digits, and read back as [z]. *)
Lemma decimal_digits_parse (fuel : nat) :
  forall z acc,
    0 <= z < 2 ^ Z.of_nat fuel ->
    exists pre,
      decimal_digits fuel z acc = pre +:+ acc /\ all_digits pre = true /\
      (fuel <> 0%nat -> pre <> "") /\
      forall a rest, decimal_value_from a (pre +:+ rest)
                     = decimal_value_from (a * 10 ^ Z.of_nat (String.length pre) + z) rest.
Proof.
  induction fuel as [|f IH]; intros z acc Hz.
  - exists "". simpl in Hz. assert (z = 0) by lia. subst z.
    repeat split; try reflexivity; try congruence.
    intros a rest. simpl. f_equal. lia.
  - cbn [decimal_digits].
    assert (Hm : 0 <= z mod 10 < 10) by (apply Z.mod_pos_bound; lia).
    destruct (Z.ltb_spec z 10) as [Hlt|Hge].
    + exists (String (digit_char (z mod 10)) ""). rewrite Z.mod_small by lia.
      split; [reflexivity|]. split; [simpl; now rewrite digit_char_is_digit by lia|].
      split; [discriminate|].
      intros a rest. change (String (digit_char z) "" +:+ rest)
                       with (String (digit_char z) rest).
      cbn [decimal_value_from String.length]. rewrite digit_value_char by lia.
      f_equal. change (10 ^ Z.of_nat 1) with 10. lia.
    + destruct (IH (z / 10) (String (digit_char (z mod 10)) acc)) as (pre & Hd & Hall & _ & Hval).
      { rewrite Nat2Z.inj_succ, Z.pow_succ_r in Hz by lia.
        split; [apply Z.div_pos; lia|].
        apply Z.div_lt_upper_bound; lia. }
      exists (pre +:+ String (digit_char (z mod 10)) "").
      rewrite Hd, append_assoc. split; [reflexivity|].
      split; [rewrite all_digits_app, Hall; simpl; now rewrite digit_char_is_digit|].
      split.
      { intros _ Hnil. apply (f_equal String.length) in Hnil.
        rewrite append_length in Hnil. simpl in Hnil. lia. }
      intros a rest. rewrite append_assoc, Hval.
      change (String (digit_char (z mod 10)) "" +:+ rest)
        with (String (digit_char (z mod 10)) rest).
      cbn [decimal_value_from]. rewrite digit_value_char by assumption.
      f_equal. rewrite append_length. cbn [String.length].
      rewrite Nat2Z.inj_add. change (Z.of_nat 1) with 1.
      rewrite Z.pow_add_r, Z.pow_1_r by lia.
      pose proof (Z.div_mod z 10 ltac:(lia)). lia.
Qed.

Lemma decimal_repr_parses (z : Z) :
  0 <= z -> digit_group (decimal_repr z) /\ decimal_value (decimal_repr z) = z.
Proof.
  intros Hz. unfold decimal_repr.
  destruct (decimal_digits_parse (S (Z.to_nat (Z.log2 z))) z "") as (pre & Hd & Hall & Hne & Hval).
  { split; [assumption|].
    rewrite Nat2Z.inj_succ, Z2Nat.id by apply Z.log2_nonneg.
    destruct (Z.eq_dec z 0) as [->|]; [reflexivity|]. apply Z.log2_spec. lia. }
  rewrite Hd, append_nil_r. split.
  - split; [now apply Hne | assumption].
  - unfold decimal_value. rewrite <- (append_nil_r pre) at 1.
    rewrite Hval. simpl. reflexivity.
Qed.

(** X11.  Printing and parsing round-trip: for a run and an attempt from 0
    to 2^53, [extractVersion] of the text [run-<run>-<attempt>] gives that
    text as the identifier and the two numbers back. *)
Theorem canonical_identifier_parses_back (v : Version) (r t : Z) :
  run v = Fin r -> attempt v = Fin t -> 0 <= r <= 2 ^ 53 -> 0 <= t <= 2 ^ 53 ->
  extractVersion (VString (canonical_identifier v))
  = Some (mkVersion (canonical_identifier v) (Fin r) (Fin t)).
Proof.
  intros Hr Ht Hrr Htr. unfold canonical_identifier. rewrite Hr, Ht.
  unfold number_to_string.
  destruct (Z.ltb_spec r 0); [lia|]. destruct (Z.ltb_spec t 0); [lia|].
  destruct (decimal_repr_parses r) as [Hd1 Hv1]; [lia|].
  destruct (decimal_repr_parses t) as [Hd2 Hv2]; [lia|].
  apply extractVersion_char.
  exists ("run-" +:+ decimal_repr r +:+ "-" +:+ decimal_repr t), (decimal_repr r),
    (decimal_repr t).
  repeat (split; [reflexivity || assumption|]).
  rewrite Hv1, Hv2, !of_Z_exact by lia. reflexivity.
Qed.

Lemma canonical_identifier_parses_back_witness :
  0 <= 123 <= 2 ^ 53 /\ 0 <= 4 <= 2 ^ 53 /\
  canonical_identifier (mkVersion "" (Fin 123) (Fin 4)) = "run-123-4" /\
  extractVersion (VString (canonical_identifier (mkVersion "" (Fin 123) (Fin 4))))
  = Some (mkVersion (canonical_identifier (mkVersion "" (Fin 123) (Fin 4)))
                    (Fin 123) (Fin 4)).
Proof.
  assert (H1 : 0 <= 123 <= 2 ^ 53) by (split; [lia | apply Z.leb_le; reflexivity]).
  assert (H2 : 0 <= 4 <= 2 ^ 53) by (split; [lia | apply Z.leb_le; reflexivity]).
  split; [exact H1|]. split; [exact H2|]. split; [vm_compute; reflexivity|].
  exact (canonical_identifier_parses_back (mkVersion "" (Fin 123) (Fin 4)) 123 4
           eq_refl eq_refl H1 H2).
Defined.

(** X12.  Parsed identifiers are ordered by number, not as text: for
    two identifiers whose digit groups have values up to 2^53,
    [compareVersions] of the parsed Versions has the sign of the
    comparison of the runs as integers, and of the attempts when the runs
    are equal; so a listed version is taken for older than the current one
    exactly when its run is less, or its run is the same and its attempt
    is less, whatever leading zeros the texts have. *)
Theorem parsed_identifiers_order_by_number (d1 d2 e1 e2 : string) :
  digit_group d1 -> digit_group d2 -> digit_group e1 -> digit_group e2 ->
  decimal_value d1 <= 2 ^ 53 -> decimal_value d2 <= 2 ^ 53 ->
  decimal_value e1 <= 2 ^ 53 -> decimal_value e2 <= 2 ^ 53 ->
  exists a b : Version,
    extractVersion (VString ("run-" +:+ d1 +:+ "-" +:+ d2)) = Some a /\
    extractVersion (VString ("run-" +:+ e1 +:+ "-" +:+ e2)) = Some b /\
    sign (compareVersions a b)
    = Some (match decimal_value d1 ?= decimal_value e1 with
            | Eq => decimal_value d2 ?= decimal_value e2
            | c => c
            end) /\
    (older_than b a = true <->
     decimal_value d1 < decimal_value e1 \/
     (decimal_value d1 = decimal_value e1 /\ decimal_value d2 < decimal_value e2)).
Proof.
  intros Hd1 Hd2 He1 He2 Hv1 Hv2 Hw1 Hw2.
  pose proof (decimal_value_nonneg d1 (proj2 Hd1)).
  pose proof (decimal_value_nonneg d2 (proj2 Hd2)).
  pose proof (decimal_value_nonneg e1 (proj2 He1)).
  pose proof (decimal_value_nonneg e2 (proj2 He2)).
  exists (mkVersion ("run-" +:+ d1 +:+ "-" +:+ d2)
                    (Fin (decimal_value d1)) (Fin (decimal_value d2))),
    (mkVersion ("run-" +:+ e1 +:+ "-" +:+ e2)
               (Fin (decimal_value e1)) (Fin (decimal_value e2))).
  split.
  { apply extractVersion_char. eexists _, d1, d2.
    repeat (split; [reflexivity || assumption|]). now rewrite !of_Z_exact by lia. }
  split.
  { apply extractVersion_char. eexists _, e1, e2.
    repeat (split; [reflexivity || assumption|]). now rewrite !of_Z_exact by lia. }
  pose proof (compareVersions_fin ("run-" +:+ d1 +:+ "-" +:+ d2)
                ("run-" +:+ e1 +:+ "-" +:+ e2)
                (decimal_value d1) (decimal_value d2)
                (decimal_value e1) (decimal_value e2)) as Hc.
  split; [exact Hc|].
  unfold older_than.
  destruct (compareVersions _ _) as [|[]|z]; simpl in Hc |- *;
    try discriminate Hc; injection Hc as Hc.
  - destruct (Z.compare_spec (decimal_value d1) (decimal_value e1));
      destruct (Z.compare_spec (decimal_value d2) (decimal_value e2));
      try discriminate Hc; split; intros; try lia; reflexivity.
  - destruct (Z.compare_spec (decimal_value d1) (decimal_value e1));
      destruct (Z.compare_spec (decimal_value d2) (decimal_value e2));
      try discriminate Hc; split; intros; try lia; discriminate.
  - destruct (Z.ltb_spec z 0) as [Hz|Hz];
      destruct (Z.compare_spec (decimal_value d1) (decimal_value e1));
      destruct (Z.compare_spec (decimal_value d2) (decimal_value e2));
      destruct (Z.compare_spec z 0);
      try discriminate Hc; split; intros; try lia; try reflexivity; try discriminate.
Qed.

Lemma parsed_identifiers_order_by_number_witness :
  digit_group "9" /\ digit_group "1" /\ digit_group "010" /\
  decimal_value "9" <= 2 ^ 53 /\ decimal_value "1" <= 2 ^ 53 /\
  decimal_value "010" <= 2 ^ 53 /\
  exists a b : Version,
    extractVersion (VString "run-9-1") = Some a /\
    extractVersion (VString "run-010-1") = Some b /\
    sign (compareVersions a b) = Some Lt /\
    older_than b a = true.
Proof.
  assert (G1 : digit_group "9") by (split; [discriminate | reflexivity]).
  assert (G2 : digit_group "1") by (split; [discriminate | reflexivity]).
  assert (G3 : digit_group "010") by (split; [discriminate | reflexivity]).
  assert (V1 : decimal_value "9" <= 2 ^ 53) by (apply Z.leb_le; reflexivity).
  assert (V2 : decimal_value "1" <= 2 ^ 53) by (apply Z.leb_le; reflexivity).
  assert (V3 : decimal_value "010" <= 2 ^ 53) by (apply Z.leb_le; reflexivity).
  repeat (split; [assumption|]).
  destruct (parsed_identifiers_order_by_number "9" "1" "010" "1" G1 G2 G3 G2 V1 V2 V3 V2)
    as (a & b & Ha & Hb & Hs & Ho).
  exists a, b. split; [exact Ha|]. split; [exact Hb|]. split; [exact Hs|].
  apply Ho. left. vm_compute. reflexivity.
Defined.

(** ** Listed versions and their prefixes *)

Lemma substring_skip (p s : string) (n m : nat) :
  substring (String.length p + n) m (p +:+ s) = substring n m s.
Proof. induction p as [|c p IH]; simpl; auto. Qed.

Lemma substring_all (s t : string) : substring 0 (String.length s) (s +:+ t) = s.
Proof. induction s as [|c s IH]; simpl; [now destruct t | now rewrite IH]. Qed.

Lemma trimPrefix_name (folder name : string) :
  trimPrefix folder {| Prefix := Some (folder +:+ "/" +:+ name +:+ "/") |} = name.
Proof.
  unfold trimPrefix, slice_to_last. cbn [Prefix].
  assert (Hlen : String.length (folder +:+ "/" +:+ name +:+ "/")
                 = (String.length folder + 1 + String.length name + 1)%nat).
  { rewrite !append_length. simpl. lia. }
  rewrite Hlen.
  replace (String.length folder + 1 + String.length name + 1 - 1
           - (String.length folder + 1))%nat with (String.length name) by lia.
  rewrite substring_skip.
  change ("/" +:+ name +:+ "/") with (String "/" (name +:+ "/")).
  cbn [substring]. apply substring_all.
Qed.

(** X13.  [trimPrefix] and the prefix [tagOldVersions] builds are inverse
    to each other: from the common prefix [<folder>/<name>/] of a listing,
    [trimPrefix] gives [<name>]; a page of such common prefixes gives the
    Versions of the names that parse, in listing order; and the prefix
    built for each of those Versions is the common prefix it was listed
    under. *)
Theorem listed_versions_keep_their_prefix
        (folder : string) (names : list string)
        (contents : option (list S3Object)) (truncated : option bool)
        (next : option string) :
  let group := fun name => {| Prefix := Some (folder +:+ "/" +:+ name +:+ "/") |} in
  let page := {| Contents := contents; CommonPrefixes := Some (map group names);
                 IsTruncated := truncated; NextMarker := next |} in
  (forall name, trimPrefix folder (group name) = name) /\
  page_versions folder page = omap (fun name => extractVersion (VString name)) names /\
  (forall v, v ∈ page_versions folder page ->
             version v ∈ names /\
             {| Prefix := Some (version_prefix folder v) |} ∈ map group names).
Proof.
  intros group page.
  assert (Htrim : forall name, trimPrefix folder (group name) = name)
    by (intros name; apply trimPrefix_name).
  assert (Hpage : page_versions folder page
                  = omap (fun name => extractVersion (VString name)) names).
  { unfold page_versions, page. cbn [CommonPrefixes nullish].
    induction names as [|name names IH]; [reflexivity|].
    cbn [map omap list_omap]. rewrite Htrim. now rewrite <- IH. }
  split; [exact Htrim|]. split; [exact Hpage|].
  intros v Hv. rewrite Hpage in Hv.
  apply list_elem_of_omap in Hv as (name & Hin & Hname).
  assert (Hid : version v = name).
  { apply extractVersion_char in Hname as (str & d1 & d2 & Hs & _ & _ & _ & ->).
    now injection Hs as <-. }
  rewrite Hid. split; [assumption|].
  apply list_elem_of_fmap. exists name. split; [|assumption].
  unfold version_prefix. now rewrite Hid.
Qed.
(** ** The pipeline on the store *)

Lemma ltb_irrefl (a : string) : String.ltb a a = false.
Proof.
  unfold String.ltb. pose proof (String.compare_antisym a a) as H.
  destruct (String.compare a a); try reflexivity; discriminate.
Qed.

Lemma ltb_asym (a b : string) : String.ltb a b = true -> String.ltb b a = false.
Proof.
  unfold String.ltb. rewrite (String.compare_antisym b a).
  destruct (String.compare a b); simpl; congruence.
Qed.

Lemma increasing_app (A B : list string) :
  increasing (A ++ B) <->
  increasing A /\ increasing B /\
  forall a b, a ∈ A -> b ∈ B -> String.ltb a b = true.
Proof.
  induction A as [|x A IH]; simpl.
  - split; [intros HB | tauto]. repeat split; try assumption.
    intros a b Ha. inversion Ha.
  - rewrite Forall_app, IH. split.
    + intros ((HxA & HxB) & HA & HB & HAB). repeat split; try assumption.
      intros a b Ha Hb. apply elem_of_cons in Ha as [->|Ha]; [|auto].
      rewrite Forall_forall in HxB. auto.
    + intros ((HxA & HA) & HB & HAB). repeat split; try assumption.
      * apply Forall_forall. intros b Hb. apply HAB; [left | assumption].
      * intros a b Ha Hb. apply HAB; [now right | assumption].
Qed.

Lemma increasing_filter (f : string -> bool) (l : list string) :
  increasing l -> increasing (List.filter f l).
Proof.
  induction l as [|x l IH]; simpl; [auto|]. intros [Hx Hl].
  destruct (f x); simpl; [|auto]. split; [|auto].
  apply Forall_forall. intros y Hy. rewrite Forall_forall in Hx. apply Hx.
  apply list_elem_of_In, filter_In in Hy as [Hy _]. now apply list_elem_of_In.
Qed.

Lemma increasing_NoDup (l : list string) : increasing l -> NoDup l.
Proof.
  induction l as [|x l IH]; simpl; [constructor|]. intros [Hx Hl].
  constructor; [|auto]. intros Hin. rewrite Forall_forall in Hx.
  specialize (Hx x Hin). now rewrite ltb_irrefl in Hx.
Qed.

(** In an increasing list, what follows [m] is what is greater than
    [m]. *)
Lemma filter_after (A B : list string) (m : string) :
  increasing (A ++ m :: B) ->
  List.filter (String.ltb m) (A ++ m :: B) = B.
Proof.
  intros Hinc. apply increasing_app in Hinc as (HA & [HmB HB] & HAB).
  rewrite List.filter_app. simpl. rewrite ltb_irrefl.
  assert (H1 : List.filter (String.ltb m) A = []).
  { clear HA. induction A as [|a A IH]; simpl; [reflexivity|].
    rewrite (ltb_asym a m) by (apply HAB; [left | left]).
    apply IH. intros x y Hx Hy. apply HAB; [now right | assumption]. }
  assert (H2 : List.filter (String.ltb m) B = B).
  { clear HB HAB. induction B as [|b B IH]; simpl; [reflexivity|].
    apply Forall_cons in HmB as [Hb HmB]. rewrite Hb. f_equal. now apply IH. }
  now rewrite H1, H2.
Qed.

Lemma find_object_elem (key : string) (objs : list (string * StoredObject)) :
  key ∈ map fst objs <-> exists o, find_object key objs = Some o.
Proof.
  induction objs as [|[k o] objs IH]; simpl.
  - split; [intros H; inversion H | intros [o H]; discriminate].
  - destruct (String.eqb_spec k key) as [->|Hne].
    + split; [eauto | left].
    + rewrite elem_of_cons, IH. split; [intros [H|H]; [congruence | assumption] | auto].
Qed.

Lemma put_object_keys (key : string) (o o' : StoredObject)
      (objs : list (string * StoredObject)) :
  increasing (map fst objs) ->
  find_object key objs = Some o -> map fst (put_object key o' objs) = map fst objs.
Proof.
  induction objs as [|[k o0] objs IH]; simpl; [discriminate|].
  intros [Hk Hinc].
  destruct (String.eqb_spec k key) as [->|Hne]; [reflexivity|].
  intros Hf. destruct (String.ltb key k) eqn:Hlt.
  - exfalso. rewrite Forall_forall in Hk.
    assert (Hin : key ∈ map fst objs) by (apply find_object_elem; eauto).
    specialize (Hk key Hin). rewrite (ltb_asym _ _ Hlt) in Hk. discriminate.
  - simpl. f_equal. now apply IH.
Qed.

Lemma same_frame_refl (s : Store) : same_frame s s.
Proof. repeat split. Qed.

Lemma same_frame_trans (s1 s2 s3 : Store) :
  same_frame s1 s2 -> same_frame s2 s3 -> same_frame s1 s3.
Proof. intros (A1 & A2 & A3) (B1 & B2 & B3). repeat split; congruence. Qed.

Lemma same_frame_tick (s : Store) : same_frame s (tick s).
Proof. repeat split. Qed.

Lemma marks_nothing (s s' : Store) :
  (forall key, find_object key (objects s') = find_object key (objects s)) ->
  marks [] s s'.
Proof.
  intros Hsame key o Hk. split.
  - intros Hin. inversion Hin.
  - intros _. now rewrite Hsame.
Qed.

Lemma marks_compose (P Q : list string) (s s1 s2 : Store) :
  (forall key, key ∈ P -> key ∉ Q) ->
  marks P s s1 -> marks Q s1 s2 -> marks (P ++ Q) s s2.
Proof.
  intros Hdis HP HQ key o Hk. destruct (HP key o Hk) as [Hin Hout].
  destruct (decide (key ∈ P)) as [HkP|HkP].
  - destruct (Hin HkP) as (now & time & H1).
    destruct (HQ key _ H1) as [_ Hq]. split.
    + intros _. exists now, time. apply Hq. now apply Hdis.
    + intros Hnot. exfalso. apply Hnot, elem_of_app. now left.
  - specialize (Hout HkP). destruct (HQ key o Hout) as [Hq1 Hq2]. split.
    + intros Hin'. apply elem_of_app in Hin' as [Hin'|Hin']; [contradiction | auto].
    + intros Hnot. apply Hq2. intros HkQ. apply Hnot, elem_of_app. now right.
Qed.

Lemma marks_same_keys (P Q : list string) (s s' : Store) :
  (forall key, key ∈ P <-> key ∈ Q) -> marks P s s' -> marks Q s s'.
Proof.
  intros Heq HP key o Hk. destruct (HP key o Hk) as [Hin Hout]. split.
  - intros HQ. apply Hin, Heq, HQ.
  - intros HQ. apply Hout. intros HP'. apply HQ, Heq, HP'.
Qed.

Lemma NoDup_submseteq_l {A : Type} (l k : list A) : NoDup k -> l ⊆+ k -> NoDup l.
Proof.
  intros Hk Hsub. apply submseteq_Permutation in Hsub as [k' Hp].
  rewrite Hp in Hk. now apply NoDup_app in Hk as [Hl _].
Qed.

(** What the store makes of the copy command of a mark-operation that
    was built from the answer for the object as it is. *)
Lemma store_copy_marks (s : Store) (key now : string) (o : StoredObject) :
  find_object key (objects s) = Some o ->
  store_copy (mark_command (bucket_name s) key
                           {| ContentType := content_type o;
                              CacheControl := cache_control o;
                              Metadata := Some (user_metadata o) |} now) s
  = (inr tt,
     {| bucket_name := bucket_name s;
        objects := put_object key (marked o now (clock s)) (objects s);
        clock := clock s + 1; page_size := page_size s |}).
Proof.
  intros Hfind. unfold store_copy.
  cbn [copy_Bucket CopySource mark_command].
  rewrite String.eqb_refl.
  rewrite (copy_source_key_roundtrip s (bucket_name s) key eq_refl), Hfind.
  reflexivity.
Qed.

(** The store under an interleaving of mark-operations for distinct keys
    it holds: an operation in flight holds the answer for its object,
    which is as it was; what has settled has fulfilled, and its object
    is marked; nothing else has changed. *)
Lemma interleaving_store (max : Z) (w0 w : session Store) (pulled : list string)
      (flight : list (string * (string * (Error + HeadObjectOutput))))
      (log : list (string * (Error + unit))) :
  increasing (store_keys (remote w0)) ->
  interleaving (start_key (bucket_name (remote w0))) (settle_key (bucket_name (remote w0)))
               max w0 pulled flight log w ->
  NoDup pulled ->
  (forall key, key ∈ pulled -> key ∈ store_keys (remote w0)) ->
  same_frame (remote w0) (remote w) /\
  (forall key p,
      (key, p) ∈ flight ->
      exists o,
        find_object key (objects (remote w0)) = Some o /\
        find_object key (objects (remote w)) = Some o /\
        p = (key, inr {| ContentType := content_type o; CacheControl := cache_control o;
                         Metadata := Some (user_metadata o) |})) /\
  (forall key r, (key, r) ∈ log -> r = inr tt) /\
  marks (map fst log) (remote w0) (remote w).
Proof.
  intros Hinc Hil.
  induction Hil as [|pulled flight log w key Hil IH Hlt
                    |pulled before after log w key p Hil IH]; intros Hnd Hkeys.
  - split; [apply same_frame_refl|].
    split; [intros key p Hin; inversion Hin|].
    split; [intros key r Hin; inversion Hin|].
    now apply marks_nothing.
  - apply NoDup_app in Hnd as (Hnd & Hdis & _).
    destruct IH as (Hframe & Hflight & Hlog & Hmarks);
      [exact Hnd | intros k Hk; apply Hkeys, elem_of_app; now left|].
    assert (Hnew : key ∉ pulled).
    { intros Hin. apply (Hdis key Hin). left. }
    pose proof (interleaving_ops _ _ _ _ _ _ _ _ Hil) as Hops.
    destruct (proj1 (find_object_elem key (objects (remote w0)))) as [o Ho].
    { apply Hkeys, elem_of_app. right. left. }
    assert (Ho' : find_object key (objects (remote w)) = Some o).
    { apply (Hmarks key o Ho). intros Hin. apply Hnew. rewrite Hops.
      apply elem_of_app. now left. }
    rewrite start_key_session. cbn [fst snd remote].
    cbn [head_object store_remote]. unfold store_head. cbn [head_Bucket head_Key fst snd].
    destruct Hframe as (Hb & Hps & Hk). rewrite Hb, String.eqb_refl, Ho'.
    split; [repeat split; assumption|].
    split; [|split; [exact Hlog | exact Hmarks]].
    intros k p Hin. apply elem_of_app in Hin as [Hin|Hin].
    + apply Hflight, Hin.
    + apply list_elem_of_singleton in Hin. injection Hin as -> ->. eauto.
  - destruct IH as (Hframe & Hflight & Hlog & Hmarks); [exact Hnd | exact Hkeys|].
    pose proof (interleaving_ops _ _ _ _ _ _ _ _ Hil) as Hops.
    assert (Hnd' : NoDup (map fst log ++ map fst (before ++ (key, p) :: after)))
      by now rewrite <- Hops.
    apply NoDup_app in Hnd' as (Hnd1 & Hdis & Hnd2).
    rewrite map_app in Hnd2. cbn [map fst] in Hnd2.
    apply NoDup_app in Hnd2 as (Hb1 & Hb2 & Hb3).
    apply NoDup_cons in Hb3 as [Hb3 Hb4].
    destruct (Hflight key p) as (o & Ho & Ho' & ->);
      [apply elem_of_app; right; left|].
    pose proof (settle_key_cases (bucket_name (remote w0)) key
                  (inr {| ContentType := content_type o; CacheControl := cache_control o;
                          Metadata := Some (user_metadata o) |}) w) as Hset.
    cbv zeta in Hset. rewrite Hset. clear Hset. cbn [fst snd remote].
    destruct Hframe as (Hb & Hps & Hk).
    cbn [copy_object to_iso_string_now store_remote].
    rewrite <- Hb, (store_copy_marks (remote w) key _ o Ho'). cbn [fst snd].
    assert (Hother : forall k, k <> key ->
               find_object k (put_object key (marked o (store_now (remote w))
                                                     (clock (remote w)))
                                         (objects (remote w)))
               = find_object k (objects (remote w))).
    { intros k Hne. now apply find_put_other. }
    split; [|split; [|split]].
    + repeat split; try assumption. unfold store_keys. cbn [objects].
      change (map fst (objects (remote w0))) with (store_keys (remote w0)).
      rewrite <- Hk. apply (put_object_keys key o); [|exact Ho'].
      fold (store_keys (remote w)). now rewrite Hk.
    + intros k p Hin.
      destruct (Hflight k p) as (o1 & H1 & H2 & H3).
      { apply elem_of_app in Hin as [Hin|Hin]; apply elem_of_app;
          [now left | right; now right]. }
      exists o1. split; [exact H1|]. split; [|exact H3]. cbn [objects].
      rewrite Hother; [exact H2|]. intros ->.
      apply elem_of_app in Hin as [Hin|Hin].
      * apply (Hb2 key); [|left]. apply list_elem_of_fmap. now exists (key, p).
      * apply Hb3. apply list_elem_of_fmap. now exists (key, p).
    + intros k r Hin. apply elem_of_app in Hin as [Hin|Hin]; [eauto|].
      apply list_elem_of_singleton in Hin. now injection Hin as _ ->.
    + rewrite map_app. cbn [map fst]. intros k o1 Hk1.
      destruct (Hmarks k o1 Hk1) as [Hin Hout]. cbn [objects]. split.
      * intros Hk2. destruct (decide (k = key)) as [->|Hne].
        -- rewrite find_put_same. rewrite Ho in Hk1. injection Hk1 as <-. eauto.
        -- rewrite Hother by assumption. apply Hin.
           apply elem_of_app in Hk2 as [Hk2|Hk2]; [assumption|].
           apply list_elem_of_singleton in Hk2. contradiction.
      * intros Hk2. rewrite Hother.
        -- apply Hout. intros Hk3. apply Hk2, elem_of_app. now left.
        -- intros ->. apply Hk2, elem_of_app. right. left.
Qed.

(** Draining a page of distinct keys the store holds, under any
    schedule: it completes, the objects at those keys are marked, and
    one head command and one copy command were sent for each key. *)
Lemma drain_store (oracle : session Store -> nat -> nat) (parallel : Z)
      (page : ListObjectsOutput) (w : session Store) :
  1 <= parallel ->
  increasing (store_keys (remote w)) ->
  NoDup (page_keys page) ->
  (forall key, key ∈ page_keys page -> key ∈ store_keys (remote w)) ->
  exists w' cmds,
    drain oracle (bucket_name (remote w)) (Fin parallel) page w = (Ok tt, w') /\
    same_frame (remote w) (remote w') /\
    marks (page_keys page) (remote w) (remote w') /\
    sent w' = sent w ++ cmds /\ info_log w' = info_log w /\
    head_keys cmds = page_keys page /\ copy_keys cmds ≡ₚ page_keys page /\
    Forall (marking_command (bucket_name (remote w))) cmds.
Proof.
  intros Hmax Hinc Hnd Hkeys.
  destruct (drain_cases oracle (bucket_name (remote w)) parallel page w Hmax)
    as (pulled & flight & log & Hil & Hpre & Hcase).
  destruct (interleaving_store _ _ _ _ _ _ Hinc Hil) as (Hframe & _ & Hlog & Hmarks).
  { destruct Hpre as [k Hk]. rewrite Hk in Hnd. now apply NoDup_app in Hnd as (Hnd & _). }
  { intros key Hkey. apply Hkeys. eapply elem_of_prefix; eassumption. }
  destruct (interleaving_commands _ _ _ _ _ _ _ Hil)
    as (cmds & Hs & Hi & Hh & Hm & _ & _ & failed & Hp & Hfail).
  pose proof (interleaving_ops _ _ _ _ _ _ _ _ Hil) as Hops.
  destruct Hcase as [(Hr & -> & -> & _)|(_ & key & e & Hin)].
  2:{ specialize (Hlog _ _ Hin). discriminate. }
  simpl in Hops. rewrite app_nil_r in Hops.
  destruct failed as [|key failed].
  2:{ destruct (Hfail key) as [e He]; [left|]. specialize (Hlog _ _ He). discriminate. }
  rewrite app_nil_r in Hp.
  destruct (drain oracle (bucket_name (remote w)) (Fin parallel) page w) as [r w'].
  cbn [fst snd] in *. subst r. exists w', cmds.
  split; [reflexivity|]. split; [exact Hframe|]. split.
  { eapply marks_same_keys; [|exact Hmarks]. intros key. now rewrite Hops. }
  split; [exact Hs|]. split; [exact Hi|]. split; [exact Hh|].
  split; [now rewrite Hops, Hp | exact Hm].
Qed.

(** *** Listings of the store without a delimiter *)

Lemma prefix_strip (p k : string) :
  String.prefix p k = true -> exists r, strip_prefix p k = Some r.
Proof.
  revert k. induction p as [|c p IH]; intros [|d k] Hk; simpl; eauto.
  - now rewrite prefix_empty in Hk.
  - rewrite prefix_cons in Hk. destruct (ascii_dec c d) as [->|]; [|discriminate].
    rewrite Ascii.eqb_refl. auto.
Qed.

Lemma list_entry_plain (p k : string) :
  list_entry p None k = if String.prefix p k then Some (false, k) else None.
Proof.
  unfold list_entry. destruct (String.prefix p k) eqn:Hp.
  - destruct (prefix_strip p k Hp) as [r ->]. reflexivity.
  - destruct (strip_prefix p k) as [r|] eqn:Hs; [|reflexivity].
    apply strip_prefix_prefix in Hs. congruence.
Qed.

Lemma entries_plain (p : string) (objs : list (string * StoredObject)) :
  omap (fun ko : string * StoredObject => list_entry p None (fst ko)) objs
  = map (pair false) (List.filter (String.prefix p) (map fst objs)).
Proof.
  induction objs as [|[k o] objs IH]; [reflexivity|].
  cbn [omap list_omap map fst List.filter]. rewrite list_entry_plain.
  destruct (String.prefix p k); cbn [map]; now rewrite <- IH.
Qed.

Lemma dedupe_increasing (K : list string) :
  increasing K -> dedupe (map (pair false) K) = map (pair false) K.
Proof.
  induction K as [|x [|y K] IH]; intros Hinc; try reflexivity.
  cbn [map dedupe]. destruct Hinc as [Hx Hinc].
  apply Forall_cons in Hx as [Hxy _].
  rewrite bool_decide_eq_false_2.
  - f_equal. apply IH, Hinc.
  - intros Heq. injection Heq as ->. now rewrite ltb_irrefl in Hxy.
Qed.

Lemma filter_pair (f : string -> bool) (K : list string) :
  List.filter (fun e : bool * string => f (snd e)) (map (pair false) K)
  = map (pair false) (List.filter f K).
Proof.
  induction K as [|x K IH]; [reflexivity|]. cbn [map List.filter snd].
  destruct (f x); cbn [map]; now rewrite IH.
Qed.

Lemma omap_keys (L : list string) :
  omap (fun e : bool * string => if fst e then None else Some {| Key := Some (snd e) |})
       (map (pair false) L)
  = map (fun k => {| Key := Some k |}) L.
Proof.
  induction L as [|x L IH]; [reflexivity|].
  cbn [map omap list_omap fst snd]. now rewrite IH.
Qed.

Lemma omap_groups (L : list string) :
  omap (fun e : bool * string => if fst e then Some {| Prefix := Some (snd e) |} else None)
       (map (pair false) L)
  = [].
Proof. induction L as [|x L IH]; [reflexivity|]. cbn [map omap list_omap fst snd]. exact IH. Qed.

Lemma page_keys_of (L : list string) groups truncated next :
  Forall (fun k => k <> "") L ->
  page_keys {| Contents := match L with
                           | [] => None
                           | _ => Some (map (fun k => {| Key := Some k |}) L)
                           end;
               CommonPrefixes := groups; IsTruncated := truncated; NextMarker := next |}
  = L.
Proof.
  intros HL. unfold page_keys. cbn [Contents].
  assert (H : omap entry_key (map (fun k => {| Key := Some k |}) L) = L).
  { induction HL as [|k L Hk HL IH]; [reflexivity|].
    cbn [map omap list_omap]. unfold entry_key at 1. cbn [Key].
    destruct k as [|c k]; [congruence|]. now rewrite IH. }
  destruct L; [reflexivity|]. exact H.
Qed.

Lemma under_prefix_nonempty (p : string) (keys : list string) :
  p <> "" -> Forall (fun k => k <> "") (List.filter (String.prefix p) keys).
Proof.
  intros Hp. apply Forall_forall. intros k Hk.
  apply list_elem_of_In, filter_In in Hk as [_ Hk]. intros ->.
  destruct p; [congruence|]. now rewrite prefix_empty in Hk.
Qed.

(** What the store answers to a listing without delimiter: the first
    keys, in order, of those under the prefix and after the marker. *)
Lemma store_list_plain (s : Store) (p : string) (marker : option string)
      (max_keys : option nat) :
  increasing (store_keys s) -> p <> "" ->
  let K := List.filter (String.prefix p) (store_keys s) in
  let Km := match marker with
            | Some m => List.filter (String.ltb m) K
            | None => K
            end in
  let n := match max_keys with
           | Some n => Nat.min n (page_size s)
           | None => page_size s
           end in
  exists page,
    list_objects {| list_Bucket := bucket_name s; list_Prefix := Some p;
                    Delimiter := None; Marker := marker; MaxKeys := max_keys |} s
    = (inr page, tick s) /\
    Contents page = match take n Km with
                    | [] => None
                    | k :: l => Some (map (fun k => {| Key := Some k |}) (k :: l))
                    end /\
    page_keys page = take n Km /\
    IsTruncated page = Some (n <? length Km)%nat /\
    NextMarker page = None.
Proof.
  intros Hinc Hp K Km n.
  cbn [list_objects store_remote]. unfold store_list.
  cbn [list_Bucket list_Prefix Delimiter Marker MaxKeys nullish].
  rewrite String.eqb_refl, entries_plain. fold (store_keys s). fold K.
  rewrite (dedupe_increasing K) by (apply increasing_filter, Hinc).
  assert (Hf : match marker with
               | Some m => List.filter (fun e : bool * string => String.ltb m (snd e))
                                       (map (pair false) K)
               | None => map (pair false) K
               end = map (pair false) Km).
  { unfold Km. destruct marker; [apply filter_pair | reflexivity]. }
  rewrite Hf. fold n.
  change (take n (map (pair false) Km)) with (take n (pair false <$> Km)).
  rewrite <- fmap_take.
  change (pair false <$> take n Km) with (map (pair false) (take n Km)).
  rewrite omap_keys, omap_groups, length_map.
  eexists. split; [reflexivity|]. cbn [Contents IsTruncated NextMarker].
  assert (Hne : Forall (fun k => k <> "") (take n Km)).
  { apply Forall_forall. intros k Hk. apply elem_of_take in Hk as (i & Hi & _).
    apply list_elem_of_lookup_2 in Hi.
    assert (Hk : k ∈ K).
    { unfold Km in Hi. destruct marker; [|assumption].
      apply list_elem_of_In, filter_In in Hi as [Hi _]. now apply list_elem_of_In. }
    pose proof (under_prefix_nonempty p (store_keys s) Hp) as HK.
    rewrite Forall_forall in HK. now apply HK. }
  split; [|split; [|split]].
  - now destruct (take n Km).
  - rewrite <- (page_keys_of (take n Km) None (Some (n <? length Km)%nat) None Hne) at 2.
    f_equal. f_equal. now destruct (take n Km).
  - reflexivity.
  - now destruct (last (map (pair false) (take n Km))).
Qed.

Lemma last_key_of (page : ListObjectsOutput) (L : list string) :
  Contents page = match L with
                  | [] => None
                  | k :: l => Some (map (fun k => {| Key := Some k |}) (k :: l))
                  end ->
  last_key page = last L.
Proof.
  intros Hc. unfold last_key. rewrite Hc. destruct L as [|k L]; [reflexivity|].
  change (map (fun k0 => {| Key := Some k0 |}) (k :: L))
    with ((fun k0 => {| Key := Some k0 |}) <$> (k :: L)).
  rewrite fmap_last. now destruct (last (k :: L)).
Qed.

Lemma head_keys_app (a b : list command) : head_keys (a ++ b) = head_keys a ++ head_keys b.
Proof. unfold head_keys. apply omap_app. Qed.

Lemma copy_keys_app (a b : list command) : copy_keys (a ++ b) = copy_keys a ++ copy_keys b.
Proof. unfold copy_keys. apply omap_app. Qed.

Section StoreLoop.

Variable oracle : session Store -> nat -> nat.
Variable prefix : string.
Variable parallel : Z.
Hypothesis parallel_pos : 1 <= parallel.
Hypothesis prefix_nonempty : prefix <> "".

(** The loop of [prefixTaggedAsOld] from a marker on: [D] are the keys
    under the prefix up to the marker, [R] the keys after it. *)
Lemma prefixTaggedAsOld_from_store (pages : nat) :
  forall (marker : option string) (w : session Store) (D R : list string),
    increasing (store_keys (remote w)) ->
    (1 <= page_size (remote w))%nat ->
    List.filter (String.prefix prefix) (store_keys (remote w)) = D ++ R ->
    R = match marker with
        | Some m => List.filter (String.ltb m) (D ++ R)
        | None => D ++ R
        end ->
    (length R < pages)%nat ->
    exists w' cmds,
      prefixTaggedAsOld_from oracle pages (bucket_name (remote w)) prefix (Fin parallel)
                             marker w
      = (Ok tt, w') /\
      same_frame (remote w) (remote w') /\
      marks R (remote w) (remote w') /\
      sent w' = sent w ++ cmds /\ info_log w' = info_log w /\
      head_keys cmds = R /\ copy_keys cmds ≡ₚ R.
Proof.
  induction pages as [|pages IH]; intros marker w D R Hinc Hsize HK HR Hlen; [lia|].
  cbn [prefixTaggedAsOld_from].
  destruct (store_list_plain (remote w) prefix marker None Hinc prefix_nonempty)
    as (page & Hlist & Hcont & Hkeys & Htrunc & Hnext).
  cbv zeta in Hcont, Hkeys, Htrunc. rewrite HK, <- HR in Hcont, Hkeys, Htrunc.
  set (n := page_size (remote w)) in *.
  unfold bind at 1. unfold send_list, send, request, await. rewrite Hlist.
  set (listing := ListObjectsCommand _).
  set (w1 := {| remote := tick (remote w); sent := sent w ++ [listing];
                info_log := info_log w |}).
  assert (HincK : increasing (D ++ R)).
  { rewrite <- HK. apply increasing_filter, Hinc. }
  assert (HndR : NoDup R).
  { apply increasing_NoDup. now apply increasing_app in HincK as (_ & HR' & _). }
  destruct (drain_store oracle parallel page w1 parallel_pos)
    as (w2 & c2 & Hdrain & Hframe & Hmark & Hs2 & Hi2 & Hh2 & Hc2 & _).
  { exact Hinc. }
  { rewrite Hkeys. eapply sublist_NoDup; [exact HndR | apply sublist_take]. }
  { intros key Hkey. rewrite Hkeys in Hkey.
    apply (subseteq_take n R) in Hkey.
    assert (Hin : key ∈ D ++ R) by (apply elem_of_app; now right).
    rewrite <- HK in Hin. apply list_elem_of_In, filter_In in Hin as [Hin _].
    now apply list_elem_of_In. }
  cbn [remote w1 tick bucket_name sent info_log] in Hdrain, Hs2, Hi2.
  unfold bind at 1. rewrite Hdrain. rewrite Hkeys in Hmark, Hh2, Hc2.
  rewrite Htrunc, Hnext. cbn [nullish].
  destruct (Nat.ltb_spec n (length R)) as [Hmore|Hall].
  - (* more pages *)
    rewrite (last_key_of page (take n R) Hcont).
    destruct (last (take n R)) as [m|] eqn:Hlast.
    2:{ exfalso. apply last_None in Hlast.
        apply (f_equal length) in Hlast. rewrite length_take in Hlast.
        simpl in Hlast. lia. }
    apply last_Some in Hlast as [P' HP'].
    pose proof Hframe as (Hb & Hps & Hkk).
    cbn [remote w1 tick bucket_name page_size] in Hb, Hps.
    assert (Hkk' : store_keys (remote w2) = store_keys (remote w)) by exact Hkk.
    assert (Hsplit : D ++ R = (D ++ P') ++ m :: drop n R).
    { rewrite <- (take_drop n R) at 1. rewrite HP', <- !app_assoc. reflexivity. }
    destruct (IH (Some m) w2 (D ++ take n R) (drop n R))
      as (w' & c3 & Hrun & Hframe' & Hmark' & Hs3 & Hi3 & Hh3 & Hc3).
    + now rewrite Hkk'.
    + rewrite Hps. exact Hsize.
    + rewrite Hkk', HK, <- app_assoc, take_drop. reflexivity.
    + rewrite <- app_assoc, take_drop, Hsplit. symmetry. apply filter_after.
      now rewrite <- Hsplit.
    + rewrite length_drop. lia.
    + rewrite Hb in Hrun. exists w', ([listing] ++ c2 ++ c3).
      split; [exact Hrun|]. split.
      { eapply same_frame_trans; [|exact Hframe'].
        eapply same_frame_trans; [apply same_frame_tick | exact Hframe]. }
      split.
      { rewrite <- (take_drop n R) at 1.
        eapply marks_compose; [|exact Hmark|exact Hmark'].
        intros key H1 H2. rewrite <- (take_drop n R) in HndR.
        apply NoDup_app in HndR as (_ & Hdis & _). now apply (Hdis key). }
      split; [rewrite Hs3, Hs2, <- !app_assoc; reflexivity|].
      split; [now rewrite Hi3, Hi2|].
      rewrite !head_keys_app, !copy_keys_app, Hh2, Hh3, Hc2, Hc3.
      cbn [head_keys copy_keys omap list_omap listing app].
      rewrite take_drop. split; reflexivity.
  - (* the last page *)
    rewrite take_ge in Hmark, Hh2, Hc2 by assumption.
    exists w2, ([listing] ++ c2). split; [reflexivity|]. split.
    { eapply same_frame_trans; [apply same_frame_tick | exact Hframe]. }
    split; [exact Hmark|].
    split; [rewrite Hs2, <- !app_assoc; reflexivity|].
    split; [exact Hi2|].
    rewrite !head_keys_app, !copy_keys_app, Hh2, Hc2.
    cbn [head_keys copy_keys omap list_omap listing app]. split; reflexivity.
Qed.

End StoreLoop.

Lemma existsb_filter (f : string -> bool) (l : list string) :
  existsb f l = match List.filter f l with [] => false | _ :: _ => true end.
Proof.
  induction l as [|x l IH]; [reflexivity|]. simpl. destruct (f x); [reflexivity | exact IH].
Qed.

Lemma prefixTaggedAsOld_from_scans (oracle : session Store -> nat -> nat) (pages : nat)
      (bucket prefix : string) (parallel : number) :
  forall marker,
    emits (scan_command prefix) (fun _ => False)
          (prefixTaggedAsOld_from oracle pages bucket prefix parallel marker).
Proof.
  induction pages as [|pages IH]; intros marker; simpl.
  - apply emits_out_of_fuel.
  - apply emits_bind; [apply emits_send; simpl; auto|].
    intros data. apply emits_bind.
    + eapply emits_weaken; [| |apply drain_emits]; [|auto]. now intros [].
    + intros _. destruct (nullish (IsTruncated data) false); [apply IH | apply emits_ret].
Qed.

Lemma existsb_old_tag (tags : list (string * string)) :
  existsb is_old_tag
          (map (fun kv : string * string =>
                  {| tag_Key := Some (fst kv); tag_Value := Some (snd kv) |}) tags)
  = bool_decide (("old", "true") ∈ tags).
Proof.
  induction tags as [|[k v] tags IH]; [reflexivity|].
  cbn [map existsb]. rewrite IH. unfold is_old_tag. cbn [tag_Key tag_Value fst snd].
  destruct (String.eqb_spec k "old") as [->|Hk];
    [destruct (String.eqb_spec v "true") as [->|Hv]|]; cbn [andb orb].
  - symmetry. apply bool_decide_eq_true. left.
  - apply bool_decide_ext. rewrite elem_of_cons. split; [auto|].
    intros [Heq|H]; [congruence | assumption].
  - apply bool_decide_ext. rewrite elem_of_cons. split; [auto|].
    intros [Heq|H]; [congruence | assumption].
Qed.

(** The first object under a prefix. *)
Lemma find_first_under (f : string -> bool) (objs : list (string * StoredObject)) :
  match List.filter f (map fst objs) with
  | [] => List.find (fun ko : string * StoredObject => f (fst ko)) objs = None
  | k :: _ =>
      exists o, List.find (fun ko : string * StoredObject => f (fst ko)) objs = Some (k, o) /\
                find_object k objs = Some o
  end.
Proof.
  induction objs as [|[k0 o0] objs IH]; [reflexivity|].
  cbn [map fst List.filter List.find find_object].
  destruct (f k0) eqn:Hk0.
  - exists o0. now rewrite String.eqb_refl.
  - destruct (List.filter f (map fst objs)) as [|k l] eqn:Hf; [exact IH|].
    destruct IH as (o & H1 & H2). exists o. split; [exact H1|].
    destruct (String.eqb_spec k0 k) as [->|_]; [|exact H2].
    assert (Hin : In k (List.filter f (map fst objs))) by (rewrite Hf; now left).
    apply filter_In in Hin as [_ Hin]. congruence.
Qed.

(** Sampling a prefix of the store: the answer is whether the first
    object under the prefix carries the tag; no object changes and no
    command of a mark-operation is sent. *)
Lemma isPrefixTaggedAsOld_store (prefix : string) (w : session Store) :
  increasing (store_keys (remote w)) ->
  (1 <= page_size (remote w))%nat ->
  prefix <> "" ->
  exists w' cmds,
    isPrefixTaggedAsOld (bucket_name (remote w)) prefix w
    = (Ok (already_marked prefix (remote w)), w') /\
    objects (remote w') = objects (remote w) /\
    same_frame (remote w) (remote w') /\
    sent w' = sent w ++ cmds /\ info_log w' = info_log w /\
    Forall (sampling_command prefix) cmds.
Proof.
  intros Hinc Hsize Hp.
  destruct (store_list_plain (remote w) prefix None (Some 1%nat) Hinc Hp)
    as (page & Hlist & Hcont & _).
  cbv zeta in Hcont.
  replace (Nat.min 1 (page_size (remote w))) with 1%nat in Hcont by lia.
  unfold isPrefixTaggedAsOld, bind, send_list, send, request, await.
  rewrite Hlist, Hcont. unfold already_marked.
  pose proof (find_first_under (String.prefix prefix) (objects (remote w))) as Hfirst.
  fold (store_keys (remote w)) in Hfirst.
  destruct (List.filter (String.prefix prefix) (store_keys (remote w))) as [|k K].
  - rewrite Hfirst. cbn [take]. eexists _, _. split; [reflexivity|].
    cbn [remote sent info_log tick objects].
    split; [reflexivity|]. split; [apply same_frame_tick|].
    split; [reflexivity|]. split; [reflexivity|].
    constructor; [|constructor]. simpl. auto.
  - destruct Hfirst as (o & Hfind & Ho). rewrite Hfind. cbn [take map Key snd].
    unfold isKeyTaggedAsOld, bind, send_get_tagging, send, request, await.
    cbn [remote get_object_tagging store_remote]. unfold store_get_tagging.
    cbn [tagging_Bucket tagging_Key tick bucket_name objects].
    rewrite String.eqb_refl, Ho. cbn [TagSet nullish]. rewrite existsb_old_tag.
    eexists _, _. split; [reflexivity|].
    cbn [remote sent info_log tick objects].
    split; [reflexivity|]. split; [repeat split|].
    split; [rewrite <- app_assoc; reflexivity|]. split; [reflexivity|].
    constructor; [|constructor; [|constructor]]; simpl; auto.
Qed.

Lemma same_cmds {R : Type} (w : session R) (a b : list command) :
  sent w ++ a = sent w ++ b -> a = b.
Proof. apply app_inv_head. Qed.


Lemma increasingb_correct (keys : list string) :
  increasingb keys = true -> increasing keys.
Proof.
  induction keys as [|key rest IH]; simpl; [auto|].
  intros H. apply andb_true_iff in H as [H1 H2]. split; [|auto].
  apply Forall_forall. intros k Hk. rewrite forallb_forall in H1.
  now apply H1, list_elem_of_In.
Qed.

Lemma test_store_increasing : increasing (store_keys test_store).
Proof. apply increasingb_correct. vm_compute. reflexivity. Qed.


(** ** The whole run on the store *)

Lemma already_marked_after (p : string) (K : list string) (s s' : Store) :
  store_keys s' = store_keys s -> marks K s s' ->
  (forall key, key ∈ store_keys s -> String.prefix p key = true -> key ∉ K) ->
  already_marked p s' = already_marked p s.
Proof.
  intros Hk Hm Hdis. unfold already_marked.
  pose proof (find_first_under (String.prefix p) (objects s)) as H1.
  pose proof (find_first_under (String.prefix p) (objects s')) as H2.
  fold (store_keys s) in H1. fold (store_keys s') in H2. rewrite Hk in H2.
  destruct (List.filter (String.prefix p) (store_keys s)) as [|k l] eqn:Hf.
  - now rewrite H1, H2.
  - destruct H1 as (o1 & -> & Ho1). destruct H2 as (o2 & -> & Ho2). cbn [snd].
    assert (Hin : In k (List.filter (String.prefix p) (store_keys s)))
      by (rewrite Hf; now left).
    apply filter_In in Hin as [Hin Hpk]. apply list_elem_of_In in Hin.
    destruct (Hm k o1 Ho1) as [_ Hout]. rewrite Hout in Ho2 by (now apply Hdis).
    now injection Ho2 as <-.
Qed.

Lemma already_marked_marked (p : string) (K : list string) (s s' : Store) :
  store_keys s' = store_keys s -> marks K s s' ->
  (forall key, key ∈ store_keys s -> String.prefix p key = true -> key ∈ K) ->
  List.filter (String.prefix p) (store_keys s) <> [] ->
  already_marked p s' = true.
Proof.
  intros Hk Hm Hall Hne. unfold already_marked.
  pose proof (find_first_under (String.prefix p) (objects s')) as H2.
  fold (store_keys s') in H2. rewrite Hk in H2.
  destruct (List.filter (String.prefix p) (store_keys s)) as [|k l] eqn:Hf; [congruence|].
  destruct H2 as (o2 & -> & Ho2). cbn [snd].
  assert (Hin : In k (List.filter (String.prefix p) (store_keys s)))
    by (rewrite Hf; now left).
  apply filter_In in Hin as [Hin Hpk]. apply list_elem_of_In in Hin.
  pose proof Hin as Hin'. apply find_object_elem in Hin' as [o Ho].
  destruct (Hm k o Ho) as [Hyes _]. destruct Hyes as (now & time & Hf'); [now apply Hall|].
  rewrite Hf' in Ho2. injection Ho2 as <-. apply bool_decide_eq_true. left.
Qed.

Lemma filter_orb_Permutation (f g : string -> bool) (l : list string) :
  (forall x, x ∈ l -> f x = true -> g x = false) ->
  List.filter (fun x => f x || g x) l ≡ₚ List.filter f l ++ List.filter g l.
Proof.
  induction l as [|x l IH]; intros Hd; [reflexivity|]. cbn [List.filter].
  assert (IH' : List.filter (fun x => f x || g x) l ≡ₚ List.filter f l ++ List.filter g l).
  { apply IH. intros y Hy. apply Hd. now right. }
  destruct (f x) eqn:Hf; cbn [orb].
  - rewrite (Hd x) by (left || assumption). cbn [app]. now rewrite IH'.
  - destruct (g x); [|exact IH']. rewrite IH'. apply Permutation_middle.
Qed.

Lemma existsb_ext_in {A : Type} (f g : A -> bool) (l : list A) :
  (forall x, x ∈ l -> f x = g x) -> existsb f l = existsb g l.
Proof.
  induction l as [|x l IH]; intros Hfg; [reflexivity|]. cbn [existsb].
  rewrite (Hfg x) by left. f_equal. apply IH. intros y Hy. apply Hfg. now right.
Qed.

Lemma existsb_none {A : Type} (f : A -> bool) (l : list A) :
  (forall x, x ∈ l -> f x = false) -> existsb f l = false.
Proof.
  induction l as [|x l IH]; intros Hf; [reflexivity|]. cbn [existsb].
  rewrite (Hf x) by left. apply IH. intros y Hy. apply Hf. now right.
Qed.

Lemma filter_nothing {A : Type} (f : A -> bool) (l : list A) :
  (forall x, f x = false) -> List.filter f l = [].
Proof.
  intros Hf. induction l as [|x l IH]; [reflexivity|]. cbn [List.filter]. now rewrite Hf.
Qed.

Lemma version_prefix_nonempty (folder : string) (v : Version) :
  version_prefix folder v <> "".
Proof. unfold version_prefix. destruct folder; discriminate. Qed.

Lemma lt_zero_sign (x : number) : lt x zero = true <-> sign x = Some Lt.
Proof.
  destruct x as [|[]|z]; simpl; try (split; (discriminate || reflexivity)).
  rewrite Z.ltb_lt. split.
  - intros Hz. f_equal. now apply Z.compare_lt_iff.
  - intros Hz. injection Hz as Hz. now apply Z.compare_lt_iff.
Qed.

(** On finite versions the test of the filter is the order of the data
    model. *)
Lemma older_than_lex (cur v : Version) :
  finite_version v -> finite_version cur ->
  older_than cur v = bool_decide (lex_compare v cur = Lt).
Proof.
  intros Hv Hcur.
  destruct (finite_version_inv v Hv) as (i & r & t & ->).
  destruct (finite_version_inv cur Hcur) as (i' & r' & t' & ->).
  pose proof (compareVersions_fin i i' r t r' t') as Hs.
  unfold older_than, lex_compare. cbn [run attempt ordinal].
  destruct (lt (compareVersions _ _) zero) eqn:Hlt.
  - apply lt_zero_sign in Hlt. rewrite Hs in Hlt. injection Hlt as Hlt.
    symmetry. now apply bool_decide_eq_true.
  - symmetry. apply bool_decide_eq_false. intros Hlex.
    rewrite Hlex in Hs. apply lt_zero_sign in Hs. congruence.
Qed.

Section StoreRun.

Variable oracle : session Store -> nat -> nat.
Variable pages : nat.
Variable folder : string.
Variable parallel : Z.
Hypothesis parallel_pos : 1 <= parallel.

(** One turn of the loop over the versions. *)
Lemma tag_version_store (v : Version) (w : session Store) :
  increasing (store_keys (remote w)) ->
  (1 <= page_size (remote w))%nat ->
  (length (store_keys (remote w)) < pages)%nat ->
  let prefix := version_prefix folder v in
  let todo := fun key => negb (already_marked prefix (remote w)) && String.prefix prefix key in
  exists w' cmds lines,
    tag_version oracle pages (bucket_name (remote w)) folder (Fin parallel) v w
    = (Ok tt, w') /\
    same_frame (remote w) (remote w') /\
    sent w' = sent w ++ cmds /\ info_log w' = info_log w ++ lines /\
    marks (List.filter todo (store_keys (remote w))) (remote w) (remote w') /\
    head_keys cmds = List.filter todo (store_keys (remote w)) /\
    copy_keys cmds ≡ₚ List.filter todo (store_keys (remote w)) /\
    Forall (fun cmd => sampling_command prefix cmd \/
                       (already_marked prefix (remote w) = false /\
                        scan_command prefix cmd)) cmds /\
    Forall (fun line => already_marked prefix (remote w) = false /\
                        line = "Tagging " +:+ prefix +:+ " as old") lines.
Proof.
  intros Hinc Hsize Hlen prefix todo.
  assert (Hp : prefix <> "") by apply version_prefix_nonempty.
  destruct (isPrefixTaggedAsOld_store prefix w Hinc Hsize Hp)
    as (w1 & c1 & Hsample & Hobj1 & Hframe1 & Hs1 & Hi1 & Hc1).
  unfold tag_version. fold prefix. unfold bind at 1. rewrite Hsample.
  assert (Hc1' : Forall (fun cmd => sampling_command prefix cmd \/
                                    (already_marked prefix (remote w) = false /\
                                     scan_command prefix cmd)) c1).
  { eapply Forall_impl; [exact Hc1|]. intros cmd Hcmd. now left. }
  assert (Hh1 : head_keys c1 = [] /\ copy_keys c1 = []).
  { clear -Hc1. induction Hc1 as [|cmd c1 Hcmd _ [IH1 IH2]]; [split; reflexivity|].
    destruct cmd; simpl in Hcmd; try contradiction; split; assumption. }
  destruct Hh1 as [Hh1 Hk1].
  destruct (already_marked prefix (remote w)) eqn:Hm; cbn [negb].
  - (* found marked: passed over *)
    assert (Hnone : List.filter todo (store_keys (remote w)) = []).
    { apply filter_nothing. intros key. unfold todo. reflexivity. }
    rewrite Hnone. exists w1, c1, []. split; [reflexivity|].
    split; [exact Hframe1|]. split; [exact Hs1|].
    split; [now rewrite app_nil_r|].
    split; [apply marks_nothing; intros key; now rewrite Hobj1|].
    split; [exact Hh1|]. split; [now rewrite Hk1|]. split; [exact Hc1' | constructor].
  - (* not marked *)
    assert (Hsome : List.filter todo (store_keys (remote w))
                    = List.filter (String.prefix prefix) (store_keys (remote w))).
    { apply List.filter_ext. intros key. unfold todo. reflexivity. }
    rewrite Hsome. unfold bind at 1. cbn [info].
    set (w2 := {| remote := remote w1; sent := sent w1;
                  info_log := info_log w1 ++ ["Tagging " +:+ prefix +:+ " as old"] |}).
    destruct Hframe1 as (Hb1 & Hps1 & Hkk1).
    assert (Hkk1' : store_keys (remote w1) = store_keys (remote w)) by exact Hkk1.
    destruct (prefixTaggedAsOld_from_store oracle prefix parallel parallel_pos Hp pages
                None w2 [] (List.filter (String.prefix prefix) (store_keys (remote w))))
      as (w3 & c3 & Hrun & Hframe3 & Hmark3 & Hs3 & Hi3 & Hh3 & Hk3).
    { cbn [w2 remote]. now rewrite Hkk1'. }
    { cbn [w2 remote]. lia. }
    { cbn [w2 remote]. now rewrite Hkk1'. }
    { reflexivity. }
    { pose proof (List.filter_length_le (String.prefix prefix) (store_keys (remote w))).
      lia. }
    cbn [w2 remote sent info_log] in Hrun, Hframe3, Hmark3, Hs3, Hi3.
    rewrite Hb1 in Hrun.
    exists w3, (c1 ++ c3), ["Tagging " +:+ prefix +:+ " as old"].
    split; [exact Hrun|]. split.
    { eapply same_frame_trans; [|exact Hframe3]. repeat split; assumption. }
    split; [rewrite Hs3, Hs1, <- app_assoc; reflexivity|].
    split; [rewrite Hi3, Hi1; reflexivity|].
    split.
    { intros key o Hk. apply (Hmark3 key o). now rewrite Hobj1. }
    rewrite head_keys_app, copy_keys_app, Hh1, Hk1, Hh3, Hk3. cbn [app].
    split; [reflexivity|]. split; [reflexivity|]. split.
    + apply Forall_app. split; [exact Hc1'|].
      destruct (prefixTaggedAsOld_from_scans oracle pages (bucket_name (remote w)) prefix
                  (Fin parallel) None _ _ _ Hrun) as (c & l & Hs' & _ & Hc' & _).
      cbn [w2 sent] in Hs'. rewrite Hs3 in Hs'. apply same_cmds in Hs'. subst c.
      eapply Forall_impl; [exact Hc'|]. intros cmd Hcmd. right. auto.
    + constructor; [|constructor]. auto.
Qed.

Variable cur : Version.

(** The loop over the versions to mark, in terms of the store at its
    start. *)
Lemma tag_versions_store (l : list Version) :
  forall w : session Store,
    Forall parsed l ->
    Forall (fun v => lex_compare v cur = Lt) l ->
    increasing (store_keys (remote w)) ->
    (1 <= page_size (remote w))%nat ->
    (length (store_keys (remote w)) < pages)%nat ->
    exists w' cmds lines,
      for_each (tag_version oracle pages (bucket_name (remote w)) folder (Fin parallel)) l w
      = (Ok tt, w') /\
      same_frame (remote w) (remote w') /\
      sent w' = sent w ++ cmds /\ info_log w' = info_log w ++ lines /\
      (forall key o,
          find_object key (objects (remote w)) = Some o ->
          if due folder cur l (remote w) key
          then exists now time,
              find_object key (objects (remote w')) = Some (marked o now time)
          else find_object key (objects (remote w')) = Some o) /\
      head_keys cmds ≡ₚ List.filter (due folder cur l (remote w)) (store_keys (remote w)) /\
      copy_keys cmds ≡ₚ List.filter (due folder cur l (remote w)) (store_keys (remote w)) /\
      Forall (fun cmd =>
                exists v, v ∈ l /\
                          (sampling_command (version_prefix folder v) cmd \/
                           (already_marked (version_prefix folder v) (remote w) = false /\
                            scan_command (version_prefix folder v) cmd))) cmds /\
      Forall (fun line =>
                exists v, v ∈ l /\
                          already_marked (version_prefix folder v) (remote w) = false /\
                          line = "Tagging " +:+ version_prefix folder v +:+ " as old") lines.
Proof.
  induction l as [|v l IH]; intros w Hparsed Hless Hinc Hsize Hlen.
  - exists w, [], []. cbn [for_each due existsb List.filter]. rewrite !app_nil_r.
    split; [reflexivity|]. split; [apply same_frame_refl|].
    split; [reflexivity|]. split; [reflexivity|].
    split; [intros key o Ho; exact Ho|].
    rewrite (filter_nothing (fun _ => false)) by reflexivity.
    repeat split; constructor.
  - apply Forall_cons in Hparsed as [Hv Hparsed]. apply Forall_cons in Hless as [Hlt Hless].
    destruct (tag_version_store v w Hinc Hsize Hlen)
      as (w1 & c1 & l1 & Hrun1 & Hframe1 & Hs1 & Hi1 & Hmark1 & Hh1 & Hk1 & Hc1 & Hl1).
    set (prefix := version_prefix folder v) in *.
    set (todo := fun key => negb (already_marked prefix (remote w))
                            && String.prefix prefix key) in *.
    set (K := List.filter todo (store_keys (remote w))) in *.
    destruct Hframe1 as (Hb1 & Hps1 & Hkk1).
    destruct (IH w1 Hparsed Hless)
      as (w2 & c2 & l2 & Hrun2 & Hframe2 & Hs2 & Hi2 & Hobj2 & Hh2 & Hk2 & Hc2 & Hl2);
      [now rewrite Hkk1 | lia | now rewrite Hkk1|].
    rewrite Hb1 in Hrun2. rewrite Hkk1 in Hh2, Hk2.
    (* how the prefixes stand after the turn for [v] *)
    assert (HinK : forall key, key ∈ K <-> key ∈ store_keys (remote w) /\ todo key = true).
    { intros key. unfold K. rewrite !list_elem_of_In, filter_In. reflexivity. }
    assert (Hother : forall v' key,
               v' ∈ l -> key ∈ store_keys (remote w) -> todo key = false ->
               String.prefix (version_prefix folder v') key = true ->
               already_marked (version_prefix folder v') (remote w1)
               = already_marked (version_prefix folder v') (remote w)).
    { intros v' key Hv' Hkey Htodo Hpre.
      destruct (already_marked prefix (remote w)) eqn:Hm.
      - apply (already_marked_after _ K); [exact Hkk1 | exact Hmark1|].
        intros k Hk _ HkK. apply HinK in HkK as [_ HkK]. unfold todo in HkK.
        rewrite ?Hm in HkK. discriminate.
      - apply (already_marked_after _ K); [exact Hkk1 | exact Hmark1|].
        intros k Hk Hpk HkK. apply HinK in HkK as [_ HkK]. unfold todo in HkK.
        rewrite ?Hm in HkK. cbn [negb andb] in HkK, Htodo.
        rewrite Forall_forall in Hparsed.
        pose proof (version_prefix_disjoint folder k v v' Hv (Hparsed v' Hv') HkK Hpk).
        subst v'. fold prefix in Hpre. unfold todo in Htodo. rewrite ?Hm in Htodo.
        cbn [negb andb] in Htodo. congruence. }
    assert (Hdone : forall key,
               key ∈ store_keys (remote w) -> todo key = true ->
               due folder cur l (remote w1) key = false).
    { intros key Hkey Htodo. unfold due. apply existsb_none. intros v' Hv'.
      destruct (String.prefix (version_prefix folder v') key) eqn:Hpre;
        [|now rewrite andb_false_r].
      unfold todo in Htodo. apply andb_true_iff in Htodo as [Hm Hpk].
      apply negb_true_iff in Hm.
      rewrite Forall_forall in Hparsed.
      pose proof (version_prefix_disjoint folder key v v' Hv (Hparsed v' Hv') Hpk Hpre).
      subst v'. fold prefix.
      rewrite (already_marked_marked prefix K (remote w) (remote w1) Hkk1 Hmark1).
      - now rewrite andb_false_r.
      - intros k Hk Hpk'. apply HinK. split; [exact Hk|]. unfold todo.
        now rewrite Hm, Hpk'.
      - intros Hnil.
        assert (Hin : In key (List.filter (String.prefix prefix) (store_keys (remote w)))).
        { apply filter_In. split; [now apply list_elem_of_In | exact Hpk]. }
        rewrite Hnil in Hin. inversion Hin. }
    assert (Hrest : forall key,
               key ∈ store_keys (remote w) -> todo key = false ->
               due folder cur l (remote w1) key = due folder cur l (remote w) key).
    { intros key Hkey Htodo. unfold due. apply existsb_ext_in. intros v' Hv'.
      destruct (String.prefix (version_prefix folder v') key) eqn:Hpre;
        [|now rewrite !andb_false_r].
      now rewrite (Hother v' key Hv' Hkey Htodo Hpre). }
    assert (Hdue : forall key,
               key ∈ store_keys (remote w) ->
               due folder cur (v :: l) (remote w) key
               = todo key || due folder cur l (remote w1) key).
    { intros key Hkey. unfold due at 1. cbn [existsb]. fold (due folder cur l (remote w) key).
      fold prefix. rewrite (bool_decide_eq_true_2 _ Hlt). cbn [andb]. fold (todo key).
      destruct (todo key) eqn:Htodo; [reflexivity|]. cbn [orb].
      symmetry. now apply Hrest. }
    assert (Hfilter : List.filter (due folder cur (v :: l) (remote w)) (store_keys (remote w))
                      ≡ₚ K ++ List.filter (due folder cur l (remote w1))
                                          (store_keys (remote w))).
    { unfold K. rewrite <- filter_orb_Permutation by (intros x Hx; now apply Hdone).
      erewrite List.filter_ext_in; [reflexivity|].
      intros key Hkey. apply Hdue. now apply list_elem_of_In. }
    exists w2, (c1 ++ c2), (l1 ++ l2).
    split.
    { cbn [for_each]. unfold bind at 1. rewrite Hrun1. exact Hrun2. }
    split; [apply (same_frame_trans _ (remote w1));
            [repeat split; assumption | exact Hframe2]|].
    split; [rewrite Hs2, Hs1, <- app_assoc; reflexivity|].
    split; [rewrite Hi2, Hi1, <- app_assoc; reflexivity|].
    split.
    { intros key o Ho.
      assert (Hkey : key ∈ store_keys (remote w)) by (apply find_object_elem; eauto).
      rewrite (Hdue key Hkey). destruct (Hmark1 key o Ho) as [Hyes Hno].
      destruct (todo key) eqn:Htodo; cbn [orb].
      - destruct Hyes as (now & time & Hf1); [apply HinK; auto|].
        specialize (Hobj2 key _ Hf1). rewrite (Hdone key Hkey Htodo) in Hobj2. eauto.
      - assert (Hf1 : find_object key (objects (remote w1)) = Some o).
        { apply Hno. intros HkK. apply HinK in HkK as [_ HkK]. congruence. }
        exact (Hobj2 key o Hf1). }
    rewrite head_keys_app, copy_keys_app, Hh1, Hk1, Hh2, Hk2, Hfilter.
    split; [reflexivity|]. split; [reflexivity|]. split.
    + apply Forall_app. split.
      * eapply Forall_impl; [exact Hc1|]. intros cmd Hcmd. exists v. split; [left | exact Hcmd].
      * eapply Forall_impl; [exact Hc2|]. intros cmd (v' & Hv' & Hcmd).
        exists v'. split; [now right|]. destruct Hcmd as [Hcmd|[Hm Hcmd]]; [now left|].
        destruct (decide (version v' = version v)) as [Heq|Hne].
        -- rewrite Forall_forall in Hparsed.
           pose proof (parsed_same_identifier v' v (Hparsed v' Hv') Hv Heq). subst v'.
           fold prefix in Hm, Hcmd |- *.
           destruct (already_marked prefix (remote w)) eqn:Hm0; [|now right].
           exfalso. rewrite (already_marked_after prefix K (remote w) (remote w1)) in Hm;
             [congruence | exact Hkk1 | exact Hmark1|].
           intros k Hk _ HkK. apply HinK in HkK as [_ HkK]. unfold todo in HkK.
           rewrite ?Hm0 in HkK. discriminate.
        -- right. split; [|exact Hcmd]. rewrite <- Hm. symmetry.
           apply (already_marked_after _ K); [exact Hkk1 | exact Hmark1|].
           intros k Hk Hpk HkK. apply HinK in HkK as [_ HkK]. unfold todo in HkK.
           apply andb_true_iff in HkK as [_ HkK]. rewrite Forall_forall in Hparsed.
           pose proof (version_prefix_disjoint folder k v v' Hv (Hparsed v' Hv') HkK Hpk).
           subst v'. congruence.
    + apply Forall_app. split.
      * eapply Forall_impl; [exact Hl1|]. intros line Hline. exists v. split; [left | exact Hline].
      * eapply Forall_impl; [exact Hl2|]. intros line (v' & Hv' & Hm & Hline).
        exists v'. split; [now right|]. split; [|exact Hline].
        destruct (decide (version v' = version v)) as [Heq|Hne].
        -- rewrite Forall_forall in Hparsed.
           pose proof (parsed_same_identifier v' v (Hparsed v' Hv') Hv Heq). subst v'.
           fold prefix in Hm |- *.
           destruct (already_marked prefix (remote w)) eqn:Hm0; [|reflexivity].
           exfalso. rewrite (already_marked_after prefix K (remote w) (remote w1)) in Hm;
             [congruence | exact Hkk1 | exact Hmark1|].
           intros k Hk _ HkK. apply HinK in HkK as [_ HkK]. unfold todo in HkK.
           rewrite ?Hm0 in HkK. discriminate.
        -- rewrite <- Hm. symmetry.
           apply (already_marked_after _ K); [exact Hkk1 | exact Hmark1|].
           intros k Hk Hpk HkK. apply HinK in HkK as [_ HkK]. unfold todo in HkK.
           apply andb_true_iff in HkK as [_ HkK]. rewrite Forall_forall in Hparsed.
           pose proof (version_prefix_disjoint folder k v v' Hv (Hparsed v' Hv') HkK Hpk).
           subst v'. congruence.
Qed.

End StoreRun.

Lemma send_head_store (i : HeadObjectInput) (w w' : session Store) (r : result HeadObjectOutput) :
  send_head i w = (r, w') ->
  remote w' = tick (remote w) /\ sent w' = sent w ++ [HeadObjectCommand i] /\
  info_log w' = info_log w.
Proof.
  unfold send_head, send, request, await. cbn [head_object store_remote]. unfold store_head.
  intros Heq. injection Heq as _ <-. auto.
Qed.

Lemma listVersions_from_store (pages : nat) (bucket folder : string) :
  forall versions marker (w w' : session Store) (r : result (list Version)),
    listVersions_from pages bucket folder versions marker w = (r, w') ->
    objects (remote w') = objects (remote w) /\ same_frame (remote w) (remote w').
Proof.
  induction pages as [|pages IH]; intros versions marker w w' r Hrun.
  - injection Hrun as _ <-. split; [reflexivity | apply same_frame_refl].
  - cbn [listVersions_from] in Hrun. unfold bind at 1 in Hrun.
    unfold send_list, send, request, await in Hrun.
    cbn [list_objects store_remote] in Hrun.
    destruct (store_list _ (remote w)) as [[e|page] s1] eqn:Hlist.
    + assert (s1 = tick (remote w)) by (unfold store_list in Hlist; now injection Hlist).
      subst s1. injection Hrun as _ <-. split; [reflexivity | apply same_frame_tick].
    + assert (s1 = tick (remote w)) by (unfold store_list in Hlist; now injection Hlist).
      subst s1. destruct (nullish (IsTruncated page) false).
      * apply IH in Hrun as [Ho Hf]. cbn [remote tick objects] in Ho, Hf.
        split; [exact Ho|]. eapply same_frame_trans; [apply same_frame_tick | exact Hf].
      * injection Hrun as _ <-. split; [reflexivity | apply same_frame_tick].
Qed.

Lemma already_marked_same (p : string) (s s' : Store) :
  objects s' = objects s -> already_marked p s' = already_marked p s.
Proof. unfold already_marked. now intros ->. Qed.

(** The versions the filter lets through are the listed versions that
    are strictly less than the current one. *)
Lemma due_filter (folder : string) (cur : Version) (vs : list Version) (s s' : Store)
      (key : string) :
  finite_version cur -> Forall finite_version vs -> objects s' = objects s ->
  due folder cur (List.filter (older_than cur) vs) s' key = due folder cur vs s key.
Proof.
  intros Hcur Hvs Hobj. unfold due.
  induction Hvs as [|v vs Hv Hvs IH]; [reflexivity|].
  cbn [List.filter existsb]. rewrite (older_than_lex cur v Hv Hcur).
  rewrite <- IH.
  destruct (bool_decide (lex_compare v cur = Lt)) eqn:Hlt; [|reflexivity].
  cbn [existsb]. now rewrite Hlt, (already_marked_same _ s s' Hobj).
Qed.

Lemma due_true (folder : string) (cur : Version) (vs : list Version) (s : Store)
      (key : string) :
  due folder cur vs s key = true <->
  exists v, v ∈ vs /\ lex_compare v cur = Lt /\
            already_marked (version_prefix folder v) s = false /\
            String.prefix (version_prefix folder v) key = true.
Proof.
  unfold due. rewrite existsb_exists. split.
  - intros (v & Hin & Hv). apply andb_true_iff in Hv as [Hv Hp].
    apply andb_true_iff in Hv as [Hlt Hm]. apply bool_decide_eq_true in Hlt.
    apply negb_true_iff in Hm. exists v. split; [now apply list_elem_of_In | auto].
  - intros (v & Hin & Hlt & Hm & Hp). exists v. split; [now apply list_elem_of_In|].
    now rewrite (bool_decide_eq_true_2 _ Hlt), Hm, Hp.
Qed.





(** ** Marking a key and asking for its mark *)

(** What a mark-operation makes of the store. *)
Lemma keyTaggedAsOld_store_run (w : session Store) (key : string) (o : StoredObject) :
  find_object key (objects (remote w)) = Some o ->
  let s := remote w in
  exists cmds,
    keyTaggedAsOld (bucket_name s) key w
    = (Ok tt,
       {| remote :=
            {| bucket_name := bucket_name s;
               objects := put_object key (marked o (store_now (tick s)) (clock s + 1))
                                     (objects s);
               clock := clock s + 1 + 1; page_size := page_size s |};
          sent := sent w ++ cmds; info_log := info_log w |}).
Proof.
  intros Hfind s. subst s.
  pose proof (keyTaggedAsOld_commands (bucket_name (remote w)) key w) as Hc.
  cbv zeta in Hc. cbn [head_object store_remote] in Hc.
  unfold store_head in Hc at 1. cbn [head_Bucket head_Key] in Hc.
  rewrite String.eqb_refl, Hfind in Hc.
  cbn [copy_object to_iso_string_now store_remote] in Hc.
  unfold store_copy in Hc.
  cbn [copy_Bucket CopySource mark_command bucket_name tick objects] in Hc.
  rewrite String.eqb_refl in Hc.
  rewrite (copy_source_key_roundtrip (tick (remote w)) (bucket_name (remote w)) key eq_refl)
    in Hc.
  rewrite Hfind in Hc. rewrite Hc. eexists. rewrite <- app_assoc. reflexivity.
Qed.

(** X15.  On the object store modelled from section 6 of the
    specification: marking an object the store holds succeeds, and
    [isKeyTaggedAsOld] then answers [true] for its key; before, it answers
    whether the object carries the tag [old=true].  For a key the store
    does not hold, both throw the error of their first request and the
    store is left as it was. *)
Theorem marked_key_is_found_marked (w : session Store) (key : string) :
  let b := bucket_name (remote w) in
  match find_object key (objects (remote w)) with
  | Some o =>
      (exists w1 w2,
          keyTaggedAsOld b key w = (Ok tt, w1) /\
          isKeyTaggedAsOld b key w1 = (Ok true, w2)) /\
      fst (isKeyTaggedAsOld b key w) = Ok (bool_decide (("old", "true") ∈ tag_set o))
  | None =>
      fst (keyTaggedAsOld b key w)
      = Throws (mkError "NotFound" "The specified key does not exist.") /\
      fst (isKeyTaggedAsOld b key w)
      = Throws (mkError "NoSuchKey" "The specified key does not exist.") /\
      objects (remote (snd (keyTaggedAsOld b key w))) = objects (remote w) /\
      sent (snd (keyTaggedAsOld b key w))
      = sent w ++ [HeadObjectCommand {| head_Bucket := b; head_Key := key |}]
  end.
Proof.
  intros b. subst b.
  destruct (find_object key (objects (remote w))) as [o|] eqn:Hfind.
  - split.
    + destruct (keyTaggedAsOld_store_run w key o Hfind) as [cmds Hrun].
      cbv zeta in Hrun. rewrite Hrun. eexists _, _. split; [reflexivity|].
      unfold isKeyTaggedAsOld, bind, send_get_tagging, send, request, await.
      cbn [remote get_object_tagging store_remote]. unfold store_get_tagging.
      cbn [tagging_Bucket tagging_Key bucket_name objects].
      rewrite String.eqb_refl, find_put_same. reflexivity.
    + unfold isKeyTaggedAsOld, bind, send_get_tagging, send, request, await.
      cbn [get_object_tagging store_remote]. unfold store_get_tagging.
      cbn [tagging_Bucket tagging_Key]. rewrite String.eqb_refl, Hfind.
      cbn [fst TagSet]. now rewrite existsb_old_tag.
  - pose proof (keyTaggedAsOld_commands (bucket_name (remote w)) key w) as Hc.
    cbv zeta in Hc. cbn [head_object store_remote] in Hc.
    unfold store_head in Hc at 1. cbn [head_Bucket head_Key] in Hc.
    rewrite String.eqb_refl, Hfind in Hc. rewrite Hc. cbn [fst snd remote sent].
    split; [reflexivity|]. split; [|split; reflexivity].
    unfold isKeyTaggedAsOld, bind, send_get_tagging, send, request, await.
    cbn [get_object_tagging store_remote]. unfold store_get_tagging.
    cbn [tagging_Bucket tagging_Key]. rewrite String.eqb_refl, Hfind. reflexivity.
Qed.

(** ** The path of a [CopySource] *)

Lemma all_chars_app (f : ascii -> bool) (s t : string) :
  all_chars f (s +:+ t) = all_chars f s && all_chars f t.
Proof. induction s as [|c s IH]; simpl; [reflexivity|]. now rewrite IH, andb_assoc. Qed.

Lemma hex_digit_safe (n : nat) : (n < 16)%nat -> path_safe (hex_digit n) = true.
Proof.
  intros Hn. do 16 (destruct n as [|n]; [reflexivity|]). lia.
Qed.

Lemma percent_byte_safe (n : nat) (rest : string) :
  (n < 256)%nat -> all_chars path_safe rest = true ->
  all_chars path_safe (percent_byte n rest) = true.
Proof.
  intros Hn Hrest. unfold percent_byte. cbn [all_chars].
  rewrite !hex_digit_safe, Hrest; [reflexivity | |].
  - apply Nat.mod_upper_bound. lia.
  - apply Nat.Div0.div_lt_upper_bound. lia.
Qed.

Lemma encode_unit_safe (c : ascii) (rest : string) :
  all_chars path_safe rest = true -> all_chars path_safe (encode_unit c rest) = true.
Proof.
  intros Hrest. unfold encode_unit. pose proof (nat_of_ascii_lt c) as Hc.
  destruct (uri_unreserved c) eqn:Hu.
  - assert (path_safe c = true) as Hsafe by (unfold path_safe; now rewrite Hu).
    cbn [all_chars]. now rewrite Hsafe, Hrest.
  - destruct (Nat.ltb_spec (nat_of_ascii c) 128).
    + apply percent_byte_safe; [lia | assumption].
    + apply percent_byte_safe.
      * assert (nat_of_ascii c / 64 < 4)%nat
          by (apply Nat.Div0.div_lt_upper_bound; lia). lia.
      * apply percent_byte_safe; [|assumption].
        pose proof (Nat.mod_upper_bound (nat_of_ascii c) 64). lia.
Qed.

Lemma encodeURIComponent_safe (s : string) :
  all_chars path_safe (encodeURIComponent s) = true.
Proof. induction s as [|c s IH]; [reflexivity|]. simpl. now apply encode_unit_safe. Qed.

Lemma encodeURIComponent_plain (s : string) :
  all_chars uri_unreserved s = true -> encodeURIComponent s = s.
Proof.
  induction s as [|c s IH]; [reflexivity|]. simpl. intros H.
  apply andb_true_iff in H as [Hc Hs]. unfold encode_unit. now rewrite Hc, IH.
Qed.

Lemma join_with_safe (parts : list string) :
  Forall (fun part => all_chars path_safe part = true) parts ->
  all_chars path_safe (join_with "/" parts) = true.
Proof.
  induction 1 as [|part parts Hp Hps IH]; [reflexivity|].
  destruct parts as [|part' parts]; [exact Hp|].
  change (join_with "/" (part :: part' :: parts))
    with (part +:+ "/" +:+ join_with "/" (part' :: parts)).
  rewrite !all_chars_app, Hp, IH. reflexivity.
Qed.

Lemma split_join (s : string) : join_with "/" (split_on "/" s) = s.
Proof.
  induction s as [|c s IH]; [reflexivity|]. cbn [split_on].
  destruct (Ascii.eqb_spec c "/") as [->|Hne].
  - destruct (split_on_nonempty "/" s) as (part & parts & Hs). rewrite Hs in *.
    change (join_with "/" ("" :: part :: parts))
      with ("" +:+ "/" +:+ join_with "/" (part :: parts)).
    rewrite IH. reflexivity.
  - destruct (split_on_nonempty "/" s) as (part & parts & Hs). rewrite Hs in *.
    destruct parts as [|part' parts].
    + simpl in IH |- *. now rewrite IH.
    + change (join_with "/" (String c part :: part' :: parts))
        with (String c (part +:+ "/" +:+ join_with "/" (part' :: parts))).
      change (join_with "/" (part :: part' :: parts))
        with (part +:+ "/" +:+ join_with "/" (part' :: parts)) in IH.
      now rewrite IH.
Qed.

Lemma split_on_plain (s : string) :
  all_chars (fun c => uri_unreserved c || Ascii.eqb c "/") s = true ->
  Forall (fun part => all_chars uri_unreserved part = true) (split_on "/" s).
Proof.
  induction s as [|c s IH]; [repeat constructor|]. cbn [all_chars split_on].
  intros H. apply andb_true_iff in H as [Hc Hs]. specialize (IH Hs).
  destruct (Ascii.eqb_spec c "/") as [->|Hne].
  - constructor; [reflexivity | assumption].
  - destruct (split_on "/" s) as [|part parts].
    + constructor; [|constructor]. cbn [all_chars].
      rewrite orb_false_r in Hc. now rewrite Hc.
    + apply Forall_cons in IH as [Hp Hps]. constructor; [|assumption].
      cbn [all_chars]. rewrite orb_false_r in Hc. now rewrite Hc, Hp.
Qed.

(** X16.  When the head command is answered, [keyTaggedAsOld] sends
    after it one copy command onto the same key of the same bucket, whose
    [CopySource] is the bucket, a slash, and a path made from the key:
    the path holds no character other than letters, digits,
    [- _ . ! ~ * ' ( )], [%] and [/], whatever the key; decoding its
    percent escapes as UTF-8 gives the key back; and for a key made of
    such characters without [%] the path is the key itself. *)
Theorem copy_source_path_is_escaped
        {R : Type} `{Remote R} (bucket key : string) (w : session R)
        (data : HeadObjectOutput) (rem : R) :
  head_object {| head_Bucket := bucket; head_Key := key |} (remote w) = (inr data, rem) ->
  exists (copy : CopyObjectInput) (path : string),
    sent (snd (keyTaggedAsOld bucket key w))
    = sent w ++ [HeadObjectCommand {| head_Bucket := bucket; head_Key := key |};
                 CopyObjectCommand copy] /\
    copy_Bucket copy = bucket /\ copy_Key copy = key /\
    CopySource copy = bucket +:+ "/" +:+ path /\
    all_chars path_safe path = true /\
    utf8_decode (percent_decode path) = key /\
    (all_chars (fun c => uri_unreserved c || Ascii.eqb c "/") key = true -> path = key).
Proof.
  intros Hhead.
  pose proof (keyTaggedAsOld_commands bucket key w) as Hc. cbv zeta in Hc.
  rewrite Hhead in Hc.
  destruct (copy_object (mark_command bucket key data (to_iso_string_now rem)) rem)
    as [r rem'].
  rewrite Hc. cbn [snd sent].
  exists (mark_command bucket key data (to_iso_string_now rem)), (copy_source_path key).
  split; [now rewrite <- app_assoc|]. split; [reflexivity|]. split; [reflexivity|].
  split; [reflexivity|]. unfold copy_source_path. split; [|split].
  - apply join_with_safe. apply Forall_forall. intros part Hpart.
    apply list_elem_of_fmap in Hpart as (p & -> & _). apply encodeURIComponent_safe.
  - now rewrite percent_decode_key, utf8_decode_encode.
  - intros Hplain. rewrite <- (split_join key) at 2. f_equal.
    pose proof (split_on_plain key Hplain) as Hparts.
    induction Hparts as [|part parts Hp Hps IH]; [reflexivity|].
    cbn [map]. now rewrite encodeURIComponent_plain, IH.
Qed.

Lemma copy_source_path_is_escaped_witness :
  (exists data rem,
      head_object {| head_Bucket := test_bucket; head_Key := spaced_key |} spaced_store
      = (inr data, rem)) /\
  omap (fun cmd => match cmd with
                   | CopyObjectCommand i => Some (CopySource i)
                   | _ => None
                   end)
       (sent (snd (keyTaggedAsOld test_bucket spaced_key (start_session spaced_store))))
  = ["tinymce-docs-cleanup-action/dir%20one/file%2Btwo.txt"] /\
  exists (copy : CopyObjectInput) (path : string),
    sent (snd (keyTaggedAsOld test_bucket spaced_key (start_session spaced_store)))
    = [HeadObjectCommand {| head_Bucket := test_bucket; head_Key := spaced_key |};
       CopyObjectCommand copy] /\
    CopySource copy = test_bucket +:+ "/" +:+ path /\
    all_chars path_safe path = true.
Proof.
  assert (Hhead : head_object {| head_Bucket := test_bucket; head_Key := spaced_key |}
                               (remote (start_session spaced_store))
                   = (inr {| ContentType := Some "text/plain"; CacheControl := None;
                             Metadata := Some ∅ |}, tick spaced_store))
    by (vm_compute; reflexivity).
  split; [eexists _, _; exact Hhead|].
  split; [vm_compute; reflexivity|].
  destruct (copy_source_path_is_escaped
              test_bucket spaced_key (start_session spaced_store) _ _ Hhead)
    as (copy & path & Hs & _ & _ & Hsrc & Hsafe & _).
  exists copy, path. split; [exact Hs|]. split; [exact Hsrc | exact Hsafe].
Defined.
